(** * A shallow embedding of the post normalisation and enrichment pipeline

    The development follows the Python sources
    [scraper/text_utils.py], [scraper/reddit_search.py],
    [scraper/scraper.py] and [nlp/sentiment_analyzer.py].

    Python strings are sequences of Unicode code points, dictionaries are
    finite maps keyed by strings, and a call that may raise is a
    computation in the [outcome] monad.  Third-party libraries ([emoji],
    [langdetect], [deep_translator], [twscrape], [praw], [spaCy],
    [transformers], the Unicode character database) are type classes whose
    instances are the collaborators of a run. *)

From Stdlib Require Import ZArith NArith QArith Qcanon Qround String Ascii Lia.
From stdpp Require Import base option list gmap sets strings pretty.

Set Warnings "-register-all".
Local Open Scope Z_scope.

(** ** Python values *)

Module Py.

(** A [str] is a sequence of code points. *)
Definition pystr := list N.

(** Literals of the source are written with [py]; they are ASCII. *)
Definition py (s : string) : pystr :=
  (λ a, N_of_ascii a) <$> list_ascii_of_string s.

(** The values stored in dictionaries and data-frame cells. *)
Inductive pyval :=
  | VNone
  | VNaN
  | VInt (z : Z)
  | VFloat (q : Q)
  | VStr (s : pystr)
  | VList (l : list pyval)
  | VDict (d : gmap pystr pyval).

Abbreviation dict := (gmap pystr pyval).

(** [d.get(k)] and [d.get(k, default)]. *)
Definition get (d : dict) (k : string) : pyval := default VNone (d !! py k).
Definition get_or (d : dict) (k : string) (dflt : pyval) : pyval :=
  default dflt (d !! py k).

(** [d[k] = v] and [d.setdefault(k, v)]. *)
Definition set_item (d : dict) (k : string) (v : pyval) : dict := <[py k := v]> d.
Definition setdefault (d : dict) (k : string) (v : pyval) : dict :=
  match d !! py k with Some _ => d | None => <[py k := v]> d end.

(** Exceptions.  Every failure of a collaborator is an instance of
    [Exception]; the payload is its message. *)
Inductive exn := Exception (kind : string).

(** The result of running a statement or a call: it returns, it raises, or
    it blocks for ever on a future that nobody completes. *)
Inductive outcome (A : Type) :=
  | Return (a : A)
  | Raise (e : exn)
  | Blocked.
Arguments Return {A} a.
Arguments Raise {A} e.
Arguments Blocked {A}.

#[export] Instance outcome_ret : MRet outcome := λ A a, Return a.
#[export] Instance outcome_bind : MBind outcome := λ A B f m,
  match m with Return a => f a | Raise e => Raise e | Blocked => Blocked end.
#[export] Instance outcome_fmap : FMap outcome := λ A B f m,
  match m with Return a => Return (f a) | Raise e => Raise e | Blocked => Blocked end.

(** [try: body  except Exception as e: handler e]. *)
Definition try_except {A} (body : outcome A) (handler : exn → outcome A) : outcome A :=
  match body with
  | Return a => Return a
  | Raise e => handler e
  | Blocked => Blocked
  end.

(** *** Character classes *)

Definition chr (c : string) : N :=
  match c with String a _ => N_of_ascii a | EmptyString => 0%N end.

Definition between (lo hi c : N) : bool := ((lo <=? c) && (c <=? hi))%N.

Definition is_ascii (c : N) : bool := (c <? 128)%N.

(** [str.isspace] on one code point, which is also the class [\s] of the
    [re] module on [str] patterns. *)
Definition isspace (c : N) : bool :=
  between 9 13 c || between 28 32 c
  || (c =? 0x85)%N || (c =? 0xA0)%N || (c =? 0x1680)%N
  || between 0x2000 0x200A c
  || (c =? 0x2028)%N || (c =? 0x2029)%N || (c =? 0x202F)%N
  || (c =? 0x205F)%N || (c =? 0x3000)%N.

Definition ascii_upper (c : N) : bool := between 65 90 c.
Definition ascii_lower (c : N) : bool := between 97 122 c.
Definition ascii_digit (c : N) : bool := between 48 57 c.
Definition ascii_alnum (c : N) : bool :=
  ascii_digit c || ascii_upper c || ascii_lower c.

(** The Unicode character database, for the code points above 127. *)
Class Unicode := {
  unicode_alnum : N → bool;
  unicode_lower : N → pystr;
  unicode_upper : N → pystr;
}.

Section unicode.
Context `{!Unicode}.

(** The class [\w] of [re] on [str] patterns: alphanumeric or underscore. *)
Definition is_word (c : N) : bool :=
  if is_ascii c then ascii_alnum c || (c =? chr "_")%N else unicode_alnum c.

(** [str.lower] and [str.upper], character by character: the lowering
    of a capital sigma by its place in the word is not modelled. *)
Definition lower_char (c : N) : pystr :=
  if is_ascii c then [if ascii_upper c then (c + 32)%N else c]
  else unicode_lower c.
Definition upper_char (c : N) : pystr :=
  if is_ascii c then [if ascii_lower c then (c - 32)%N else c]
  else unicode_upper c.
Definition lower (s : pystr) : pystr := s ≫= lower_char.
Definition upper (s : pystr) : pystr := s ≫= upper_char.

End unicode.

(** *** String methods *)

Fixpoint drop_while {A} (p : A → bool) (l : list A) : list A :=
  match l with
  | [] => []
  | x :: r => if p x then drop_while p r else l
  end.

Fixpoint take_while {A} (p : A → bool) (l : list A) : list A :=
  match l with
  | [] => []
  | x :: r => if p x then x :: take_while p r else []
  end.

Definition lstrip (s : pystr) : pystr := drop_while isspace s.

Fixpoint rstrip (s : pystr) : pystr :=
  match s with
  | [] => []
  | c :: r =>
      match rstrip r with
      | [] => if isspace c then [] else [c]
      | r' => c :: r'
      end
  end.

(** [s.strip()]. *)
Definition strip (s : pystr) : pystr := rstrip (lstrip s).

(** [s.count(c)] for a one-character needle. *)
Definition count_char (c : N) (s : pystr) : Z :=
  Z.of_nat (length (filter (λ x, x = c) s)).

(** [s.startswith(p)]. *)
Fixpoint startswith (s p : pystr) {struct p} : bool :=
  match p, s with
  | [], _ => true
  | a :: p', b :: s' => (a =? b)%N && startswith s' p'
  | _ :: _, [] => false
  end.

(** [needle in s]. *)
Fixpoint contains (s needle : pystr) : bool :=
  startswith s needle ||
  match s with
  | [] => false
  | _ :: r => contains r needle
  end.

(** [s.split()]: the maximal runs of characters that are not white space.
    [cur] is the token being read, in reverse. *)
Fixpoint split_from (cur : pystr) (s : pystr) : list pystr :=
  match s with
  | [] => match cur with [] => [] | _ => [reverse cur] end
  | c :: r =>
      if isspace c
      then match cur with [] => split_from [] r | _ => reverse cur :: split_from [] r end
      else split_from (c :: cur) r
  end.
Definition split (s : pystr) : list pystr := split_from [] s.

(** [sep.join(parts)]. *)
Fixpoint join (sep : pystr) (parts : list pystr) : pystr :=
  match parts with
  | [] => []
  | [p] => p
  | p :: rest => p ++ sep ++ join sep rest
  end.

(** [len(x)] as a Python integer. *)
Definition len {A} (l : list A) : Z := Z.of_nat (length l).

(** *** Regular expressions

    [re.sub(pattern, repl, s)] for a pattern that never matches the empty
    string: the scan goes from left to right; where the pattern matches,
    the match is replaced and the scan resumes after it; elsewhere the
    character is copied.  [m s] is the length of the match of the pattern
    at the start of [s], and [skip] counts the characters of the current
    match that are still to be dropped. *)
Fixpoint re_sub (m : pystr → option nat) (repl : pystr) (skip : nat) (s : pystr) : pystr :=
  match s with
  | [] => []
  | c :: r =>
      match skip with
      | S k => re_sub m repl k r
      | O =>
          match m s with
          | Some (S k) => repl ++ re_sub m repl k r
          | _ => c :: re_sub m repl 0 r
          end
      end
  end.

(** The match of [lit cls+] at the start of [s]: the literal, then the
    longest non-empty run of characters of the class. *)
Definition match_lit_run (lit : pystr) (cls : N → bool) (s : pystr) : option nat :=
  if startswith s lit then
    match length (take_while cls (drop (length lit) s)) with
    | O => None
    | S n => Some (length lit + S n)%nat
    end
  else None.

End Py.
Export Py.

(** ** scraper/text_utils.py *)

Module text_utils.

(** [emoji.replace_emoji] with the empty replacement. *)
Class Emoji := { replace_emoji : pystr → pystr }.

(** [langdetect.detect] and the [translate] method of a [GoogleTranslator]
    from any language to English; both may raise. *)
Class Translator := {
  detect : pystr → outcome pystr;
  translate : pystr → outcome pystr;
}.

(** An attribute of a scraped object: absent, or present with a value. *)
Inductive attribute (A : Type) :=
  | Missing
  | Attr (a : A).
Arguments Missing {A}.
Arguments Attr {A} a.

(** The [twscrape] objects, through the attributes the code reads.  An
    [option] field is [None] when [getattr] falls back to its default. *)
Record User := {
  username : option pystr;
  displayname : option pystr;
}.

(** A [datetime], through its rendering by [strftime] in the format
    year-month-day hour:minute:second. *)
Record datetime := { strftime : pystr }.

Record Tweet := {
  tweet_id : option Z;
  rawContent : option pystr;
  user : attribute (option User);
  likeCount : option Z;
  retweetCount : option Z;
  replyCount : option Z;
  bookmarkCount : option Z;
  viewCount : option Z;
  date : option datetime;
  hashtags : option (list pystr);
}.

Section text_utils.
Context `{!Unicode, !Emoji, !Translator}.

Definition nonspace (c : N) : bool := negb (isspace c).
Definition nonascii (c : N) : bool := negb (is_ascii c).

(** [https?://\S+] *)
Definition url_match (s : pystr) : option nat :=
  match match_lit_run (py "https://") nonspace s with
  | Some n => Some n
  | None => match_lit_run (py "http://") nonspace s
  end.

(** [@\w+] and [#\w+] *)
Definition mention_match : pystr → option nat := match_lit_run (py "@") is_word.
Definition hashtag_match : pystr → option nat := match_lit_run (py "#") is_word.

(** [[^\x00-\x7F]+] and [\s+] *)
Definition nonascii_match : pystr → option nat := match_lit_run [] nonascii.
Definition spaces_match : pystr → option nat := match_lit_run [] isspace.

(** The characters that [[^\w\s.,!?'-]] does not match. *)
Definition basic_punct (c : N) : bool :=
  (c =? chr ".")%N || (c =? chr ",")%N || (c =? chr "!")%N
  || (c =? chr "?")%N || (c =? chr "'")%N || (c =? chr "-")%N.
Definition kept (c : N) : bool := is_word c || isspace c || basic_punct c.

Definition clean_text (text : pyval) : pystr :=
  match text with
  | VStr text =>
      let text := replace_emoji text in
      let text := re_sub url_match [] 0 text in
      let text := re_sub mention_match [] 0 text in
      let text := re_sub hashtag_match [] 0 text in
      let text := re_sub nonascii_match (py " ") 0 text in
      let text := filter (λ c, kept c) text in
      strip (re_sub spaces_match (py " ") 0 text)
  | _ => []
  end.

Definition translate_to_english (text : pystr) : outcome pystr :=
  try_except
    (if bool_decide (text = []) || (len (strip text) <? 3) then Return text
     else
       lang ← detect text;
       if bool_decide (lang ≠ py "en") then translate text else Return text)
    (λ e, Return text).

(** [re.fullmatch] of the pattern of [is_spammy]: one or more groups, each
    a [#], then [\w+], then [\s] zero or more times.  A backtracking
    matcher; the state says what has just been read: nothing, a [#], a
    word character of a tag, or white space after a tag. *)
Inductive tag_state := TagStart | TagHash | TagWord | TagSpace.

Fixpoint tags_from (st : tag_state) (s : pystr) : bool :=
  match s with
  | [] => match st with TagWord | TagSpace => true | _ => false end
  | c :: r =>
      match st with
      | TagStart => if (c =? chr "#")%N then tags_from TagHash r else false
      | TagHash => if is_word c then tags_from TagWord r else false
      | TagWord =>
          (if is_word c then tags_from TagWord r else false)
          || (if isspace c then tags_from TagSpace r else false)
          || (if (c =? chr "#")%N then tags_from TagHash r else false)
      | TagSpace =>
          (if isspace c then tags_from TagSpace r else false)
          || (if (c =? chr "#")%N then tags_from TagHash r else false)
      end
  end.
Definition fullmatch_hashtags (s : pystr) : bool := tags_from TagStart s.

(** [getattr(tweet, 'rawContent', '') or ''] *)
Definition raw_of (tweet : Tweet) : pystr := default [] (rawContent tweet).

Definition is_spammy (tweet : Tweet) : bool :=
  let raw := raw_of tweet in
  let cleaned := lower (clean_text (VStr raw)) in
  if len (strip cleaned) <? 15 then true
  else if 6 <? count_char (chr "#") raw then true
  else if fullmatch_hashtags (strip raw) then true
  else if contains raw (py "http") && (len (split raw) <? 5) then true
  else if startswith (strip (lower raw)) (py "rt ") then true
  else false.

(** [re.findall(pattern, s)] for a pattern without groups. *)
Fixpoint re_findall (m : pystr → option nat) (skip : nat) (s : pystr) : list pystr :=
  match s with
  | [] => []
  | c :: r =>
      match skip with
      | S k => re_findall m k r
      | O =>
          match m s with
          | Some (S k) => take (S k) s :: re_findall m k r
          | _ => re_findall m 0 r
          end
      end
  end.

(** [getattr(tweet.user, name, '') if getattr(tweet, 'user', None) else ''] *)
Definition user_field (tweet : Tweet) (field : User → option pystr) : pystr :=
  match user tweet with
  | Attr (Some u) => default [] (field u)
  | _ => []
  end.

(** [getattr(tweet.user, 'username', '')], which needs the attribute
    [user] to exist. *)
Definition user_name_strict (tweet : Tweet) : outcome pystr :=
  match user tweet with
  | Missing => Raise (Exception "AttributeError")
  | Attr None => Return []
  | Attr (Some u) => Return (default [] (username u))
  end.

Definition int_attr (a : option Z) : pyval := VInt (default 0 a).

Definition format_tweet (tweet : Tweet) (query : pystr) (index : Z) : outcome dict :=
  let raw := raw_of tweet in
  let cleaned := clean_text (VStr raw) in
  translated ← translate_to_english cleaned;
  let tags := default [] (hashtags tweet) in
  let urls_in_text := re_findall url_match 0 raw in
  let id_val := match tweet_id tweet with Some z => VInt z | None => VStr [] end in
  let id_str := match tweet_id tweet with Some z => py (pretty z) | None => [] end in
  uname ← user_name_strict tweet;
  Return (list_to_map [
    (py "id", id_val);
    (py "username", VStr (user_field tweet username));
    (py "name", VStr (user_field tweet displayname));
    (py "text", VStr translated);
    (py "raw_text", VStr raw);
    (py "query", VStr query);
    (py "tweet_count", VInt (index + 1));
    (py "likes", int_attr (likeCount tweet));
    (py "retweets", int_attr (retweetCount tweet));
    (py "replies", int_attr (replyCount tweet));
    (py "bookmarks", int_attr (bookmarkCount tweet));
    (py "views", int_attr (viewCount tweet));
    (py "created_at", VStr (from_option strftime [] (date tweet)));
    (py "hashtags", VList (VStr <$> tags));
    (py "content_urls", VList (VStr <$> urls_in_text));
    (py "url", VStr (py "https://twitter.com/" ++ uname ++ py "/status/" ++ id_str))
  ]).

End text_utils.
End text_utils.
Export text_utils.

(** ** scraper/reddit_search.py *)

Module reddit_search.

(** The [praw] objects, through the attributes the code reads. *)
Record Comment := {
  comment_id : pystr;
  comment_body : option pystr;
  comment_author : option pystr;
  comment_score : option Z;
  comment_created_utc : option Q;
  comment_parent_id : option pystr;
}.

Record Submission := {
  submission_id : pystr;
  subreddit : pystr;
  title : pystr;
  selftext : pystr;
  author : pystr;
  score : Z;
  created_utc : Q;
  comments : list Comment;
}.

(** The submissions that a search of all subreddits yields for a query
    and a limit, and for each of them the comments that the listing
    yields, up to the point where the client fails. *)
Class Reddit := { subreddit_search : pystr → Z → list Submission }.

(** The pattern that matches the word http or www and the characters up
    to the next white space. *)
Definition link_match (s : pystr) : option nat :=
  match match_lit_run (py "http") text_utils.nonspace s with
  | Some n => Some n
  | None => match_lit_run (py "www") text_utils.nonspace s
  end.

(** The number of characters other than a newline before the first
    occurrence of [stop] in [s], if [stop] comes before any newline. *)
Fixpoint lazy_until (stop : pystr) (s : pystr) : option nat :=
  if startswith s stop then Some O
  else
    match s with
    | [] => None
    | c :: r => if (c =? 10)%N then None else S <$> lazy_until stop r
    end.

(** A markdown link: a bracketed text followed by a parenthesised one,
    both as short as possible and on one line. *)
Definition markdown_link_match (s : pystr) : option nat :=
  match s with
  | c :: r =>
      if (c =? chr "[")%N then
        i ← lazy_until (py "](") r;
        j ← lazy_until (py ")") (drop (i + 2) r);
        Some (1 + i + 2 + j + 1)%nat
      else None
  | [] => None
  end.

(** Two or more white-space characters. *)
Definition wide_space_match (s : pystr) : option nat :=
  match length (take_while isspace s) with
  | S (S n) => Some (S (S n))
  | _ => None
  end.

Definition _clean_text (text : pystr) : pystr :=
  match text with
  | [] => []
  | _ =>
      let text := re_sub link_match [] 0 text in
      let text := re_sub markdown_link_match [] 0 text in
      let text := re_sub (match_lit_run [] (λ c, (c =? 10)%N)) (py " ") 0 text in
      let text := re_sub wide_space_match (py " ") 0 text in
      strip text
  end.

Definition comment_data (comment : Comment) : pyval :=
  VDict (list_to_map [
    (py "comment_id", VStr (comment_id comment));
    (py "body", VStr (_clean_text (default [] (comment_body comment))));
    (py "author", VStr (default [] (comment_author comment)));
    (py "score", VInt (default 0 (comment_score comment)));
    (py "created_utc", from_option VFloat (VInt 0) (comment_created_utc comment));
    (py "parent_id", VStr (default [] (comment_parent_id comment)))
  ]).

Definition post_data (comment_limit : Z) (post : Submission) : dict :=
  list_to_map [
    (py "id", VStr (submission_id post));
    (py "source", VStr (py "reddit"));
    (py "subreddit", VStr (subreddit post));
    (py "title", VStr (_clean_text (title post)));
    (py "body", VStr (_clean_text (selftext post)));
    (py "author", VStr (author post));
    (py "score", VInt (score post));
    (py "created_utc", VFloat (created_utc post));
    (py "comments",
       VList (comment_data <$> take (Z.to_nat comment_limit) (comments post)))
  ].

Definition search_reddit_query `{!Reddit}
    (query : pystr) (post_limit comment_limit : Z) : list dict :=
  post_data comment_limit <$> subreddit_search query post_limit.

End reddit_search.
Export reddit_search.

(** ** scraper/scraper.py *)

Module scraper.

(** [api.search]: the tweets that the stream for a keyword and a limit
    yields. *)
Class Twitter := { search : pystr → Z → list Tweet }.

(** [generate_search_terms]: the phrases of the language model, or of the
    heuristic that replaces it. *)
Class KeywordSource := { generate_search_terms : pystr → Z → outcome (list pystr) }.

(** Writing a list of items as JSON to a path. *)
Class FileSystem := { write_json : pystr → list dict → outcome unit }.

(** [str(x)] for the values other than strings, integers and None. *)
Class Repr := { py_repr : pyval → pystr }.

Definition py_str `{!Repr} (v : pyval) : pystr :=
  match v with
  | VStr s => s
  | VNone => py "None"
  | VNaN => py "nan"
  | VInt z => py (pretty z)
  | _ => py_repr v
  end.

(** The key under which a value sits in a [set]: numbers by their value,
    strings by their characters; a list or a dictionary has none. *)
Inductive hkey :=
  | HNone
  | HNaN
  | HNum (q : Qc)
  | HStr (s : pystr).

#[export] Instance hkey_eq_dec : EqDecision hkey.
Proof. solve_decision. Defined.

#[export] Instance hkey_countable : Countable hkey.
Proof.
  refine (inj_countable'
    (λ k, match k with
          | HNone => inl (inl ())
          | HNaN => inl (inr ())
          | HNum q => inr (inl q)
          | HStr s => inr (inr s)
          end)
    (λ x, match x with
          | inl (inl _) => HNone
          | inl (inr _) => HNaN
          | inr (inl q) => HNum q
          | inr (inr s) => HStr s
          end) _).
  by intros [].
Defined.

Definition hash_key (v : pyval) : outcome hkey :=
  match v with
  | VNone => Return HNone
  | VNaN => Return HNaN
  | VInt z => Return (HNum (Q2Qc (inject_Z z)))
  | VFloat q => Return (HNum (Q2Qc q))
  | VStr s => Return (HStr s)
  | VList _ | VDict _ => Raise (Exception "TypeError")
  end.

(** [re.sub] of every character outside letters, digits, underscore,
    hyphen and space by an underscore, then [strip]. *)
Definition filename_char (c : N) : bool :=
  ascii_alnum c || (c =? chr "_")%N || (c =? chr "-")%N || (c =? chr " ")%N.
Definition sanitize_filename (name : pystr) : pystr :=
  strip ((λ c, if filename_char c then c else chr "_") <$> name).

Section scraper.
Context `{!Unicode, !Emoji, !Translator, !Twitter, !Reddit, !KeywordSource,
          !FileSystem, !Repr}.

(** One round of the loop of [fetch_tweets_for_keyword] over the stream:
    the tweet is formatted, appended and counted unless it is spam; an
    exception skips it. *)
Definition keep_indexed (keyword : pystr) (st : list dict * Z) (tweet : Tweet)
    : outcome (list dict * Z) :=
  try_except
    (if is_spammy tweet then Return st
     else
       formatted ← format_tweet tweet keyword st.2;
       Return (st.1 ++ [set_item formatted "source" (VStr (py "twitter"))], st.2 + 1))
    (λ e, Return st).

Fixpoint fetch_loop (keyword : pystr) (limit : Z) (stream : list Tweet)
    (st : list dict * Z) : outcome (list dict) :=
  match stream with
  | [] => Return st.1
  | tweet :: rest =>
      st' ← keep_indexed keyword st tweet;
      if limit <=? len st'.1 then Return st'.1
      else fetch_loop keyword limit rest st'
  end.

(** One round of the single pass of [fetch_tweets], where the index of a
    tweet is the number of results so far. *)
Definition keep_tweet (query : pystr) (results : list dict) (tweet : Tweet)
    : outcome (list dict) :=
  try_except
    (if is_spammy tweet then Return results
     else
       formatted ← format_tweet tweet query (len results);
       Return (results ++ [set_item formatted "source" (VStr (py "twitter"))]))
    (λ e, Return results).

Definition fetch_tweets_for_keyword (keyword : pystr) (limit : Z) : outcome (list dict) :=
  fetch_loop keyword limit (search keyword (limit * 2)) ([], 0).

Fixpoint single_pass (query : pystr) (max_results : Z) (stream : list Tweet)
    (results : list dict) : outcome (list dict) :=
  match stream with
  | [] => Return results
  | tweet :: rest =>
      results' ← keep_tweet query results tweet;
      if max_results <=? len results' then Return results'
      else single_pass query max_results rest results'
  end.

(** The set of the ids of the results. *)
Definition ids_of (results : list dict) : outcome (gset hkey) :=
  ks ← mapM (λ r, hash_key (get r "id")) results;
  Return (list_to_set ks).

(** The loop that appends the fetched items whose id is new. *)
Fixpoint merge_new (results : list dict) (existing_ids : gset hkey)
    (fetched : list dict) : outcome (list dict) :=
  match fetched with
  | [] => Return results
  | ft :: rest =>
      k ← hash_key (get ft "id");
      if decide (k ∈ existing_ids) then merge_new results existing_ids rest
      else merge_new (results ++ [ft]) ({[k]} ∪ existing_ids) rest
  end.

Fixpoint keyword_loop (per_kw max_results : Z) (keywords : list pystr)
    (results : list dict) : outcome (list dict) :=
  match keywords with
  | [] => Return results
  | kw :: rest =>
      fetched ← fetch_tweets_for_keyword kw per_kw;
      existing_ids ← ids_of results;
      results' ← merge_new results existing_ids fetched;
      if max_results <=? len results' then Return results'
      else keyword_loop per_kw max_results rest results'
  end.

(** The share of one keyword in the results asked for. *)
Definition per_kw (max_results : Z) (keywords : list pystr) : Z :=
  1 `max` (max_results `div` (1 `max` len keywords)).

Definition fetch_tweets (query : pystr) (max_results : Z)
    (keywords : option (list pystr)) : outcome (list dict) :=
  match keywords with
  | None | Some [] => single_pass query max_results (search query (max_results * 5)) []
  | Some keywords =>
      keyword_loop (per_kw max_results keywords) max_results keywords []
  end.

Definition save_tweets (tweets : list dict) (query : pystr) (raw : bool) : outcome unit :=
  let folder := if raw then py "data/raw" else py "data/processed" in
  let safe := sanitize_filename query in
  let filename := safe ++ py "_" ++ (if raw then py "raw" else py "processed") ++ py ".json" in
  write_json (folder ++ py "/" ++ filename) tweets.

(** The strings of a list of values, as [str.join] demands them. *)
Definition as_str (v : pyval) : outcome pystr :=
  match v with
  | VStr s => Return s
  | _ => Raise (Exception "TypeError")
  end.

Definition comment_body_of (c : pyval) : outcome pystr :=
  match c with
  | VDict d => as_str (get_or d "body" (VStr []))
  | _ => Raise (Exception "AttributeError")
  end.

(** The item that [scrape_and_save] makes of a forum post. *)
Definition reddit_item (q : pystr) (p : dict) : outcome dict :=
  cs ← match get_or p "comments" (VList []) with
       | VList cs => Return (take 5 cs)
       | _ => Raise (Exception "TypeError")
       end;
  bodies ← mapM comment_body_of cs;
  let comments_text := join (py " ") bodies in
  title ← as_str (get_or p "title" (VStr []));
  body ← as_str (get_or p "body" (VStr []));
  let composed := strip (join (py " ") [title; body; comments_text]) in
  Return (list_to_map [
    (py "id", get p "post_id");
    (py "source", VStr (py "reddit"));
    (py "subreddit", get p "subreddit");
    (py "text", VStr composed);
    (py "raw_text", VStr composed);
    (py "query", VStr q);
    (py "score", get p "score");
    (py "created_at", get p "created_utc");
    (py "url", VStr (py "https://reddit.com/" ++ py_str (get p "post_id")))
  ]).

(** The loop over the posts of one query, inside its [try]: an exception
    ends the loop, and the items appended before it stay. *)
Fixpoint append_items (q : pystr) (posts : list dict) (reddit_results : list dict)
    : list dict :=
  match posts with
  | [] => reddit_results
  | p :: rest =>
      match reddit_item q p with
      | Return item => append_items q rest (reddit_results ++ [item])
      | _ => reddit_results
      end
  end.

Definition reddit_loop (reddit_posts reddit_comments : Z) (qs : list pystr) : list dict :=
  foldl (λ reddit_results q,
           append_items q (search_reddit_query q reddit_posts reddit_comments)
             reddit_results)
        [] qs.

Definition scrape_and_save (query : pystr) (max_results reddit_posts reddit_comments : Z)
    (use_llm_keywords : bool) : outcome (list dict) :=
  keywords ←
    (if use_llm_keywords
     then try_except (Some <$> generate_search_terms query 6) (λ e, Return None)
     else Return None);
  tweets ← fetch_tweets query max_results keywords;
  let reddit_qs :=
    match keywords with
    | Some (k :: ks) => k :: ks
    | _ => [query]
    end in
  let reddit_results := reddit_loop reddit_posts reddit_comments (take 3 reddit_qs) in
  let combined :=
    ((λ t, setdefault t "source" (VStr (py "twitter"))) <$> tweets) ++ reddit_results in
  _ ← save_tweets combined query true;
  Return combined.

End scraper.
End scraper.
Export scraper.

(** ** nlp/sentiment_analyzer.py *)

Module sentiment_analyzer.

(** One result of the classifier, through [r.get] of its label and of
    its score. *)
Record RawResult := {
  raw_label : option pystr;
  raw_score : option Q;
}.

(** The models and the libraries of the module: the noun chunks and the
    entities of [spaCy], the sentiment pipeline, which may raise on a
    batch, the rounding of a float to 3 decimals, and [pd.read_json]. *)
Class Nlp := {
  noun_chunks : pystr → list pystr;
  ents : pystr → list (pystr * pystr);
  sentiment_pipeline : list pystr → outcome (list RawResult);
  round3 : Q → Q;
  read_json : pystr → outcome (list dict);
}.

Definition LABEL_MAP_CARDIFF : gmap pystr pystr :=
  list_to_map [
    (py "LABEL_0", py "NEGATIVE");
    (py "LABEL_1", py "NEUTRAL");
    (py "LABEL_2", py "POSITIVE")
  ].

(** [range(lo, hi, step)] *)
Definition range_len (lo hi step : Z) : Z :=
  if (0 <? step) && (lo <? hi) then 1 + (hi - 1 - lo) `div` step
  else if (step <? 0) && (hi <? lo) then 1 + (lo - 1 - hi) `div` (- step)
  else 0.
Definition py_range (lo hi step : Z) : outcome (list Z) :=
  if step =? 0 then Raise (Exception "ValueError")
  else Return ((λ k, lo + Z.of_nat k * step) <$> seq 0 (Z.to_nat (range_len lo hi step))).

(** [lst[a:b]] *)
Definition slice_index {A} (lst : list A) (i : Z) : nat :=
  Z.to_nat (if i <? 0 then 0 `max` (len lst + i) else i `min` len lst).
Definition py_slice {A} (lst : list A) (a b : Z) : list A :=
  take (slice_index lst b - slice_index lst a) (drop (slice_index lst a) lst).

Definition _batchify {A} (lst : list A) (batch_size : Z) : outcome (list (list A)) :=
  idx ← py_range 0 (len lst) batch_size;
  Return ((λ i : Z, py_slice lst i (i + batch_size)) <$> (idx : list Z)).

(** [ThreadPoolExecutor(max_workers).map(fn, tasks)].  The tasks wait in
    a queue in the order of their submission; at most [max_workers] of
    them run at a time; [sched] picks, at each step, which of the running
    tasks completes next.  A completed task leaves its result in the slot
    of its future, and the results are read in the order of submission. *)
Section executor.
Context {A B : Type} (sched : nat → nat) (max_workers : nat) (fn : A → outcome B).

Fixpoint pool_run (fuel step : nat) (queue running : list (nat * A))
    (slots : gmap nat (outcome B)) : gmap nat (outcome B) :=
  match fuel with
  | O => slots
  | S fuel =>
      let room := (max_workers - length running)%nat in
      let running := running ++ take room queue in
      let queue := drop room queue in
      let pick := (sched step `mod` length running)%nat in
      match running !! pick with
      | None => slots
      | Some (i, task) =>
          pool_run fuel (S step) queue (delete pick running) (<[i := fn task]> slots)
      end
  end.

Definition executor_map (tasks : list A) : outcome (list B) :=
  let slots := pool_run (length tasks) 0 (imap pair tasks) [] ∅ in
  mapM (λ i, default Blocked (slots !! i)) (seq 0 (length tasks)).

End executor.

Definition NEUTRAL : dict :=
  list_to_map [(py "label", VStr (py "NEUTRAL")); (py "score", VFloat 0)].

Section sentiment_analyzer.
Context `{!Unicode, !Repr, !Nlp}.

(** The loop that keeps the first occurrence of each chunk. *)
Fixpoint unique (seen : gset pystr) (chunks : list pystr) : list pystr :=
  match chunks with
  | [] => []
  | c :: rest =>
      if decide (c ∈ seen) then unique seen rest
      else c :: unique ({[c]} ∪ seen) rest
  end.

Definition extract_keywords (text : pystr) : list pystr :=
  match text with
  | [] => []
  | _ =>
      let chunks :=
        (λ chunk, strip (lower chunk))
          <$> filter (λ chunk, 2 < len (strip chunk)) (noun_chunks text) in
      unique ∅ chunks
  end.

Definition extract_entities (text : pystr) : list (pystr * pystr) :=
  match text with
  | [] => []
  | _ => (λ ent, (strip ent.1, ent.2)) <$> ents text
  end.

(** The label of a result, in the vocabulary of the three classes. *)
Definition mapped_label (label : pystr) : pystr :=
  match LABEL_MAP_CARDIFF !! label with
  | Some mapped => mapped
  | None =>
      if bool_decide (upper label ∈ [py "POSITIVE"; py "NEGATIVE"; py "NEUTRAL"])
      then upper label
      else if bool_decide (lower label ∈ [py "positive"; py "negative"; py "neutral"])
      then upper label
      else label
  end.

Definition batch_result (r : RawResult) : dict :=
  list_to_map [
    (py "label", VStr (mapped_label (default [] (raw_label r))));
    (py "score", VFloat (round3 (default 0%Q (raw_score r))))
  ].

Definition process_batch (batch : list pystr) : outcome (list dict) :=
  try_except
    (res ← sentiment_pipeline batch; Return (batch_result <$> (res : list RawResult)))
    (λ e, Return (replicate (length batch) NEUTRAL)).

(** [pd.DataFrame(records)]: one row per record, one column per key of
    any record, and NaN where a record lacks the key.  The cells are kept
    as the records give them: the conversions that pandas applies to a
    column, such as that of integers to floats beside a missing cell, are
    not modelled. *)
Definition DataFrame (records : list dict) : list dict :=
  let columns : gset pystr := ⋃ (dom <$> records) in
  (λ r, r ∪ gset_to_gmap VNaN columns) <$> records.

(** The cell of the column text after [fillna] and [astype(str)]. *)
Definition text_cell (row : dict) : pystr :=
  match row !! py "text" with
  | None | Some VNone | Some VNaN => []
  | Some v => py_str v
  end.

Definition format_output (row : dict) : dict :=
  list_to_map [
    (py "username", get_or row "username" (VStr []));
    (py "text", get_or row "text" (VStr []));
    (py "sentiment", get_or row "sentiment" (VStr []));
    (py "score", get_or row "sentiment_score" (VFloat 0));
    (py "keywords", get_or row "keywords" (VList []));
    (py "entities", get_or row "entities" (VList []));
    (py "created_at", get_or row "created_at" (VStr []));
    (py "url", get_or row "url" (VStr []))
  ].

(** [df[column] = values], which demands one value per row. *)
Definition set_column (df : list dict) (column : string) (values : list pyval)
    : outcome (list dict) :=
  if bool_decide (length values = length df)
  then Return (zip_with (λ row v, set_item row column v) df values)
  else Raise (Exception "ValueError").

Definition enrich_row (row : dict) : dict :=
  let text := text_cell row in
  let row := set_item row "text" (VStr text) in
  let row := set_item row "keywords" (VList (VStr <$> extract_keywords text)) in
  set_item row "entities"
    (VList ((λ ent, VList [VStr ent.1; VStr ent.2]) <$> extract_entities text)).

(** The block under [with ThreadPoolExecutor(max_workers)]: the batches
    are mapped through the pool and their results joined, one batch after
    the other, as [executor.map] yields them. *)
Definition classify_batches (sched : nat → nat) (texts : list pystr)
    (batch_size max_workers : Z) : outcome (list dict) :=
  if max_workers <=? 0 then Raise (Exception "ValueError")
  else
    batches ← _batchify texts batch_size;
    results ← executor_map sched (Z.to_nat max_workers) process_batch batches;
    Return (concat (results : list (list dict))).

Definition process_dataframe (sched : nat → nat)
    (raw_tweets : option (list dict)) (pd_path : option pystr) (from_file : bool)
    (batch_size max_workers : Z) : outcome (list dict) :=
  let loaded : outcome (list dict) :=
    match from_file, pd_path with
    | true, Some (c :: path) => read_json (c :: path)
    | _, _ =>
        match raw_tweets with
        | None => Raise (Exception "ValueError")
        | Some raw_tweets => Return (DataFrame raw_tweets)
        end
    end in
  df ← loaded;
  let df : list dict := enrich_row <$> df in
  let texts : list pystr := text_cell <$> df in
  sentiments ← classify_batches sched texts batch_size max_workers;
  let sentiments : list dict :=
    if bool_decide (length sentiments < length df)%nat
    then sentiments ++ replicate (length df - length sentiments) NEUTRAL
    else sentiments in
  df ← set_column df "sentiment" ((λ s, get s "label") <$> sentiments);
  df ← set_column df "sentiment_score" ((λ s, get s "score") <$> sentiments);
  Return ((λ row, set_item row "readable_output" (VDict (format_output row))) <$> (df : list dict)).

(** The body of the loop of [get_sentiment_buckets], for one row. *)
Definition file_row (buckets : gmap pystr (list pyval)) (row : dict)
    : gmap pystr (list pyval) :=
  let sentiment := upper (py_str (get_or row "sentiment" (VStr (py "NEUTRAL")))) in
  let text := get_or row "text" (VStr []) in
  match buckets !! sentiment with
  | None => alter (λ l, l ++ [text]) (py "NEUTRAL") buckets
  | Some _ => alter (λ l, l ++ [text]) sentiment buckets
  end.

Definition get_sentiment_buckets (df : list dict) : gmap pystr (list pyval) :=
  foldl file_row
    (list_to_map [(py "POSITIVE", []); (py "NEGATIVE", []); (py "NEUTRAL", [])])
    df.

End sentiment_analyzer.
End sentiment_analyzer.
Export sentiment_analyzer.

(** ** scraper/scraper.py: the keywords made without a language model *)

Module keyword_heuristic.

(** The characters of the pattern that separates the tokens of a
    query: white space, comma, full stop and slash. *)
Definition separator (c : N) : bool :=
  isspace c || (c =? chr ",")%N || (c =? chr ".")%N || (c =? chr "/")%N.

(** [re.split] on one or more separators: the pieces between the runs
    of separators, the empty pieces at the ends included.  [in_run] says
    that the scan is inside a run, and [cur] is the piece being read, in
    reverse. *)
Fixpoint re_split (in_run : bool) (cur : pystr) (s : pystr) : list pystr :=
  match s with
  | [] => [reverse cur]
  | c :: r =>
      if separator c
      then if in_run then re_split true [] r else reverse cur :: re_split true [] r
      else re_split false (c :: cur) r
  end.

(** The loop that keeps the first occurrence of each keyword, with a
    list for the keywords seen. *)
Fixpoint dedupe (out : list pystr) (kws : list pystr) : list pystr :=
  match kws with
  | [] => out
  | k :: rest => if decide (k ∈ out) then dedupe out rest else dedupe (out ++ [k]) rest
  end.

Section keyword_heuristic.
Context `{!Unicode}.

(** The loop over the tokens: a token and its hashtag are appended, and
    the loop stops once there are [max_keywords] keywords. *)
Fixpoint keyword_forms (query : pystr) (max_keywords : Z) (tokens : list pystr)
    (kws : list pystr) : list pystr :=
  match tokens with
  | [] => kws
  | t :: rest =>
      if negb (contains (lower query) (lower t))
      then keyword_forms query max_keywords rest kws
      else
        let kws := kws ++ [t; chr "#" :: t] in
        if max_keywords <=? len kws then kws
        else keyword_forms query max_keywords rest kws
  end.

Definition _simple_keyword_generation (query : pystr) (max_keywords : Z) : list pystr :=
  let tokens :=
    strip <$> filter (λ t, 2 < len (strip t)) (re_split false [] query) in
  let kws := keyword_forms query max_keywords tokens [query] in
  let out := dedupe [] kws in
  py_slice out 0 max_keywords.

End keyword_heuristic.
End keyword_heuristic.
Export keyword_heuristic.

(** ** The vocabulary of the statements about [text_utils] *)

Section text_vocabulary.
Context `{!Unicode, !Emoji, !Translator}.

(** [t] occurs in [s] as a substring. *)
Definition occurs_in (t s : pystr) : Prop := ∃ a b, s = a ++ t ++ b.

(** An [@mention], a [#hashtag] and a URL, as the patterns of
    [clean_text] recognise them. *)
Definition mention_token (t : pystr) : Prop :=
  ∃ w, t = chr "@" :: w ∧ w ≠ [] ∧ Forall (λ c, is_word c) w.
Definition hashtag_token (t : pystr) : Prop :=
  ∃ w, t = chr "#" :: w ∧ w ≠ [] ∧ Forall (λ c, is_word c) w.
Definition url_token (t : pystr) : Prop :=
  ∃ scheme rest,
    (scheme = py "http://" ∨ scheme = py "https://")
    ∧ t = scheme ++ rest ∧ rest ≠ [] ∧ Forall (λ c, nonspace c) rest.

(** One or more hashtags, each followed by white space or by nothing. *)
Inductive hashtag_run : pystr → Prop :=
  | hashtag_run_last w sp :
      w ≠ [] → Forall (λ c, is_word c) w → Forall (λ c, isspace c) sp →
      hashtag_run (chr "#" :: w ++ sp)
  | hashtag_run_more w sp rest :
      w ≠ [] → Forall (λ c, is_word c) w → Forall (λ c, isspace c) sp →
      hashtag_run rest →
      hashtag_run (chr "#" :: w ++ sp ++ rest).

(** What may follow a hashtag and its white space. *)
Definition tail_ok (rest : pystr) : Prop := rest = [] ∨ hashtag_run rest.

(** [str.lower] on an ASCII character. *)
Definition lower_ascii (c : N) : N := if ascii_upper c then (c + 32)%N else c.

(** [str.upper] on an ASCII character. *)
Definition upper_ascii (c : N) : N := if ascii_lower c then (c - 32)%N else c.

(** The five reasons for which a raw text is of low quality. *)
Definition cleaned_too_short (raw : pystr) : Prop :=
  (length (clean_text (VStr raw)) < 15)%nat.
Definition too_many_hashes (raw : pystr) : Prop :=
  (6 < length (filter (λ c, c = chr "#") raw))%nat.
Definition only_hashtags (raw : pystr) : Prop := hashtag_run (strip raw).
Definition has_link (raw : pystr) : Prop := ∃ u, url_token u ∧ occurs_in u raw.
Definition has_http (raw : pystr) : Prop := occurs_in (py "http") raw.
Definition few_tokens (raw : pystr) : Prop := (length (split raw) < 5)%nat.
Definition retweet_marker (raw : pystr) : Prop :=
  ∃ rest, strip (lower raw) = py "rt " ++ rest.

(** A raw text is of low quality, with the fourth reason read as the
    presence of a link, and as [is_spammy] tests it. *)
Definition low_quality_by_link (raw : pystr) : Prop :=
  cleaned_too_short raw ∨ too_many_hashes raw ∨ only_hashtags raw
  ∨ (has_link raw ∧ few_tokens raw) ∨ retweet_marker raw.
Definition low_quality (raw : pystr) : Prop :=
  cleaned_too_short raw ∨ too_many_hashes raw ∨ only_hashtags raw
  ∨ (has_http raw ∧ few_tokens raw) ∨ retweet_marker raw.

(** The characters of a cleaned text: ASCII, and a word character, a
    space or basic punctuation. *)
Definition safe (c : N) : bool := is_ascii c && kept c.

(** White space occurs only as single spaces. *)
Definition head_space (s : pystr) : bool :=
  match s with c :: _ => isspace c | [] => false end.
Fixpoint spaced (s : pystr) : bool :=
  match s with
  | [] => true
  | c :: r =>
      (negb (isspace c) || ((c =? chr " ")%N && negb (head_space r))) && spaced r
  end.

End text_vocabulary.

(** The last substitution of [clean_text]: a run of whitespace becomes
    one space. *)
Abbreviation ws_sub := (re_sub spaces_match (py " ") 0).

(** The last substitution of [_clean_text]: a run of two or more
    white-space characters becomes one space. *)
Abbreviation wide_sub := (re_sub wide_space_match (py " ") 0).

(** No two white-space characters in a row. *)
Fixpoint single_spaced (s : pystr) : bool :=
  match s with
  | [] => true
  | c :: r => negb (isspace c && head_space r) && single_spaced r
  end.

(** ** The vocabulary of the statements about the collector *)

Section collector_vocabulary.
Context `{!Unicode, !Emoji, !Translator, !Twitter, !Reddit, !KeywordSource,
          !FileSystem, !Repr}.

Definition get_id (d : dict) : pyval := get d "id".
Definition from_twitter (d : dict) : Prop := get d "source" = VStr (py "twitter").
Definition from_reddit (d : dict) : Prop := get d "source" = VStr (py "reddit").

(** Where an item comes from: the id and the raw text of its tweet. *)
Definition tweet_id_value (t : Tweet) : pyval :=
  match tweet_id t with Some z => VInt z | None => VStr [] end.
Definition origin (d : dict) : pyval * pyval := (get d "id", get d "raw_text").
Definition tweet_origin (t : Tweet) : pyval * pyval :=
  (tweet_id_value t, VStr (raw_of t)).

(** The tweets that the microblog source yields in one run, in the order
    of the fetches. *)
Definition microblog_stream (query : pystr) (max_results : Z)
    (keywords : option (list pystr)) : list Tweet :=
  match keywords with
  | None | Some [] => search query (max_results * 5)
  | Some kws => kws ≫= λ kw, search kw (per_kw max_results kws * 2)
  end.

(** The queries sent to the forum. *)
Definition forum_queries (query : pystr) (keywords : option (list pystr)) : list pystr :=
  take 3 (match keywords with Some (k :: ks) => k :: ks | _ => [query] end).

(** The item made of one submission, and the items of the forum in the
    order of the fetches. *)
Definition forum_text (comment_limit : Z) (post : Submission) : pystr :=
  let bodies :=
    (λ c, _clean_text (default [] (comment_body c)))
      <$> take 5 (take (Z.to_nat comment_limit) (comments post)) in
  strip (join (py " ")
    [_clean_text (title post); _clean_text (selftext post); join (py " ") bodies]).

Definition forum_item (q : pystr) (comment_limit : Z) (post : Submission) : dict :=
  list_to_map [
    (py "id", VNone);
    (py "source", VStr (py "reddit"));
    (py "subreddit", VStr (subreddit post));
    (py "text", VStr (forum_text comment_limit post));
    (py "raw_text", VStr (forum_text comment_limit post));
    (py "query", VStr q);
    (py "score", VInt (score post));
    (py "created_at", VFloat (created_utc post));
    (py "url", VStr (py "https://reddit.com/None"))
  ].

Definition forum_items (reddit_posts reddit_comments : Z) (qs : list pystr) : list dict :=
  qs ≫= λ q, forum_item q reddit_comments <$> subreddit_search q reddit_posts.

(** The ids that the microblog items carry: an integer, a string or
    None.  On them the equality of Python is the equality of terms. *)
Definition plain_id (v : pyval) : Prop :=
  match v with VNone | VInt _ | VStr _ => True | _ => False end.

(** An item made of a tweet of the microblog source. *)
Definition microblog_item (d : dict) : Prop := from_twitter d ∧ plain_id (get_id d).

(** The keys of the ids of a list of items. *)
Definition keyed (l : list dict) (ks : list hkey) : Prop :=
  Forall2 (λ d k, hash_key (get_id d) = Return k) l ks.

(** Items counted from 1 in the order of the list, with their query and
    the tag of the microblog source. *)
Definition numbered (keyword : pystr) (l : list dict) : Prop :=
  ∀ (i : nat) d, l !! i = Some d →
    get d "tweet_count" = VInt (Z.of_nat i + 1)
    ∧ get d "query" = VStr keyword
    ∧ from_twitter d.

End collector_vocabulary.

(** ** The vocabulary of the statements about [sentiment_analyzer] *)

Section sentiment_vocabulary.
Context `{!Unicode, !Repr, !Nlp}.

(** The two sentiment columns of an enriched row, and the two entries of
    a result of the classification. *)
Definition sentiment_columns (row : dict) : pyval * pyval :=
  (get row "sentiment", get row "sentiment_score").
Definition label_and_score (s : dict) : pyval * pyval :=
  (get s "label", get s "score").

(** An entry of the classification: a label that is a string and a
    score that is a float. *)
Definition sentiment_entry (s : dict) : Prop :=
  ∃ label score, s !! py "label" = Some (VStr label) ∧ s !! py "score" = Some (VFloat score).

(** A row that carries the label and the score of an entry. *)
Definition carries (row s : dict) : Prop :=
  row !! py "sentiment" = Some (get s "label")
  ∧ row !! py "sentiment_score" = Some (get s "score").

(** A row whose label is a string and whose score is a float. *)
Definition populated (row : dict) : Prop :=
  ∃ label score,
    row !! py "sentiment" = Some (VStr label)
    ∧ row !! py "sentiment_score" = Some (VFloat score).

(** The rows of the frame of a list of records, and their texts. *)
Definition texts_of (records : list dict) : list pystr :=
  text_cell <$> DataFrame records.

(** The batches taken one after the other, in the order of the input,
    by a loop without a pool. *)
Definition classify_in_turn (texts : list pystr) (batch_size : Z) : outcome (list dict) :=
  batches ← _batchify texts batch_size;
  results ← mapM process_batch batches;
  Return (concat (results : list (list dict))).

(** The words of the specification: all the texts classified
    sequentially, one text after the other, in the order of the input. *)
Definition classify_sequentially (texts : list pystr) : outcome (list dict) :=
  results ← mapM (λ text, process_batch [text]) texts;
  Return (concat (results : list (list dict))).

(** A classifier that answers for each text of a batch on its own. *)
Definition pointwise (classify : pystr → RawResult) : Prop :=
  ∀ batch, sentiment_pipeline batch = Return (classify <$> batch).

(** The three keys of the buckets, and the key under which a row is
    filed: its label as a string in upper case when that is a key, else
    the neutral one. *)
Definition bucket_keys : list pystr := [py "POSITIVE"; py "NEGATIVE"; py "NEUTRAL"].
Definition bucket_of (row : dict) : pystr :=
  let sentiment := upper (py_str (get_or row "sentiment" (VStr (py "NEUTRAL")))) in
  if bool_decide (sentiment ∈ bucket_keys) then sentiment else py "NEUTRAL".
Definition row_text (row : dict) : pyval := get_or row "text" (VStr []).

(** The fields of a readable record. *)
Definition readable_fields : list pystr :=
  py <$> ["username"; "text"; "sentiment"; "score"; "keywords"; "entities";
          "created_at"; "url"]%string.

(** What an enriched row owes to the record it was made of: the text of
    the record when that is a string, the empty text when the record has
    none; the keywords of its text; and a readable record that agrees with
    the columns of the row. *)
Definition no_text (record : dict) : Prop :=
  record !! py "text" = None ∨ record !! py "text" = Some VNone
  ∨ record !! py "text" = Some VNaN.
Definition enriched_from (record row : dict) : Prop :=
  (∀ t, record !! py "text" = Some (VStr t) → row !! py "text" = Some (VStr t))
  ∧ (no_text record → row !! py "text" = Some (VStr []))
  ∧ (∃ t, row !! py "text" = Some (VStr t)
          ∧ row !! py "keywords" = Some (VList (VStr <$> extract_keywords t)))
  ∧ ∃ readable,
      row !! py "readable_output" = Some (VDict readable)
      ∧ readable !! py "text" = row !! py "text"
      ∧ readable !! py "sentiment" = row !! py "sentiment"
      ∧ readable !! py "score" = row !! py "sentiment_score"
      ∧ readable !! py "keywords" = row !! py "keywords".

(** The chunks that may become keywords, in the order of the text, and
    a list whose order is that of the first occurrences in the chunks: an
    element that comes before another occurs in the chunks before any
    occurrence of the other. *)
Definition kept_chunks (text : pystr) : list pystr :=
  (λ chunk, strip (lower chunk))
    <$> filter (λ chunk, 2 < len (strip chunk)) (noun_chunks text).
Definition in_order_of (chunks out : list pystr) : Prop :=
  ∀ (i j : nat) k1 k2, out !! i = Some k1 → out !! j = Some k2 → (i < j)%nat →
    ∃ a b, chunks = a ++ k1 :: b ∧ (k1 ∉ a) ∧ (k2 ∉ a).

(** A field of the readable record of a row of the frame, and the
    records of which one at least has a given field, that is, the frames
    that have the column. *)
Definition readable_field (field : string) (row : dict) : pyval :=
  match row !! py "readable_output" with
  | Some (VDict readable) => get readable field
  | _ => VNone
  end.
Definition has_column (field : string) (records : list dict) : Prop :=
  Exists (λ record, is_Some (record !! py field)) records.

End sentiment_vocabulary.

(** ** Collaborators used to run the model on concrete inputs *)

Module fixtures.

(** A character database that knows no letter above 127. *)
Definition ascii_unicode : Unicode :=
  {| unicode_alnum := λ _, false;
     unicode_lower := λ c, [c];
     unicode_upper := λ c, [c] |}.

(** An emoji remover for the blocks from U+1F000 upwards. *)
Definition plain_emoji : Emoji :=
  {| replace_emoji := List.filter (λ c, (c <? 126976)%N) |}.

(** A detector that always answers English, and one that always fails. *)
Definition english_only : Translator :=
  {| detect := λ _, Return (py "en"); translate := λ s, Return s |}.
Definition offline : Translator :=
  {| detect := λ _, Raise (Exception "LangDetectException");
     translate := λ _, Raise (Exception "RequestError") |}.

Definition tweet_of (i : Z) (raw : string) : Tweet :=
  {| tweet_id := Some i; rawContent := Some (py raw); user := Attr None;
     likeCount := None; retweetCount := None; replyCount := None;
     bookmarkCount := None; viewCount := None; date := None;
     hashtags := None |}.

(** Two keywords whose streams share the tweet 2. *)
Definition two_keywords : KeywordSource :=
  {| generate_search_terms := λ _ _, Return [py "a"; py "b"] |}.
(** A generator of keywords that is out of reach. *)
Definition no_keywords : KeywordSource :=
  {| generate_search_terms := λ _ _, Raise (Exception "ConnectionError") |}.
Definition shared_tweet : Twitter :=
  {| search := λ kw _,
       if bool_decide (kw = py "a")
       then [tweet_of 1 "the quick brown fox jumps"; tweet_of 2 "over the lazy dog again"]
       else [tweet_of 2 "over the lazy dog again"; tweet_of 3 "and runs far away today"] |}.

(** A forum whose every search finds the same submission. *)
Definition one_submission : Reddit :=
  {| subreddit_search := λ _ _,
       [ {| submission_id := py "p1"; subreddit := py "news";
            title := py "A title"; selftext := py "A body"; author := py "ann";
            score := 7; created_utc := 0; comments := [] |} ] |}.
Definition no_forum : Reddit := {| subreddit_search := λ _ _, [] |}.

Definition memory_files : FileSystem := {| write_json := λ _ _, Return () |}.
Definition opaque_repr : Repr := {| py_repr := λ _, py "?" |}.

(** A rounding to three decimals. *)
Definition round_half_up (q : Q) : Q :=
  Qred (Qmake (Qfloor (q * 1000 + (1 # 2))%Q) 1000).

(** A language model without chunks or entities, around a classifier. *)
Definition nlp_with (pipeline : list pystr → outcome (list RawResult)) : Nlp :=
  {| noun_chunks := λ _, [];
     ents := λ _, [];
     sentiment_pipeline := pipeline;
     round3 := round_half_up;
     read_json := λ _, Raise (Exception "FileNotFoundError") |}.

(** A classifier that judges a text by its length, one that raises on
    every batch, and one that loses the last result of each batch. *)
Definition length_result (text : pystr) : RawResult :=
  {| raw_label := Some (if 4 <? len text then py "LABEL_2" else py "LABEL_0");
     raw_score := Some (Qmake (len text) 10) |}.
Definition by_length : Nlp := nlp_with (λ batch, Return (length_result <$> batch)).
Definition out_of_memory : Nlp := nlp_with (λ _, Raise (Exception "RuntimeError")).
Definition lossy : Nlp :=
  nlp_with (λ batch, Return (length_result <$> take (length batch - 1) batch)).

(** Three records, the second without a text, and a schedule under which
    the batch that started last completes first. *)
Definition three_posts : list dict :=
  [ list_to_map [(py "text", VStr (py "good news")); (py "username", VStr (py "ann"))];
    list_to_map [(py "username", VStr (py "bob"))];
    list_to_map [(py "text", VStr (py "fine")); (py "username", VStr (py "cy"))] ].
Definition last_first (step : nat) : nat := Nat.pred (3 - step).

(** Two records as a run of the collector mixes them: an item of the
    microblog, with a username, and an item of the forum, without. *)
Definition mixed_posts : list dict :=
  [ list_to_map [(py "text", VStr (py "good news")); (py "username", VStr (py "ann"))];
    list_to_map [(py "text", VStr (py "fine")); (py "subreddit", VStr (py "news"))] ].

(** A language model that finds the same chunks in every text, one of
    them twice. *)
Definition repeating_chunks : Nlp :=
  {| noun_chunks := λ _, [py "Aaa "; py "bbb"; py "it"; py " aaa"];
     ents := λ _, [];
     sentiment_pipeline := λ batch, Return (length_result <$> batch);
     round3 := round_half_up;
     read_json := λ _, Raise (Exception "FileNotFoundError") |}.

End fixtures.

(** * Verification *)

(** ** Lists and strings *)

Section string_facts.
Context `{!Unicode}.

Lemma drop_take_while {A} (p : A → bool) (l : list A) :
  drop (length (take_while p l)) l = drop_while p l.
Proof.
  induction l as [|x l IH]; simpl; [done|].
  destruct (p x); simpl; done.
Qed.

Lemma drop_while_Forall {A} (P : A → Prop) (p : A → bool) (l : list A) :
  Forall P l → Forall P (drop_while p l).
Proof.
  induction 1 as [|x l Hx Hl IH]; simpl; [constructor|].
  destruct (p x); [done|by constructor].
Qed.

Lemma drop_while_suffix {A} (p : A → bool) (l : list A) :
  drop_while p l `suffix_of` l.
Proof.
  induction l as [|x l IH]; simpl; [done|].
  destruct (p x); [by apply suffix_cons_r|done].
Qed.

Lemma drop_while_head {A} (p : A → bool) (l : list A) x r :
  drop_while p l = x :: r → p x = false.
Proof.
  induction l as [|y l IH]; simpl; [done|].
  destruct (p y) eqn:Hy; [done|]. intros [= -> ->]. done.
Qed.

Lemma drop_while_id {A} (p : A → bool) (x : A) (r : list A) :
  p x = false → drop_while p (x :: r) = x :: r.
Proof. simpl. by intros ->. Qed.

Lemma drop_while_length {A} (p : A → bool) (l : list A) :
  (length (drop_while p l) ≤ length l)%nat.
Proof. apply suffix_length, drop_while_suffix. Qed.

Lemma rstrip_Forall (P : N → Prop) (s : pystr) :
  Forall P s → Forall P (rstrip s).
Proof.
  induction 1 as [|c r Hc Hr IH]; simpl; [constructor|].
  destruct (rstrip r) as [|d r'] eqn:E.
  - destruct (isspace c); repeat constructor; done.
  - by constructor.
Qed.

Lemma rstrip_idem (s : pystr) : rstrip (rstrip s) = rstrip s.
Proof.
  induction s as [|c r IH]; simpl; [done|].
  destruct (rstrip r) as [|d r'] eqn:E.
  - destruct (isspace c) eqn:Hc; simpl; [done|]. by rewrite Hc.
  - simpl in *. rewrite IH. done.
Qed.

Lemma rstrip_head c r :
  isspace c = false → ∃ r', rstrip (c :: r) = c :: r'.
Proof.
  intros Hc. simpl. destruct (rstrip r); rewrite ?Hc; eauto.
Qed.

Lemma strip_Forall (P : N → Prop) (s : pystr) : Forall P s → Forall P (strip s).
Proof. intros. by apply rstrip_Forall, drop_while_Forall. Qed.

Lemma lstrip_rstrip_lstrip (s : pystr) :
  lstrip (rstrip (lstrip s)) = rstrip (lstrip s).
Proof.
  unfold lstrip. destruct (drop_while isspace s) as [|c r] eqn:E; [done|].
  pose proof (drop_while_head _ _ _ _ E) as Hc.
  destruct (rstrip_head c r Hc) as [r' ->]. by apply drop_while_id.
Qed.

Lemma strip_idem (s : pystr) : strip (strip s) = strip s.
Proof. unfold strip. by rewrite lstrip_rstrip_lstrip, rstrip_idem. Qed.

End string_facts.
Section substring_facts.
Context `{!Unicode}.

Lemma startswith_prefix (s p : pystr) :
  startswith s p = true ↔ ∃ k, s = p ++ k.
Proof.
  revert s. induction p as [|a p IH]; intros s; simpl.
  - split; [by exists s|done].
  - destruct s as [|b s]; simpl.
    + split; [done|]. by intros [k ?].
    + rewrite andb_true_iff, N.eqb_eq, IH. split.
      * intros [-> [k ->]]. eauto.
      * intros [k [= -> ->]]. eauto.
Qed.

Lemma contains_occurs (s needle : pystr) :
  contains s needle = true ↔ occurs_in needle s.
Proof.
  induction s as [|c s IH]; simpl.
  - rewrite orb_false_r, startswith_prefix. split.
    + intros [k ->]. by exists [], k.
    + intros (a & b & E). symmetry in E.
      apply app_eq_nil in E as [-> E]. apply app_eq_nil in E as [-> ->].
      by exists [].
  - rewrite orb_true_iff, startswith_prefix, IH. split.
    + intros [[k ->]|(a & b & ->)]; [by exists [], k|by exists (c :: a), b].
    + intros ([|x a] & b & E); simpl in E.
      * left. eauto.
      * right. injection E as -> ->. by exists a, b.
Qed.

Lemma occurs_in_elem (t s : pystr) (c : N) : occurs_in t s → c ∈ t → c ∈ s.
Proof. intros (a & b & ->) ?. set_solver. Qed.

End substring_facts.

(** ** Substitution by a regular expression *)

Section re_sub_facts.
Context `{!Unicode}.

Lemma re_sub_skip m repl k s : re_sub m repl k s = re_sub m repl 0 (drop k s).
Proof.
  revert k. induction s as [|c r IH]; intros [|k]; simpl; done.
Qed.

Lemma re_sub_Forall (P : N → Prop) m repl k s :
  Forall P repl → Forall P s → Forall P (re_sub m repl k s).
Proof.
  intros Hrepl Hs. revert k.
  induction Hs as [|c r Hc Hr IH]; intros k; simpl; [constructor|].
  destruct k as [|k]; [|done].
  destruct (m (c :: r)) as [[|n]|]; try (by constructor).
  apply Forall_app. split; done.
Qed.

Lemma re_sub_none m repl s :
  (∀ t, t `suffix_of` s → m t = None) → re_sub m repl 0 s = s.
Proof.
  induction s as [|c r IH]; intros Hm; simpl; [done|].
  rewrite (Hm (c :: r)) by done. f_equal. apply IH.
  intros t Ht. apply Hm. by apply suffix_cons_r.
Qed.

(** A pattern that is a run of one class, [cls+]. *)
Lemma match_run_cons cls c r :
  match_lit_run [] cls (c :: r) =
  if cls c then Some (S (length (take_while cls r))) else None.
Proof. unfold match_lit_run. simpl. by destruct (cls c). Qed.

Lemma re_sub_run_cons cls repl c r :
  re_sub (match_lit_run [] cls) repl 0 (c :: r) =
  if cls c then repl ++ re_sub (match_lit_run [] cls) repl 0 (drop_while cls r)
  else c :: re_sub (match_lit_run [] cls) repl 0 r.
Proof.
  cbn [re_sub]. rewrite match_run_cons. destruct (cls c); [|done].
  by rewrite re_sub_skip, drop_take_while.
Qed.

(** After the substitution no character of the class is left, unless the
    replacement brings one. *)
Lemma re_sub_run_excludes cls repl s :
  Forall (λ c, cls c = false) repl →
  ∀ k, Forall (λ c, cls c = false) (re_sub (match_lit_run [] cls) repl k s).
Proof.
  intros Hrepl. induction s as [|c r IH]; intros k; simpl; [constructor|].
  destruct k as [|k]; [|done].
  rewrite match_run_cons. destruct (cls c) eqn:Hc.
  - apply Forall_app. split; done.
  - constructor; done.
Qed.

(** A pattern that starts with a literal finds no match in a text that
    lacks one character of the literal. *)
Lemma match_lit_run_none lit cls s x :
  x ∈ lit → x ∉ s → match_lit_run lit cls s = None.
Proof.
  intros Hx Hs. unfold match_lit_run.
  destruct (startswith s lit) eqn:E; [|done].
  apply startswith_prefix in E as [k ->]. set_solver.
Qed.

Lemma re_sub_lit_absent lit cls repl s x :
  x ∈ lit → x ∉ s → re_sub (match_lit_run lit cls) repl 0 s = s.
Proof.
  intros Hx Hs. apply re_sub_none. intros t [k ->].
  apply (match_lit_run_none _ _ _ x); set_solver.
Qed.

End re_sub_facts.

(** ** The shape of a cleaned text *)

Section clean_text_facts.
Context `{!Unicode, !Emoji, !Translator}.

Lemma safe_space : safe (chr " ") = true.
Proof. reflexivity. Qed.

Lemma safe_elim c :
  safe c = true →
  is_ascii c = true ∧ kept c = true
  ∧ c ≠ chr "@" ∧ c ≠ chr "#" ∧ c ≠ chr ":" ∧ c ≠ chr "/".
Proof.
  unfold safe. rewrite andb_true_iff. intros [Ha Hk].
  repeat split; try done; intros ->; vm_compute in Hk; done.
Qed.

(** Every character of a cleaned text is [safe]. *)
Lemma clean_text_safe text : Forall (λ c, safe c = true) (clean_text text).
Proof.
  destruct text as [| | | |s| |]; try constructor.
  cbn [clean_text]. apply strip_Forall, re_sub_Forall.
  { repeat constructor. }
  set (t := re_sub nonascii_match _ _ _).
  assert (Forall (λ c, nonascii c = false) t) as Ht.
  { apply re_sub_run_excludes. repeat constructor. }
  apply Forall_forall. intros c Hc.
  apply list_elem_of_filter in Hc as [Hk Hc].
  rewrite Forall_forall in Ht. specialize (Ht c Hc).
  unfold safe, nonascii in *. apply negb_false_iff in Ht.
  rewrite Ht. simpl. by apply Is_true_true.
Qed.

Lemma clean_text_lacks text c :
  c = chr "@" ∨ c = chr "#" ∨ c = chr ":" ∨ c = chr "/" →
  c ∉ clean_text text.
Proof.
  intros Hc Hin.
  pose proof (clean_text_safe text) as Hs. rewrite Forall_forall in Hs.
  destruct (safe_elim c (Hs c Hin)) as (_ & _ & ? & ? & ? & ?).
  destruct Hc as [-> | [-> | [-> | ->]]]; done.
Qed.

Lemma token_not_in_clean text (t : pystr) c :
  c = chr "@" ∨ c = chr "#" ∨ c = chr ":" ∨ c = chr "/" →
  c ∈ t → ¬ occurs_in t (clean_text text).
Proof.
  intros Hc Hin Hocc. apply (clean_text_lacks text c Hc).
  by apply (occurs_in_elem t).
Qed.

(** C7: whatever the raw text, no [@mention], no [#hashtag] and no URL of
    the raw text is a substring of the cleaned text. *)
Theorem clean_text_strips_tokens (raw m h u : pystr) :
  mention_token m → hashtag_token h → url_token u →
  occurs_in m raw → occurs_in h raw → occurs_in u raw →
  ¬ occurs_in m (clean_text (VStr raw))
  ∧ ¬ occurs_in h (clean_text (VStr raw))
  ∧ ¬ occurs_in u (clean_text (VStr raw)).
Proof.
  intros (w & -> & _ & _) (w' & -> & _ & _) (scheme & rest & Hs & -> & _ & _) _ _ _.
  split; [|split].
  - apply (token_not_in_clean _ _ (chr "@")); [tauto|by left].
  - apply (token_not_in_clean _ _ (chr "#")); [tauto|by left].
  - apply (token_not_in_clean _ _ (chr ":")); [tauto|].
    apply elem_of_app. left.
    destruct Hs as [-> | ->]; apply list_elem_of_In; simpl; tauto.
Qed.

End clean_text_facts.

(** ** Cleaning a cleaned text *)

Section clean_text_idempotence.
Context `{!Unicode, !Emoji, !Translator}.

Lemma ws_sub_cons c r :
  ws_sub (c :: r) =
  if isspace c then chr " " :: ws_sub (drop_while isspace r) else c :: ws_sub r.
Proof. unfold spaces_match. rewrite re_sub_run_cons. by destruct (isspace c). Qed.

Lemma head_space_drop_while s : head_space (drop_while isspace s) = false.
Proof.
  destruct (drop_while isspace s) as [|c r] eqn:E; [done|].
  simpl. by apply drop_while_head in E.
Qed.

Lemma drop_while_no_head_space s : head_space s = false → drop_while isspace s = s.
Proof. destruct s as [|c r]; simpl; [done|]. by intros ->. Qed.

Lemma ws_sub_head s : head_space (ws_sub s) = head_space s.
Proof.
  destruct s as [|c r]; [done|]. rewrite ws_sub_cons.
  destruct (isspace c) eqn:Hc; simpl; done.
Qed.

Lemma ws_sub_spaced_aux n s : (length s ≤ n)%nat → spaced (ws_sub s) = true.
Proof.
  revert s. induction n as [|n IH]; intros [|c r] Hlen; simpl in Hlen; try done; try lia.
  rewrite ws_sub_cons. destruct (isspace c) eqn:Hc.
  - cbn [spaced]. rewrite ws_sub_head, head_space_drop_while. simpl.
    apply IH. pose proof (drop_while_length isspace r). lia.
  - cbn [spaced]. rewrite Hc. simpl. apply IH. lia.
Qed.

Lemma ws_sub_spaced s : spaced (ws_sub s) = true.
Proof. by apply (ws_sub_spaced_aux (length s)). Qed.

Lemma spaced_tail c r : spaced (c :: r) = true → spaced r = true.
Proof. cbn [spaced]. rewrite andb_true_iff. tauto. Qed.

Lemma spaced_drop_while s : spaced s = true → spaced (drop_while isspace s) = true.
Proof.
  induction s as [|c r IH]; [done|]. intros Hs. simpl.
  destruct (isspace c); [|done]. eauto using spaced_tail.
Qed.

Lemma rstrip_head_inv r d r' : rstrip r = d :: r' → ∃ r0, r = d :: r0.
Proof.
  destruct r as [|c r]; simpl; [done|].
  destruct (rstrip r); [destruct (isspace c)|]; intros [= -> <-]; eauto.
Qed.

Lemma spaced_rstrip s : spaced s = true → spaced (rstrip s) = true.
Proof.
  induction s as [|c r IH]; [done|]. intros Hs.
  pose proof Hs as Hs'. cbn [spaced] in Hs'. apply andb_true_iff in Hs' as [Hc Hr].
  cbn [rstrip]. destruct (rstrip r) as [|d r'] eqn:E.
  - destruct (isspace c) eqn:Hsp; [done|]. cbn [spaced]. by rewrite Hsp.
  - cbn [spaced]. apply andb_true_iff. split; [|by apply IH].
    destruct (rstrip_head_inv _ _ _ E) as [r0 ->]. done.
Qed.

Lemma spaced_strip s : spaced s = true → spaced (strip s) = true.
Proof. intros. by apply spaced_rstrip, spaced_drop_while. Qed.

(** In a text where white space occurs only as single spaces, there is
    nothing to collapse. *)
Lemma ws_sub_id s : spaced s = true → ws_sub s = s.
Proof.
  induction s as [|c r IH]; [done|]. intros Hs.
  rewrite ws_sub_cons. pose proof (spaced_tail _ _ Hs) as Hr.
  cbn [spaced] in Hs. apply andb_true_iff in Hs as [Hc _].
  destruct (isspace c) eqn:Hsp; simpl in Hc.
  - apply andb_true_iff in Hc as [Hc Hh]. apply N.eqb_eq in Hc as ->.
    apply negb_true_iff in Hh. rewrite (drop_while_no_head_space _ Hh).
    by rewrite IH.
  - by rewrite IH.
Qed.

Lemma spaced_space s c :
  spaced s = true → c ∈ s → isspace c = true → c = chr " ".
Proof.
  induction s as [|d r IH]; intros Hs Hin Hc; [by apply elem_of_nil in Hin|].
  apply elem_of_cons in Hin as [->|Hin]; [|by eauto using spaced_tail].
  cbn [spaced] in Hs. rewrite Hc in Hs. simpl in Hs.
  apply andb_true_iff in Hs as [Hs _]. apply andb_true_iff in Hs as [Hs _].
  by apply N.eqb_eq in Hs.
Qed.

Lemma re_sub_run_absent cls repl s :
  Forall (λ c, cls c = false) s → re_sub (match_lit_run [] cls) repl 0 s = s.
Proof.
  induction 1 as [|c r Hc Hr IH]; [done|].
  by rewrite re_sub_run_cons, Hc, IH.
Qed.

Lemma re_sub_url_absent s : chr ":" ∉ s → re_sub url_match [] 0 s = s.
Proof.
  intros Hs. apply re_sub_none. intros t [k ->]. unfold url_match.
  rewrite !(match_lit_run_none _ _ _ (chr ":")); try done.
  - apply list_elem_of_In; simpl; tauto.
  - intros ?. apply Hs, elem_of_app. by right.
  - apply list_elem_of_In; simpl; tauto.
  - intros ?. apply Hs, elem_of_app. by right.
Qed.

Lemma filter_kept_id (s : pystr) :
  Forall (λ c, kept c = true) s → filter (λ c, kept c) s = s.
Proof.
  induction 1 as [|c r Hc Hr IH]; [done|].
  cbn [filter list_filter]. rewrite decide_True by (by apply Is_true_true).
  f_equal. exact IH.
Qed.

Lemma clean_text_spaced text : spaced (clean_text text) = true.
Proof.
  destruct text as [| | | |s| |]; try done.
  cbn [clean_text]. apply spaced_strip, ws_sub_spaced.
Qed.

Lemma clean_text_stripped text : strip (clean_text text) = clean_text text.
Proof.
  destruct text as [| | | |s| |]; try done.
  cbn [clean_text]. apply strip_idem.
Qed.

(** The alphabet of a cleaned text: ASCII letters and digits, the
    underscore, the space, and the punctuation [.,!?'-]. *)
Lemma clean_text_alphabet text :
  Forall (λ c, ascii_alnum c || (c =? chr "_")%N || (c =? chr " ")%N
               || basic_punct c = true) (clean_text text).
Proof.
  apply Forall_forall. intros c Hc.
  pose proof (clean_text_safe text) as Hs. rewrite Forall_forall in Hs.
  destruct (safe_elim c (Hs c Hc)) as (Ha & Hk & _).
  unfold kept, is_word in Hk. rewrite Ha in Hk.
  destruct (isspace c) eqn:Hsp.
  - rewrite (spaced_space _ c (clean_text_spaced text) Hc Hsp). done.
  - rewrite orb_false_r in Hk.
    apply orb_true_iff in Hk as [Hk|Hk]; rewrite Hk; by rewrite ?orb_true_r.
Qed.

(** C10: under the contract of the emoji library (a text of ASCII
    characters holds no emoji), cleaning a cleaned text changes nothing. *)
Theorem clean_text_idempotent (s : pystr) :
  (∀ t : pystr, Forall (λ c, is_ascii c = true) t → replace_emoji t = t) →
  clean_text (VStr (clean_text (VStr s))) = clean_text (VStr s).
Proof.
  intros Hemoji. set (t := clean_text (VStr s)).
  pose proof (clean_text_safe (VStr s)) as Hsafe. fold t in Hsafe.
  assert (∀ c, c ∈ t → is_ascii c = true ∧ kept c = true
                        ∧ c ≠ chr "@" ∧ c ≠ chr "#" ∧ c ≠ chr ":" ∧ c ≠ chr "/") as Hc.
  { intros c Hin. rewrite Forall_forall in Hsafe. by apply safe_elim, Hsafe. }
  cbn [clean_text].
  rewrite Hemoji by (apply Forall_forall; intros c Hin; by apply Hc).
  rewrite re_sub_url_absent by (intros Hin; by destruct (Hc _ Hin) as (_&_&_&_&?&_)).
  unfold mention_match, hashtag_match, nonascii_match.
  rewrite (re_sub_lit_absent (py "@") _ _ _ (chr "@"));
    [|by left|intros Hin; by destruct (Hc _ Hin) as (_&_&?&_)].
  rewrite (re_sub_lit_absent (py "#") _ _ _ (chr "#"));
    [|by left|intros Hin; by destruct (Hc _ Hin) as (_&_&_&?&_)].
  rewrite re_sub_run_absent;
    [|apply Forall_forall; intros c Hin; unfold nonascii;
      by destruct (Hc _ Hin) as (->&_)].
  rewrite filter_kept_id by (apply Forall_forall; intros c Hin; by apply Hc).
  rewrite ws_sub_id by apply clean_text_spaced.
  apply clean_text_stripped.
Qed.

End clean_text_idempotence.

(** ** The hashtag-only pattern *)

Section hashtag_pattern.
Context `{!Unicode}.

Lemma tags_space_of_start s :
  tags_from TagStart s = true → tags_from TagSpace s = true.
Proof.
  destruct s as [|c r]; cbn [tags_from]; [done|].
  intros ->. by rewrite orb_true_r.
Qed.

Lemma tags_word_of_space s :
  tags_from TagSpace s = true → tags_from TagWord s = true.
Proof.
  destruct s as [|c r]; cbn [tags_from]; [done|].
  intros [Hs|Hs]%orb_true_iff; rewrite Hs; by rewrite ?orb_true_r.
Qed.

Lemma tags_word_run w rest :
  Forall (λ c, is_word c) w →
  tags_from TagWord rest = true → tags_from TagWord (w ++ rest) = true.
Proof.
  induction 1 as [|c w Hc Hw IH]; intros Hrest; [done|].
  cbn [app tags_from]. apply Is_true_true in Hc. rewrite Hc, IH by done. done.
Qed.

Lemma tags_space_run sp rest :
  Forall (λ c, isspace c) sp →
  tags_from TagSpace rest = true → tags_from TagSpace (sp ++ rest) = true.
Proof.
  induction 1 as [|c sp Hc Hsp IH]; intros Hrest; [done|].
  cbn [app tags_from]. apply Is_true_true in Hc. rewrite Hc, IH by done. done.
Qed.

Lemma tags_hash_run w sp rest :
  w ≠ [] → Forall (λ c, is_word c) w → Forall (λ c, isspace c) sp →
  tags_from TagSpace rest = true →
  tags_from TagStart (chr "#" :: w ++ sp ++ rest) = true.
Proof.
  intros Hne Hw Hsp Hrest. destruct w as [|c w]; [done|].
  apply Forall_cons in Hw as [Hc Hw]. apply Is_true_true in Hc.
  cbn [app tags_from]. rewrite N.eqb_refl, Hc.
  by apply tags_word_run, tags_word_of_space, tags_space_run.
Qed.

Lemma hashtag_run_matches s : hashtag_run s → fullmatch_hashtags s = true.
Proof.
  unfold fullmatch_hashtags.
  induction 1 as [w sp Hne Hw Hsp|w sp rest Hne Hw Hsp Hrest IH].
  - rewrite <-(app_nil_r sp). by apply tags_hash_run.
  - by apply tags_hash_run, tags_space_of_start.
Qed.

Lemma hashtag_run_intro w sp rest :
  w ≠ [] → Forall (λ c, is_word c) w → Forall (λ c, isspace c) sp →
  tail_ok rest → hashtag_run (chr "#" :: w ++ sp ++ rest).
Proof.
  intros Hne Hw Hsp [->|Hrest].
  - rewrite app_nil_r. by constructor.
  - by constructor.
Qed.

Lemma tags_from_inv s :
  (tags_from TagStart s = true → hashtag_run s)
  ∧ (tags_from TagHash s = true →
      ∃ w sp rest, s = w ++ sp ++ rest ∧ w ≠ []
        ∧ Forall (λ c, is_word c) w ∧ Forall (λ c, isspace c) sp ∧ tail_ok rest)
  ∧ (tags_from TagWord s = true →
      ∃ w sp rest, s = w ++ sp ++ rest
        ∧ Forall (λ c, is_word c) w ∧ Forall (λ c, isspace c) sp ∧ tail_ok rest)
  ∧ (tags_from TagSpace s = true →
      ∃ sp rest, s = sp ++ rest ∧ Forall (λ c, isspace c) sp ∧ tail_ok rest).
Proof.
  induction s as [|c r (IHstart & IHhash & IHword & IHspace)].
  { split; [done|split; [done|split]]; intros _.
    - exists [], [], []. split; [done|]. split; [constructor|].
      split; [constructor|by left].
    - exists [], []. split; [done|]. split; [constructor|by left]. }
  assert (tags_from TagStart (c :: r) = true → hashtag_run (c :: r)) as Hstart.
  { cbn [tags_from]. destruct (c =? chr "#")%N eqn:Hc; [|done].
    apply N.eqb_eq in Hc as ->.
    intros (w & sp & rest & -> & ? & ? & ? & ?)%IHhash.
    by apply hashtag_run_intro. }
  assert (tags_from TagSpace (c :: r) = true →
          ∃ sp rest, c :: r = sp ++ rest ∧ Forall (λ c, isspace c) sp ∧ tail_ok rest)
    as Hspace.
  { intros Hs. cbn [tags_from] in Hs. apply orb_true_iff in Hs as [Hs|Hs].
    - destruct (isspace c) eqn:Hc; [|done].
      apply IHspace in Hs as (sp & rest & -> & ? & ?).
      exists (c :: sp), rest. repeat split; try done.
      constructor; [by apply Is_true_true|done].
    - exists [], (c :: r). repeat split; [constructor|]. right.
      apply Hstart. cbn [tags_from]. done. }
  split; [done|split; [|split; [|done]]].
  - cbn [tags_from]. destruct (is_word c) eqn:Hc; [|done].
    intros (w & sp & rest & -> & ? & ? & ?)%IHword.
    exists (c :: w), sp, rest. repeat split; try done.
    constructor; [by apply Is_true_true|done].
  - intros Hs. cbn [tags_from] in Hs.
    apply orb_true_iff in Hs as [Hs|Hs]; [apply orb_true_iff in Hs as [Hs|Hs]|].
    + destruct (is_word c) eqn:Hc; [|done].
      apply IHword in Hs as (w & sp & rest & -> & ? & ? & ?).
      exists (c :: w), sp, rest. repeat split; try done.
      constructor; [by apply Is_true_true|done].
    + destruct Hspace as (sp & rest & E & ? & ?).
      { cbn [tags_from]. by rewrite Hs. }
      exists [], sp, rest. repeat split; try done.
    + destruct Hspace as (sp & rest & E & ? & ?).
      { cbn [tags_from]. rewrite Hs. by rewrite orb_true_r. }
      exists [], sp, rest. repeat split; try done.
Qed.

Lemma fullmatch_hashtags_spec s : fullmatch_hashtags s = true ↔ hashtag_run s.
Proof.
  split; [apply tags_from_inv|apply hashtag_run_matches].
Qed.

End hashtag_pattern.

(** ** The quality filter *)

Section is_spammy_facts.
Context `{!Unicode, !Emoji, !Translator}.

Lemma lower_ascii_text s :
  Forall (λ c, is_ascii c = true) s → lower s = lower_ascii <$> s.
Proof.
  induction 1 as [|c r Hc Hr IH]; [done|].
  unfold lower in *. cbn [mbind list_bind fmap list_fmap app].
  unfold lower_char at 1. rewrite Hc. cbn [app]. by rewrite IH.
Qed.

Lemma isspace_lower_ascii c : isspace (lower_ascii c) = isspace c.
Proof.
  unfold lower_ascii. destruct (ascii_upper c) eqn:Hc; [|done].
  unfold ascii_upper, between in Hc.
  apply andb_true_iff in Hc as [Hlo Hhi]. apply N.leb_le in Hlo, Hhi.
  transitivity false; [|symmetry]; apply not_true_is_false; intros Hsp;
    unfold isspace, between in Hsp;
    rewrite !orb_true_iff, !andb_true_iff, !N.leb_le, !N.eqb_eq in Hsp; lia.
Qed.

Lemma drop_while_fmap (f : N → N) (p : N → bool) s :
  (∀ c, p (f c) = p c) → drop_while p (f <$> s) = f <$> drop_while p s.
Proof.
  intros Hf. induction s as [|c r IH]; [done|].
  cbn [fmap list_fmap drop_while]. rewrite Hf. by destruct (p c).
Qed.

Lemma rstrip_fmap (f : N → N) s :
  (∀ c, isspace (f c) = isspace c) → rstrip (f <$> s) = f <$> rstrip s.
Proof.
  intros Hf. induction s as [|c r IH]; [done|].
  cbn [fmap list_fmap rstrip] in *. rewrite IH, Hf.
  destruct (rstrip r); [by destruct (isspace c)|done].
Qed.

Lemma strip_fmap (f : N → N) s :
  (∀ c, isspace (f c) = isspace c) → strip (f <$> s) = f <$> strip s.
Proof.
  intros Hf. unfold strip, lstrip. by rewrite drop_while_fmap, rstrip_fmap.
Qed.

(** Lower-casing and trimming a cleaned text keeps its length. *)
Lemma cleaned_length text :
  length (strip (lower (clean_text text))) = length (clean_text text).
Proof.
  rewrite lower_ascii_text.
  - rewrite strip_fmap by apply isspace_lower_ascii.
    by rewrite length_fmap, clean_text_stripped.
  - eapply Forall_impl; [apply clean_text_safe|].
    intros c Hc. by apply safe_elim in Hc as (? & _).
Qed.

Lemma is_spammy_unfold tweet :
  is_spammy tweet =
    (len (strip (lower (clean_text (VStr (raw_of tweet))))) <? 15)
    || (6 <? count_char (chr "#") (raw_of tweet))
    || fullmatch_hashtags (strip (raw_of tweet))
    || (contains (raw_of tweet) (py "http") && (len (split (raw_of tweet)) <? 5))
    || startswith (strip (lower (raw_of tweet))) (py "rt ").
Proof.
  unfold is_spammy.
  repeat match goal with |- context [if ?b then _ else _] => destruct b end; done.
Qed.

(** C4, as the code decides it: a tweet is spam exactly when its cleaned
    text is shorter than 15 characters, or its raw text has more than 6
    hash signs, or consists of hashtags only, or contains the substring
    http and has fewer than 5 tokens, or starts with the retweet marker. *)
Theorem is_spammy_iff (tweet : Tweet) :
  is_spammy tweet = true ↔ low_quality (raw_of tweet).
Proof.
  rewrite is_spammy_unfold. unfold low_quality.
  rewrite !orb_true_iff, andb_true_iff.
  rewrite fullmatch_hashtags_spec, contains_occurs, startswith_prefix.
  unfold len, count_char. rewrite cleaned_length, !Z.ltb_lt.
  unfold cleaned_too_short, too_many_hashes, only_hashtags, has_http,
    few_tokens, retweet_marker.
  assert (∀ n, Z.of_nat n < 15 ↔ (n < 15)%nat) as E15 by (intros; lia).
  assert (∀ n, 6 < Z.of_nat n ↔ (6 < n)%nat) as E6 by (intros; lia).
  assert (∀ n, Z.of_nat n < 5 ↔ (n < 5)%nat) as E5 by (intros; lia).
  rewrite E15, E6, E5. tauto.
Qed.

Lemma url_token_colon u : url_token u → chr ":" ∈ u.
Proof.
  intros (scheme & rest & Hs & -> & _). apply elem_of_app. left.
  destruct Hs as [-> | ->]; apply list_elem_of_In; simpl; tauto.
Qed.

Lemma has_link_colon raw : has_link raw → chr ":" ∈ raw.
Proof.
  intros (u & Hu & Hocc). by eapply occurs_in_elem, url_token_colon.
Qed.

End is_spammy_facts.

(** ** Translation *)

Section translation_facts.
Context `{!Unicode, !Emoji, !Translator}.

Lemma rstrip_length s : (length (rstrip s) ≤ length s)%nat.
Proof.
  induction s as [|c r IH]; [done|]. cbn [rstrip].
  destruct (rstrip r); [destruct (isspace c)|]; simpl in *; lia.
Qed.

Lemma strip_length s : (length (strip s) ≤ length s)%nat.
Proof.
  unfold strip, lstrip. pose proof (rstrip_length (drop_while isspace s)).
  pose proof (drop_while_length isspace s). lia.
Qed.

(** C6: [translate_to_english] never raises; a text of fewer than 3
    characters is returned as it is, and so is a text on which the
    detector or the translator fails. *)
Theorem translate_to_english_never_raises (text : pystr) :
  (∀ e, translate_to_english text ≠ Raise e)
  ∧ ((length text < 3)%nat → translate_to_english text = Return text)
  ∧ (∀ e, detect text = Raise e → translate_to_english text = Return text)
  ∧ (∀ lang e, detect text = Return lang → translate text = Raise e →
       translate_to_english text = Return text)
  ∧ (detect text ≠ Blocked → translate text ≠ Blocked →
       ∃ r, translate_to_english text = Return r).
Proof.
  unfold translate_to_english.
  destruct (bool_decide (text = []) || (len (strip text) <? 3)) eqn:Hshort.
  { repeat split; try done. eauto. }
  assert (¬ (length text < 3)%nat) as Hlong.
  { apply orb_false_iff in Hshort as [_ Hs]. apply Z.ltb_ge in Hs.
    unfold len in Hs. pose proof (strip_length text). lia. }
  destruct (detect text) as [lang|e|] eqn:Hd; cbn [mbind outcome_bind];
    [destruct (bool_decide (lang ≠ py "en"));
       [destruct (translate text) as [r|e|] eqn:Ht|]| |];
    cbn [try_except];
    repeat split; intros; try done; try congruence; try lia; eauto.
Qed.

End translation_facts.

(** ** Runs on concrete inputs *)

Section text_runs.
#[local] Existing Instance fixtures.ascii_unicode.
#[local] Existing Instance fixtures.plain_emoji.

Lemma plain_emoji_ascii (t : pystr) :
  Forall (λ c, is_ascii c = true) t → replace_emoji t = t.
Proof.
  induction 1 as [|c r Hc Hr IH]; [done|].
  cbn [replace_emoji fixtures.plain_emoji List.filter] in *.
  unfold is_ascii in Hc. apply N.ltb_lt in Hc.
  destruct (N.ltb_spec c 126976); [by rewrite IH|lia].
Qed.

Example clean_text_keeps_underscore :
  clean_text (VStr (py "snake_case  is #fun")) = py "snake_case is".
Proof. by vm_compute. Qed.

Lemma clean_text_strips_tokens_witness :
  ¬ occurs_in (py "@bob") (clean_text (VStr (py "hi @bob see #tag at https://x.y/z now")))
  ∧ ¬ occurs_in (py "#tag") (clean_text (VStr (py "hi @bob see #tag at https://x.y/z now")))
  ∧ ¬ occurs_in (py "https://x.y/z")
        (clean_text (VStr (py "hi @bob see #tag at https://x.y/z now"))).
Proof.
  apply clean_text_strips_tokens.
  - exists (py "bob"). split; [reflexivity|]. split; [discriminate|].
    repeat (constructor; [by vm_compute|]). constructor.
  - exists (py "tag"). split; [reflexivity|]. split; [discriminate|].
    repeat (constructor; [by vm_compute|]). constructor.
  - exists (py "https://"), (py "x.y/z"). split; [by right|].
    split; [reflexivity|]. split; [discriminate|].
    repeat (constructor; [by vm_compute|]). constructor.
  - exists (py "hi "), (py " see #tag at https://x.y/z now"). reflexivity.
  - exists (py "hi @bob see "), (py " at https://x.y/z now"). reflexivity.
  - exists (py "hi @bob see #tag at "), (py " now"). reflexivity.
Defined.

Lemma clean_text_idempotent_witness :
  clean_text (VStr (clean_text (VStr (py "hi @bob,  see #tag at https://x.y/z (now_)!"))))
  = clean_text (VStr (py "hi @bob,  see #tag at https://x.y/z (now_)!")).
Proof. apply clean_text_idempotent. apply plain_emoji_ascii. Defined.

(** C4 as the specification words it fails on a text that mentions http
    without holding a link: the filter rejects it, on none of the five
    grounds. *)
Lemma low_quality_by_link_counterexample :
  is_spammy (fixtures.tweet_of 1 "http is a protocol") = true
  ∧ ¬ low_quality_by_link (py "http is a protocol").
Proof.
  split; [by vm_compute|].
  intros [Hc|[Hc|[Hc|[[Hc _]|Hc]]]].
  - unfold cleaned_too_short in Hc. vm_compute in Hc. lia.
  - unfold too_many_hashes in Hc. vm_compute in Hc. lia.
  - apply fullmatch_hashtags_spec in Hc. by vm_compute in Hc.
  - apply has_link_colon, list_elem_of_In in Hc. vm_compute in Hc.
    intuition discriminate.
  - apply startswith_prefix in Hc. by vm_compute in Hc.
Qed.

End text_runs.

Section translation_runs.
#[local] Existing Instance fixtures.ascii_unicode.
#[local] Existing Instance fixtures.offline.

Lemma translate_to_english_never_raises_witness :
  translate_to_english (py "bonjour le monde") = Return (py "bonjour le monde").
Proof.
  apply (translate_to_english_never_raises (py "bonjour le monde"))
    with (e := Exception "LangDetectException").
  reflexivity.
Defined.

End translation_runs.

(** ** Calls that may raise *)

Section outcome_facts.

Lemma bind_Return {A B} (m : outcome A) (f : A → outcome B) (b : B) :
  m ≫= f = Return b → ∃ a, m = Return a ∧ f a = Return b.
Proof. destruct m as [a| |]; simpl; [eauto|done|done]. Qed.

Lemma mapM_Return {A B} (f : A → outcome B) (l : list A) (ks : list B) :
  mapM f l = Return ks ↔ Forall2 (λ x y, f x = Return y) l ks.
Proof.
  revert ks. induction l as [|x l IH]; intros ks; simpl.
  - split; [intros [= <-]; constructor|by inversion 1].
  - split.
    + intros (y & Hy & (k & Hk & [= <-])%bind_Return)%bind_Return.
      constructor; [done|by apply IH].
    + inversion 1 as [|? y ? k Hy Hk]; subst.
      apply IH in Hk. by rewrite Hy, Hk.
Qed.

Lemma mapM_fmap_Return {A B C} (f : B → outcome C) (g : A → B) (h : A → C) (l : list A) :
  (∀ x, f (g x) = Return (h x)) → mapM f (g <$> l) = Return (h <$> l).
Proof.
  intros Hf. apply mapM_Return. induction l; constructor; done.
Qed.

End outcome_facts.

(** ** The microblog fetches *)

Section microblog_facts.
Context `{!Unicode, !Emoji, !Translator, !Twitter, !Reddit, !KeywordSource,
          !FileSystem, !Repr}.

Lemma format_tweet_fields tweet query index d :
  format_tweet tweet query index = Return d →
  get_id d = tweet_id_value tweet ∧ get d "raw_text" = VStr (raw_of tweet).
Proof.
  unfold format_tweet.
  intros (tr & _ & (un & _ & [= <-])%bind_Return)%bind_Return.
  split; reflexivity.
Qed.

Lemma tagged_item tweet query index d :
  format_tweet tweet query index = Return d →
  microblog_item (set_item d "source" (VStr (py "twitter")))
  ∧ origin (set_item d "source" (VStr (py "twitter"))) = tweet_origin tweet.
Proof.
  intros [Hid Hraw]%format_tweet_fields.
  unfold microblog_item, from_twitter, origin, tweet_origin, get_id, get, set_item in *.
  rewrite lookup_insert_eq, !lookup_insert_ne by done.
  rewrite Hid, Hraw. repeat split. unfold tweet_id_value. by destruct (tweet_id tweet).
Qed.

Lemma keep_indexed_inv keyword st tweet st' :
  keep_indexed keyword st tweet = Return st' →
  st' = st
  ∨ ∃ d, st' = (st.1 ++ [d], st.2 + 1) ∧ microblog_item d ∧ origin d = tweet_origin tweet.
Proof.
  unfold keep_indexed. destruct (is_spammy tweet); simpl; [intros [= <-]; by left|].
  destruct (format_tweet tweet keyword st.2) as [d|e|] eqn:Hd; simpl; intros [= <-].
  - right. eexists. split; [done|]. by eapply tagged_item.
  - by left.
Qed.

Lemma keep_tweet_inv query results tweet results' :
  keep_tweet query results tweet = Return results' →
  results' = results
  ∨ ∃ d, results' = results ++ [d] ∧ microblog_item d ∧ origin d = tweet_origin tweet.
Proof.
  unfold keep_tweet. destruct (is_spammy tweet); simpl; [intros [= <-]; by left|].
  destruct (format_tweet tweet query (len results)) as [d|e|] eqn:Hd; simpl; intros [= <-].
  - right. eexists. split; [done|]. by eapply tagged_item.
  - by left.
Qed.

(** A fetch appends items of the stream, in the order of the stream. *)
Lemma fetch_loop_inv keyword limit stream st res :
  fetch_loop keyword limit stream st = Return res →
  ∃ new, res = st.1 ++ new ∧ Forall microblog_item new
         ∧ origin <$> new `sublist_of` tweet_origin <$> stream.
Proof.
  revert st. induction stream as [|tweet rest IH]; intros st; simpl.
  { intros [= <-]. exists []. rewrite app_nil_r. repeat split; constructor. }
  intros (st' & Hkeep & Hres)%bind_Return.
  assert (∃ new, res = st'.1 ++ new ∧ Forall microblog_item new
                 ∧ origin <$> new `sublist_of` tweet_origin <$> rest)
    as (new & -> & Hnew & Hsub).
  { destruct (limit <=? len st'.1); [|by apply IH].
    injection Hres as <-. exists []. rewrite app_nil_r.
    repeat split; [constructor|apply sublist_nil_l]. }
  apply keep_indexed_inv in Hkeep as [->|(d & -> & Hd & Ho)].
  - exists new. repeat split; [done|]. by apply sublist_cons.
  - exists (d :: new). simpl. rewrite <-app_assoc. repeat split.
    + by constructor.
    + rewrite Ho. by apply sublist_skip.
Qed.

Lemma single_pass_inv query max_results stream results res :
  single_pass query max_results stream results = Return res →
  ∃ new, res = results ++ new ∧ Forall microblog_item new
         ∧ origin <$> new `sublist_of` tweet_origin <$> stream.
Proof.
  revert results. induction stream as [|tweet rest IH]; intros results; simpl.
  { intros [= <-]. exists []. rewrite app_nil_r. repeat split; constructor. }
  intros (results' & Hkeep & Hres)%bind_Return.
  assert (∃ new, res = results' ++ new ∧ Forall microblog_item new
                 ∧ origin <$> new `sublist_of` tweet_origin <$> rest)
    as (new & -> & Hnew & Hsub).
  { destruct (max_results <=? len results'); [|by apply IH].
    injection Hres as <-. exists []. rewrite app_nil_r.
    repeat split; [constructor|apply sublist_nil_l]. }
  apply keep_tweet_inv in Hkeep as [->|(d & -> & Hd & Ho)].
  - exists new. repeat split; [done|]. by apply sublist_cons.
  - exists (d :: new). simpl. rewrite <-app_assoc. repeat split.
    + by constructor.
    + rewrite Ho. by apply sublist_skip.
Qed.

End microblog_facts.

(** ** The merge of the fetches *)

Section merge_facts.
Context `{!Unicode, !Emoji, !Translator, !Twitter, !Reddit, !KeywordSource,
          !FileSystem, !Repr}.

Lemma hash_key_plain_inj v w k :
  plain_id v → plain_id w → hash_key v = Return k → hash_key w = Return k → v = w.
Proof.
  destruct v as [| |z|q|s|l|d], w as [| |z'|q'|s'|l'|d']; simpl;
    try done; intros _ _ [= <-] [= E]; try done; try congruence.
  f_equal. apply Qred_eq_iff in E. unfold Qeq in E. simpl in E. lia.
Qed.

Lemma keyed_functional l ks ks' : keyed l ks → keyed l ks' → ks = ks'.
Proof.
  intros Hk. revert ks'. induction Hk as [|d k l ks Hd Hl IH]; intros ks'.
  - by inversion 1.
  - inversion 1 as [|? k' ? ks0 Hd' Hl']; subst. f_equal; [congruence|by apply IH].
Qed.

Lemma keyed_elem l ks d :
  keyed l ks → d ∈ l → ∃ k, hash_key (get_id d) = Return k ∧ k ∈ ks.
Proof.
  induction 1 as [|d' k l ks Hd Hl IH]; intros Hin; [by apply elem_of_nil in Hin|].
  apply elem_of_cons in Hin as [->|Hin].
  - exists k. split; [done|by left].
  - destruct (IH Hin) as (k' & ? & ?). exists k'. split; [done|by right].
Qed.

Lemma keyed_key l ks k :
  keyed l ks → k ∈ ks → ∃ d, d ∈ l ∧ hash_key (get_id d) = Return k.
Proof.
  induction 1 as [|d' k' l ks Hd Hl IH]; intros Hin; [by apply elem_of_nil in Hin|].
  apply elem_of_cons in Hin as [->|Hin].
  - exists d'. split; [by left|done].
  - destruct (IH Hin) as (d & ? & ?). exists d. split; [by right|done].
Qed.

(** Items with distinct keys have distinct ids. *)
Lemma keyed_NoDup l ks : keyed l ks → NoDup ks → NoDup (get_id <$> l).
Proof.
  induction 1 as [|d k l ks Hd Hl IH]; intros Hnd; [constructor|].
  apply NoDup_cons in Hnd as [Hk Hnd]. rewrite fmap_cons. apply NoDup_cons.
  split; [|by apply IH].
  intros (d' & Hid & Hd')%list_elem_of_fmap.
  destruct (keyed_elem _ _ _ Hl Hd') as (k' & Hk' & Hin).
  rewrite <-Hid, Hd in Hk'. by injection Hk' as <-.
Qed.

Lemma ids_of_inv results s ks :
  ids_of results = Return s → keyed results ks → ∀ k, k ∈ s ↔ k ∈ ks.
Proof.
  unfold ids_of. intros (ks0 & Hks0%mapM_Return & [= <-])%bind_Return Hks k.
  rewrite (keyed_functional _ _ _ Hks Hks0). apply elem_of_list_to_set.
Qed.

(** The merge appends some of the fetched items, in their order; the keys
    stay distinct, and the id of every fetched item is among the ids of
    the results. *)
Lemma merge_new_inv fetched results ids res ks :
  merge_new results ids fetched = Return res →
  keyed results ks → NoDup ks → (∀ k, k ∈ ids ↔ k ∈ ks) →
  Forall (λ d, plain_id (get_id d)) results →
  Forall (λ d, plain_id (get_id d)) fetched →
  ∃ new ks', res = results ++ new ∧ new `sublist_of` fetched
    ∧ keyed res ks' ∧ NoDup ks'
    ∧ (∀ d, d ∈ fetched → get_id d ∈ get_id <$> res).
Proof.
  revert results ids ks.
  induction fetched as [|ft rest IH]; intros results ids ks; simpl.
  { intros [= <-] Hks Hnd _ _ _. exists [], ks. rewrite app_nil_r.
    repeat split; try done. intros d Hd. by apply elem_of_nil in Hd. }
  intros (k & Hk & Hres)%bind_Return Hks Hnd Hids Hplain Hfetched.
  apply Forall_cons in Hfetched as [Hft Hrest].
  destruct (decide (k ∈ ids)) as [Hin|Hin].
  - destruct (IH _ _ _ Hres Hks Hnd Hids Hplain Hrest)
      as (new & ks' & -> & Hsub & Hks' & Hnd' & Hall).
    exists new, ks'. split_and!; try done; [by apply sublist_cons|].
    intros d [->|Hd]%elem_of_cons; [|by apply Hall].
    apply Hids in Hin. destruct (keyed_key _ _ _ Hks Hin) as (d & Hd & Hkd).
    rewrite Forall_forall in Hplain.
    rewrite (hash_key_plain_inj _ (get_id d) k Hft (Hplain _ Hd) Hk Hkd).
    apply list_elem_of_fmap_2, elem_of_app. by left.
  - assert (keyed (results ++ [ft]) (ks ++ [k])) as Hks1.
    { apply Forall2_app; [done|]. by repeat constructor. }
    assert (NoDup (ks ++ [k])) as Hnd1.
    { apply NoDup_app. split; [done|]. split; [|apply NoDup_singleton].
      intros k' Hk' Hk''. apply list_elem_of_singleton in Hk'' as ->.
      by apply Hin, Hids. }
    assert (∀ k', k' ∈ {[k]} ∪ ids ↔ k' ∈ ks ++ [k]) as Hids1.
    { intros k'. rewrite elem_of_union, elem_of_singleton, elem_of_app,
        list_elem_of_singleton, Hids. tauto. }
    assert (Forall (λ d, plain_id (get_id d)) (results ++ [ft])) as Hplain1.
    { apply Forall_app. split; [done|by repeat constructor]. }
    destruct (IH _ _ _ Hres Hks1 Hnd1 Hids1 Hplain1 Hrest)
      as (new & ks' & -> & Hsub & Hks' & Hnd' & Hall).
    exists (ft :: new), ks'. split_and!; try done.
    { by rewrite <-app_assoc. }
    { by apply sublist_skip. }
    intros d [->|Hd]%elem_of_cons; [|by apply Hall].
    apply list_elem_of_fmap_2. rewrite !elem_of_app, list_elem_of_singleton. tauto.
Qed.

End merge_facts.

(** ** The collector *)

Section collector_facts.
Context `{!Unicode, !Emoji, !Translator, !Twitter, !Reddit, !KeywordSource,
          !FileSystem, !Repr}.

Lemma sublist_Forall' {A} (P : A → Prop) (l k : list A) :
  l `sublist_of` k → Forall P k → Forall P l.
Proof.
  intros Hsub Hk. apply Forall_forall. intros x Hx.
  rewrite Forall_forall in Hk. by eapply Hk, elem_of_sublist.
Qed.

Lemma fetch_tweets_for_keyword_inv keyword limit fetched :
  fetch_tweets_for_keyword keyword limit = Return fetched →
  Forall microblog_item fetched
  ∧ origin <$> fetched `sublist_of` tweet_origin <$> search keyword (limit * 2).
Proof. by intros (new & -> & ? & ?)%fetch_loop_inv. Qed.

Lemma keyword_loop_inv kws per max_results results res ks :
  keyword_loop per max_results kws results = Return res →
  keyed results ks → NoDup ks → Forall microblog_item results →
  ∃ new ks', res = results ++ new ∧ keyed res ks' ∧ NoDup ks'
    ∧ Forall microblog_item new
    ∧ origin <$> new `sublist_of` tweet_origin <$> (kws ≫= λ kw, search kw (per * 2))
    ∧ (∀ kw rest fetched d,
         kws = kw :: rest → fetch_tweets_for_keyword kw per = Return fetched →
         d ∈ fetched → get_id d ∈ get_id <$> res).
Proof.
  revert results ks. induction kws as [|kw rest IH]; intros results ks;
    cbn [keyword_loop].
  { intros [= <-] Hks Hnd _. exists [], ks. rewrite app_nil_r.
    split_and!; try done; constructor. }
  intros (fetched & Hf & (ids & Hids & (results' & Hm & Hres)%bind_Return)%bind_Return)%bind_Return
    Hks Hnd Hres0.
  pose proof (fetch_tweets_for_keyword_inv _ _ _ Hf) as [Hitems Hsub].
  assert (∀ l, Forall microblog_item l → Forall (λ d, plain_id (get_id d)) l) as Hpl.
  { intros l Hl. eapply Forall_impl; [exact Hl|]. by intros d [_ ?]. }
  destruct (merge_new_inv _ _ _ _ _ Hm Hks Hnd (ids_of_inv _ _ _ Hids Hks)
              (Hpl _ Hres0) (Hpl _ Hitems))
    as (new1 & ks1 & -> & Hsub1 & Hks1 & Hnd1 & Hall).
  assert (Forall microblog_item new1) as Hnew1 by by eapply sublist_Forall'.
  assert (origin <$> new1 `sublist_of` tweet_origin <$> search kw (per * 2)) as Ho1.
  { etrans; [|exact Hsub]. by apply fmap_sublist. }
  destruct (max_results <=? len (results ++ new1)).
  - injection Hres as <-. exists new1, ks1. split_and!; try done.
    + rewrite bind_cons, fmap_app. by apply sublist_inserts_r.
    + intros kw' rest' fetched' d [= <- <-] Hf' Hd.
      rewrite Hf in Hf'. injection Hf' as <-. by apply Hall.
  - destruct (IH _ _ Hres Hks1 Hnd1) as (new2 & ks2 & -> & Hks2 & Hnd2 & Hnew2 & Ho2 & _).
    { apply Forall_app. by split. }
    exists (new1 ++ new2), ks2. rewrite app_assoc. split_and!; try done.
    + by apply Forall_app.
    + rewrite bind_cons, !fmap_app. by apply sublist_app.
    + intros kw' rest' fetched' d [= <- <-] Hf' Hd.
      rewrite Hf in Hf'. injection Hf' as <-.
      rewrite fmap_app. apply elem_of_app. left. by apply Hall.
Qed.

(** What [fetch_tweets] returns: items of the microblog source, in the
    order of the fetches. *)
Lemma fetch_tweets_inv query max_results keywords tweets :
  fetch_tweets query max_results keywords = Return tweets →
  Forall microblog_item tweets
  ∧ origin <$> tweets
      `sublist_of` tweet_origin <$> microblog_stream query max_results keywords.
Proof.
  unfold fetch_tweets, microblog_stream.
  destruct keywords as [[|kw kws]|].
  - by intros (new & -> & ? & ?)%single_pass_inv.
  - intros Hloop.
    destruct (keyword_loop_inv _ _ _ _ _ [] Hloop)
      as (new & ks' & -> & _ & _ & ? & ? & _); [constructor..|done].
  - by intros (new & -> & ? & ?)%single_pass_inv.
Qed.

(** With keywords, the ids of what [fetch_tweets] returns are distinct,
    and every id fetched for the first keyword is among them. *)
Lemma fetch_tweets_distinct query max_results kw kws tweets :
  fetch_tweets query max_results (Some (kw :: kws)) = Return tweets →
  NoDup (get_id <$> tweets)
  ∧ (∀ fetched d,
       fetch_tweets_for_keyword kw (per_kw max_results (kw :: kws)) = Return fetched →
       d ∈ fetched → get_id d ∈ get_id <$> tweets).
Proof.
  unfold fetch_tweets. intros Hloop.
  destruct (keyword_loop_inv _ _ _ _ _ [] Hloop)
    as (new & ks' & -> & Hks & Hnd & _ & _ & Hall); [constructor..|].
  split; [by eapply keyed_NoDup|]. intros fetched d. by apply (Hall kw kws).
Qed.

Lemma setdefault_present (d : dict) k v w : get d k = VStr w → setdefault d k v = d.
Proof.
  unfold get, setdefault. by destruct (d !! py k).
Qed.

Lemma setdefault_source tweets :
  Forall microblog_item tweets →
  (λ t, setdefault t "source" (VStr (py "twitter"))) <$> tweets = tweets.
Proof.
  induction 1 as [|d l [Hd _] Hl IH]; [done|].
  rewrite fmap_cons, IH. f_equal. by eapply setdefault_present.
Qed.

(** The forum part. *)
Lemma comment_bodies (cs : list Comment) :
  mapM comment_body_of (comment_data <$> cs)
  = Return ((λ c, _clean_text (default [] (comment_body c))) <$> cs).
Proof. by apply mapM_fmap_Return. Qed.

Lemma reddit_item_post_data q comment_limit post :
  reddit_item q (post_data comment_limit post)
  = Return (forum_item q comment_limit post).
Proof.
  unfold reddit_item.
  change (get_or (post_data comment_limit post) "comments" (VList []))
    with (VList (comment_data <$> take (Z.to_nat comment_limit) (comments post))).
  cbn [mbind outcome_bind]. rewrite <-fmap_take, comment_bodies.
  reflexivity.
Qed.

Lemma append_items_post_data q comment_limit posts acc :
  append_items q (post_data comment_limit <$> posts) acc
  = acc ++ (forum_item q comment_limit <$> posts).
Proof.
  revert acc. induction posts as [|p posts IH]; intros acc; simpl.
  - by rewrite app_nil_r.
  - rewrite reddit_item_post_data, IH. by rewrite <-app_assoc.
Qed.

Lemma reddit_loop_spec reddit_posts reddit_comments qs :
  reddit_loop reddit_posts reddit_comments qs
  = forum_items reddit_posts reddit_comments qs.
Proof.
  unfold reddit_loop, forum_items.
  assert (∀ acc,
    foldl (λ reddit_results q,
             append_items q (search_reddit_query q reddit_posts reddit_comments)
               reddit_results) acc qs
    = acc ++ (qs ≫= λ q, forum_item q reddit_comments <$> subreddit_search q reddit_posts))
    as Hgen; [|apply Hgen].
  induction qs as [|q qs IH]; intros acc; simpl.
  - by rewrite app_nil_r.
  - rewrite IH. unfold search_reddit_query.
    by rewrite append_items_post_data, <-app_assoc.
Qed.

Lemma forum_items_from_reddit reddit_posts reddit_comments qs :
  Forall from_reddit (forum_items reddit_posts reddit_comments qs).
Proof.
  apply Forall_forall. intros d (q & Hd & _)%list_elem_of_bind.
  by apply list_elem_of_fmap in Hd as (post & -> & _).
Qed.

(** The items of the forum carry no id: the posts hold theirs under the
    key id while [scrape_and_save] reads the key post_id. *)
Lemma forum_items_no_id reddit_posts reddit_comments qs :
  Forall (λ d, get_id d = VNone) (forum_items reddit_posts reddit_comments qs).
Proof.
  apply Forall_forall. intros d (q & Hd & _)%list_elem_of_bind.
  by apply list_elem_of_fmap in Hd as (post & -> & _).
Qed.

Lemma scrape_and_save_inv query max_results reddit_posts reddit_comments use combined :
  scrape_and_save query max_results reddit_posts reddit_comments use = Return combined →
  ∃ keywords tweets,
    (if use then try_except (Some <$> generate_search_terms query 6) (λ e, Return None)
     else Return None) = Return keywords
    ∧ fetch_tweets query max_results keywords = Return tweets
    ∧ combined = tweets
        ++ forum_items reddit_posts reddit_comments (forum_queries query keywords).
Proof.
  unfold scrape_and_save.
  intros (keywords & Hk & (tweets & Ht & (? & _ & [= <-])%bind_Return)%bind_Return)%bind_Return.
  exists keywords, tweets. split_and!; try done.
  rewrite reddit_loop_spec, setdefault_source; [done|].
  by apply fetch_tweets_inv in Ht as [? _].
Qed.

(** C5: the list that a run returns is the microblog items, in the order
    in which the source yielded their tweets, followed by the forum items,
    in the order of the queries and of their posts; the former are tagged
    twitter and the latter reddit. *)
Theorem scrape_and_save_order query max_results reddit_posts reddit_comments use combined :
  scrape_and_save query max_results reddit_posts reddit_comments use = Return combined →
  ∃ keywords tweets,
    fetch_tweets query max_results keywords = Return tweets
    ∧ combined = tweets
        ++ forum_items reddit_posts reddit_comments (forum_queries query keywords)
    ∧ Forall from_twitter tweets
    ∧ origin <$> tweets
        `sublist_of` tweet_origin <$> microblog_stream query max_results keywords
    ∧ Forall from_reddit
        (forum_items reddit_posts reddit_comments (forum_queries query keywords)).
Proof.
  intros (keywords & tweets & _ & Ht & ->)%scrape_and_save_inv.
  exists keywords, tweets. pose proof (fetch_tweets_inv _ _ _ _ Ht) as [Hi Ho].
  split_and!; try done.
  - eapply Forall_impl; [exact Hi|]. by intros d [? _].
  - apply forum_items_from_reddit.
Qed.

(** C1, for the microblog source: in a run with the keywords [kw :: kws]
    the list returned is microblog items followed by forum items, no two
    microblog items share an id, and every id fetched for [kw] is the id
    of one of them. *)
Theorem scrape_and_save_microblog_ids_distinct
    query max_results reddit_posts reddit_comments kw kws combined :
  generate_search_terms query 6 = Return (kw :: kws) →
  scrape_and_save query max_results reddit_posts reddit_comments true = Return combined →
  ∃ tweets forum,
    combined = tweets ++ forum
    ∧ Forall from_twitter tweets ∧ Forall from_reddit forum
    ∧ NoDup (get_id <$> tweets)
    ∧ (∀ fetched d,
         fetch_tweets_for_keyword kw (per_kw max_results (kw :: kws)) = Return fetched →
         d ∈ fetched → get_id d ∈ get_id <$> tweets).
Proof.
  intros Hgen (keywords & tweets & Hk & Ht & ->)%scrape_and_save_inv.
  rewrite Hgen in Hk. injection Hk as <-.
  exists tweets, (forum_items reddit_posts reddit_comments
                    (forum_queries query (Some (kw :: kws)))).
  pose proof (fetch_tweets_inv _ _ _ _ Ht) as [Hi _].
  destruct (fetch_tweets_distinct _ _ _ _ _ Ht) as [Hnd Hall].
  split_and!; try done.
  - eapply Forall_impl; [exact Hi|]. by intros d [? _].
  - apply forum_items_from_reddit.
Qed.

End collector_facts.

Section collector_runs.
#[local] Existing Instance fixtures.ascii_unicode.
#[local] Existing Instance fixtures.plain_emoji.
#[local] Existing Instance fixtures.english_only.
#[local] Existing Instance fixtures.two_keywords.
#[local] Existing Instance fixtures.shared_tweet.
#[local] Existing Instance fixtures.one_submission.
#[local] Existing Instance fixtures.memory_files.
#[local] Existing Instance fixtures.opaque_repr.

Lemma returned_of_projection {A B} (m : outcome (list A)) (f : A → B) (l : list B) :
  f <$> match m with Return x => x | _ => [] end = l → l ≠ [] →
  ∃ c, m = Return c ∧ f <$> c = l.
Proof. destruct m as [c|e|]; simpl; intros <-; by eauto. Qed.

(** The run with the keywords a and b, whose streams share the tweet 2,
    and a forum that answers both with the same submission. *)
Lemma sample_run_ids :
  ∃ combined,
    scrape_and_save (py "q") 10 25 30 true = Return combined
    ∧ get_id <$> combined = [VInt 1; VInt 2; VInt 3; VNone; VNone].
Proof. apply returned_of_projection; [by vm_compute|done]. Qed.

(** C1 as it is worded fails: the two forum items of this run share
    their id. *)
Lemma combined_ids_counterexample :
  ∃ combined,
    scrape_and_save (py "q") 10 25 30 true = Return combined
    ∧ ¬ NoDup (get_id <$> combined).
Proof.
  destruct sample_run_ids as (combined & Hrun & Hids).
  exists combined. split; [done|]. rewrite Hids. intros Hnd.
  do 3 apply NoDup_cons in Hnd as [_ Hnd].
  apply NoDup_cons in Hnd as [Hnd _]. apply Hnd. by left.
Qed.

Lemma scrape_and_save_microblog_ids_distinct_witness :
  ∃ combined tweets forum,
    scrape_and_save (py "q") 10 25 30 true = Return combined
    ∧ combined = tweets ++ forum
    ∧ Forall from_twitter tweets ∧ Forall from_reddit forum
    ∧ NoDup (get_id <$> tweets).
Proof.
  destruct sample_run_ids as (combined & Hrun & _).
  destruct (scrape_and_save_microblog_ids_distinct
              (py "q") 10 25 30 (py "a") [py "b"] combined)
    as (tweets & forum & ? & ? & ? & ? & _); [reflexivity|exact Hrun|].
  exists combined, tweets, forum. split_and!; assumption.
Defined.

Lemma scrape_and_save_order_witness :
  ∃ combined keywords tweets,
    scrape_and_save (py "q") 10 25 30 true = Return combined
    ∧ fetch_tweets (py "q") 10 keywords = Return tweets
    ∧ combined = tweets ++ forum_items 25 30 (forum_queries (py "q") keywords)
    ∧ Forall from_twitter tweets.
Proof.
  destruct sample_run_ids as (combined & Hrun & _).
  destruct (scrape_and_save_order (py "q") 10 25 30 true combined Hrun)
    as (keywords & tweets & ? & ? & ? & _).
  exists combined, keywords, tweets. split_and!; assumption.
Defined.

End collector_runs.


(** ** The worker pool *)

Section executor_facts.
Context {A B : Type} (sched : nat → nat) (max_workers : nat) (fn : A → outcome B).
Hypothesis some_worker : (0 < max_workers)%nat.

(** Whatever the order of completion, a run of the pool leaves the
    result of every pending task in the slot of that task, and touches no
    other slot. *)
Lemma pool_run_slots fuel step queue running slots :
  fuel = (length queue + length running)%nat →
  NoDup ((queue ++ running).*1) →
  (∀ i task, (i, task) ∈ queue ++ running →
     pool_run sched max_workers fn fuel step queue running slots !! i = Some (fn task))
  ∧ (∀ i, i ∉ (queue ++ running).*1 →
     pool_run sched max_workers fn fuel step queue running slots !! i = slots !! i).
Proof.
  revert step queue running slots.
  induction fuel as [|fuel IH]; intros step queue running slots Hfuel Hnd.
  { destruct queue, running; try discriminate. split; [|done].
    intros i task Hin. by apply elem_of_nil in Hin. }
  cbn [pool_run].
  set (room := (max_workers - length running)%nat).
  set (running' := running ++ take room queue).
  set (queue' := drop room queue).
  assert (Hperm : queue ++ running ≡ₚ queue' ++ running').
  { unfold queue', running'.
    rewrite <-(take_drop room queue) at 1.
    rewrite (Permutation_app_comm running), (assoc_L (++)).
    apply Permutation_app_tail, Permutation_app_comm. }
  assert (Hlen : (0 < length running')%nat).
  { unfold running', room. rewrite length_app, length_take.
    destruct queue, running; simpl in *; lia. }
  destruct (lookup_lt_is_Some_2 running' (sched step `mod` length running')%nat)
    as [[i0 task0] Hpick]; [apply Nat.mod_upper_bound; lia|].
  rewrite Hpick.
  set (rest := queue' ++ delete (sched step `mod` length running')%nat running').
  assert (Hrest : queue ++ running ≡ₚ (i0, task0) :: rest).
  { rewrite Hperm. unfold rest.
    rewrite (delete_Permutation _ _ _ Hpick) at 1.
    by rewrite Permutation_middle. }
  assert (Hnd' : NoDup (i0 :: rest.*1)).
  { by rewrite Hrest in Hnd. }
  apply NoDup_cons in Hnd' as [Hfresh Hnd'].
  destruct (IH (S step) queue'
              (delete (sched step `mod` length running')%nat running')
              (<[i0 := fn task0]> slots)) as [Hdone Hkept].
  { apply Permutation_length in Hrest. unfold rest in Hrest.
    cbn [length] in Hrest. rewrite !length_app in Hrest. lia. }
  { exact Hnd'. }
  split.
  - intros i task Hin. rewrite Hrest in Hin.
    apply elem_of_cons in Hin as [[= -> ->] | Hin].
    + rewrite Hkept by exact Hfresh. apply lookup_insert_eq.
    + by apply Hdone.
  - intros i Hi. rewrite Hrest in Hi. cbn [fmap list_fmap fst] in Hi.
    apply not_elem_of_cons in Hi as [Hne Hi].
    rewrite Hkept by exact Hi. by apply lookup_insert_ne.
Qed.

Lemma mapM_seq_lookup (read : nat → outcome B) (tasks : list A) (k : nat) :
  (∀ i task, tasks !! i = Some task → read (k + i)%nat = fn task) →
  mapM read (seq k (length tasks)) = mapM fn tasks.
Proof.
  revert k. induction tasks as [|task tasks IH]; intros k Hread; [done|].
  cbn [length seq mapM].
  rewrite <-(Hread 0%nat task eq_refl), Nat.add_0_r.
  rewrite (IH (S k)); [done|].
  intros i task' Hi. rewrite <-(Hread (S i) task' Hi). f_equal. lia.
Qed.

(** The results of [executor.map] are those of a loop over the tasks, in
    the order of their submission. *)
Lemma executor_map_mapM (tasks : list A) :
  executor_map sched max_workers fn tasks = mapM fn tasks.
Proof.
  unfold executor_map.
  destruct (pool_run_slots (length tasks) 0 (imap pair tasks) [] ∅) as [Hdone _].
  { rewrite length_imap. simpl. lia. }
  { rewrite app_nil_r, fmap_imap.
    rewrite (imap_ext _ (λ i _, i)) by done.
    rewrite imap_seq_0, list_fmap_id. apply NoDup_seq. }
  apply (mapM_seq_lookup _ tasks 0). intros i task Hi.
  rewrite Nat.add_0_l, (Hdone i task); [done|].
  rewrite app_nil_r. by apply (elem_of_lookup_imap_2 pair).
Qed.

End executor_facts.

(** ** The batches *)

Section batch_facts.
Context {A : Type}.
Implicit Types (lst : list A).

Lemma range_len_positive (n step : Z) :
  0 < step → 0 <= n →
  0 <= range_len 0 n step
  ∧ n <= range_len 0 n step * step
  ∧ ∀ k, 0 <= k < range_len 0 n step → k * step < n.
Proof.
  intros Hstep Hn. unfold range_len.
  destruct (Z.ltb_spec 0 step) as [_|?]; [|lia].
  destruct (Z.ltb_spec 0 n) as [Hpos|?]; cbn [andb].
  - rewrite Z.sub_0_r.
    pose proof (Z.mul_div_le (n - 1) step Hstep).
    pose proof (Z.mul_succ_div_gt (n - 1) step Hstep).
    pose proof (Z.div_pos (n - 1) step).
    split_and!; [lia|nia|intros k Hk; nia].
  - destruct (Z.ltb_spec step 0); [lia|]. cbn [andb]. split_and!; [lia|lia|intros k Hk; lia].
Qed.

Lemma py_slice_batch lst (k b : nat) :
  (k * b < length lst)%nat →
  py_slice lst (Z.of_nat (k * b)) (Z.of_nat (k * b) + Z.of_nat b)
  = take b (drop (k * b) lst).
Proof.
  intros Hk. unfold py_slice, slice_index, len.
  destruct (Z.ltb_spec (Z.of_nat (k * b)) 0) as [?|_]; [lia|].
  destruct (Z.ltb_spec (Z.of_nat (k * b) + Z.of_nat b) 0) as [?|_]; [lia|].
  replace (Z.to_nat (Z.of_nat (k * b) `min` Z.of_nat (length lst))) with (k * b)%nat by lia.
  destruct (decide (k * b + b ≤ length lst)%nat) as [Hfull|Hshort].
  - f_equal. lia.
  - rewrite !take_ge; [done| |]; rewrite length_drop; lia.
Qed.

Lemma concat_batches lst (b m : nat) :
  concat ((λ k, take b (drop (k * b) lst)) <$> seq 0 m) = take (m * b) lst.
Proof.
  induction m as [|m IH]; [done|].
  rewrite seq_S, fmap_app, concat_app, IH. cbn [fmap list_fmap concat plus].
  rewrite app_nil_r, take_take_drop. f_equal. lia.
Qed.

(** A positive batch size cuts the list into consecutive batches. *)
Lemma _batchify_positive lst (batch_size : Z) :
  0 < batch_size →
  ∃ batches, _batchify lst batch_size = Return batches ∧ concat batches = lst.
Proof.
  intros Hpos. unfold _batchify, py_range.
  destruct (Z.eqb_spec batch_size 0) as [?|_]; [lia|].
  cbn [mbind outcome_bind]. eexists. split; [reflexivity|].
  destruct (range_len_positive (len lst) batch_size) as (Hm & Hcover & Hin);
    [done|unfold len; lia|].
  set (m := Z.to_nat (range_len 0 (len lst) batch_size)).
  set (b := Z.to_nat batch_size).
  rewrite <-list_fmap_compose.
  rewrite (list_fmap_ext _ (λ k, take b (drop (k * b) lst)) (seq 0 m)).
  - rewrite concat_batches. apply take_ge. unfold len in *. nia.
  - intros i k [Hki Hk]%lookup_seq. cbn [plus] in Hki. subst k. cbn [compose].
    rewrite <-(py_slice_batch lst i b).
    + f_equal; lia.
    + specialize (Hin (Z.of_nat i)). unfold len in *. nia.
Qed.

(** A negative one yields no batch at all, and zero is refused. *)
Lemma _batchify_negative lst (batch_size : Z) :
  batch_size < 0 → _batchify lst batch_size = Return [].
Proof.
  intros Hneg. unfold _batchify, py_range, range_len, len.
  destruct (Z.eqb_spec batch_size 0) as [?|_]; [lia|].
  destruct (Z.ltb_spec 0 batch_size) as [?|_]; [lia|].
  destruct (Z.ltb_spec (Z.of_nat (length lst)) 0) as [?|_]; [lia|].
  by rewrite andb_false_r.
Qed.

Lemma _batchify_zero lst : _batchify lst 0 = Raise (Exception "ValueError").
Proof. reflexivity. Qed.

End batch_facts.

(** ** The classification of the batches *)

Section classification_facts.
Context `{!Unicode, !Repr, !Nlp}.

Lemma NEUTRAL_entry : sentiment_entry NEUTRAL.
Proof. by exists (py "NEUTRAL"), 0%Q. Qed.

Lemma batch_result_entry r : sentiment_entry (batch_result r).
Proof. by eexists _, _. Qed.

Lemma mapM_total {A B} (f : A → outcome B) (P : A → B → Prop) (l : list A) :
  (∀ x, ∃ y, f x = Return y ∧ P x y) →
  ∃ ys, mapM f l = Return ys ∧ Forall2 P l ys.
Proof.
  intros Hf. induction l as [|x l (ys & Hys & HP)]; [by exists []|].
  destruct (Hf x) as (y & Hy & Hxy). exists (y :: ys).
  cbn [mapM]. rewrite Hy, Hys. split; [done|by constructor].
Qed.

(** A batch never raises: it yields the mapped results of the
    classifier, or one neutral entry per text when the classifier
    raises. *)
Lemma process_batch_cases batch :
  match sentiment_pipeline batch with
  | Return res => process_batch batch = Return (batch_result <$> res)
  | Raise _ => process_batch batch = Return (replicate (length batch) NEUTRAL)
  | Blocked => process_batch batch = Blocked
  end.
Proof. unfold process_batch. by destruct (sentiment_pipeline batch). Qed.

Lemma process_batch_total batch :
  sentiment_pipeline batch ≠ Blocked →
  (∀ res, sentiment_pipeline batch = Return res → (length res ≤ length batch)%nat) →
  ∃ sents, process_batch batch = Return sents
    ∧ (length sents ≤ length batch)%nat
    ∧ Forall sentiment_entry sents
    ∧ ((∃ e, sentiment_pipeline batch = Raise e) → Forall (λ s, s = NEUTRAL) sents).
Proof.
  intros Hrun Hbound. pose proof (process_batch_cases batch) as Hcases.
  destruct (sentiment_pipeline batch) as [res|e|]; [| |done].
  - exists (batch_result <$> res). split_and!; [done| | |].
    + rewrite length_fmap. by apply Hbound.
    + apply Forall_fmap, Forall_forall. intros r _. apply batch_result_entry.
    + by intros [e [=]].
  - exists (replicate (length batch) NEUTRAL). split_and!; [done| | |].
    + by rewrite length_replicate.
    + apply Forall_replicate, NEUTRAL_entry.
    + intros _. by apply Forall_replicate.
Qed.

Lemma process_batch_pointwise classify batch :
  pointwise classify →
  process_batch batch = Return ((batch_result ∘ classify) <$> batch).
Proof.
  intros Hpt. unfold process_batch. rewrite Hpt. cbn [mbind outcome_bind try_except].
  by rewrite <-list_fmap_compose.
Qed.

(** The pool changes nothing to a loop over the batches. *)
Lemma classify_batches_in_turn sched texts batch_size max_workers :
  0 < max_workers →
  classify_batches sched texts batch_size max_workers = classify_in_turn texts batch_size.
Proof.
  intros Hw. unfold classify_batches, classify_in_turn.
  destruct (Z.leb_spec max_workers 0) as [?|_]; [lia|].
  destruct (_batchify texts batch_size) as [batches|e|]; [|done|done].
  cbn [mbind outcome_bind]. rewrite executor_map_mapM; [done|lia].
Qed.

Lemma classify_batches_schedule sched sched' texts batch_size max_workers :
  classify_batches sched texts batch_size max_workers
  = classify_batches sched' texts batch_size max_workers.
Proof.
  destruct (Z.leb_spec max_workers 0) as [Hw|Hw].
  - unfold classify_batches. by destruct (Z.leb_spec max_workers 0); [|lia].
  - by rewrite !classify_batches_in_turn.
Qed.

Lemma concat_bounded (batches : list (list pystr)) (results : list (list dict)) :
  Forall2 (λ batch sents,
    (length sents ≤ length batch)%nat
    ∧ Forall sentiment_entry sents
    ∧ ((∃ e, sentiment_pipeline batch = Raise e) → Forall (λ s, s = NEUTRAL) sents))
    batches results →
  (length (concat results) ≤ length (concat batches))%nat
  ∧ Forall sentiment_entry (concat results)
  ∧ ((∀ batch, ∃ e, sentiment_pipeline batch = Raise e) →
     Forall (λ s, s = NEUTRAL) (concat results)).
Proof.
  induction 1 as [|batch sents batches results (Hlen & Hentry & Hraise) _ (IHlen & IHentry & IHraise)].
  { split_and!; [done|constructor|by constructor]. }
  cbn [concat]. rewrite !length_app. split_and!.
  - lia.
  - by apply Forall_app.
  - intros Hall. apply Forall_app. split; [by apply Hraise|by apply IHraise].
Qed.

(** With a classifier that returns, and returns no more results than
    it was given texts, the classification never fails and never
    exceeds the input. *)
Lemma classify_in_turn_total texts batch_size :
  batch_size ≠ 0 →
  (∀ batch, sentiment_pipeline batch ≠ Blocked) →
  (∀ batch res, sentiment_pipeline batch = Return res → (length res ≤ length batch)%nat) →
  ∃ classified, classify_in_turn texts batch_size = Return classified
    ∧ (length classified ≤ length texts)%nat
    ∧ Forall sentiment_entry classified
    ∧ ((∀ batch, ∃ e, sentiment_pipeline batch = Raise e) →
       Forall (λ s, s = NEUTRAL) classified).
Proof.
  intros Hsize Hrun Hbound. unfold classify_in_turn.
  assert (∃ batches, _batchify texts batch_size = Return batches
            ∧ (length (concat batches) ≤ length texts)%nat) as (batches & -> & Hcover).
  { destruct (Z.lt_trichotomy batch_size 0) as [Hneg | [? | Hpos]]; [|done|].
    - exists []. rewrite _batchify_negative by done. split; [done|simpl; lia].
    - destruct (_batchify_positive texts batch_size Hpos) as (batches & ? & Hcat).
      exists batches. by rewrite Hcat. }
  cbn [mbind outcome_bind].
  destruct (mapM_total process_batch
              (λ batch sents,
                 (length sents ≤ length batch)%nat
                 ∧ Forall sentiment_entry sents
                 ∧ ((∃ e, sentiment_pipeline batch = Raise e) → Forall (λ s, s = NEUTRAL) sents))
              batches) as (results & -> & Hres).
  { intros batch. destruct (process_batch_total batch) as (sents & ? & ?); [done|by apply Hbound|].
    by exists sents. }
  apply concat_bounded in Hres as (Hlen & Hentry & Hraise).
  exists (concat results). split_and!; [done|lia|done|done].
Qed.

(** With a classifier that answers text by text, the batches, of
    whatever positive size, give what the texts give one by one. *)
Lemma classify_sequentially_pointwise classify texts :
  pointwise classify →
  classify_sequentially texts = Return ((batch_result ∘ classify) <$> texts).
Proof.
  intros Hpt. unfold classify_sequentially.
  rewrite (proj2 (mapM_Return _ texts ((λ text, [batch_result (classify text)]) <$> texts))).
  - cbn [mbind outcome_bind]. f_equal.
    induction texts as [|text texts IH]; [done|]. cbn [fmap list_fmap concat app]. by f_equal.
  - induction texts as [|text texts IH]; constructor; [|done].
    by rewrite (process_batch_pointwise classify).
Qed.

Lemma classify_in_turn_pointwise classify texts batch_size :
  0 < batch_size → pointwise classify →
  classify_in_turn texts batch_size = Return ((batch_result ∘ classify) <$> texts).
Proof.
  intros Hpos Hpt. unfold classify_in_turn.
  destruct (_batchify_positive texts batch_size Hpos) as (batches & -> & <-).
  cbn [mbind outcome_bind].
  rewrite (proj2 (mapM_Return _ batches ((λ batch : list pystr, (batch_result ∘ classify) <$> batch) <$> batches))).
  - cbn [mbind outcome_bind]. f_equal.
    induction batches as [|batch batches IH]; [done|].
    cbn [fmap list_fmap concat]. rewrite fmap_app. by f_equal.
  - induction batches as [|batch batches IH]; constructor; [|done].
    by apply process_batch_pointwise.
Qed.

End classification_facts.

(** ** The enriched frame *)

Section frame_facts.
Context `{!Unicode, !Repr, !Nlp}.

Lemma length_DataFrame records : length (DataFrame records) = length records.
Proof. unfold DataFrame. by rewrite length_fmap. Qed.

Lemma text_cell_enrich_row row : text_cell (enrich_row row) = text_cell row.
Proof.
  unfold enrich_row, set_item. unfold text_cell at 1.
  rewrite lookup_insert_ne by (by vm_compute).
  rewrite lookup_insert_ne by (by vm_compute).
  by rewrite lookup_insert_eq.
Qed.

Lemma texts_of_enriched records :
  text_cell <$> (enrich_row <$> DataFrame records) = texts_of records.
Proof.
  unfold texts_of. rewrite <-list_fmap_compose.
  apply list_fmap_ext. intros i row _. apply text_cell_enrich_row.
Qed.

Lemma columns_assembled (df sents : list dict) :
  length sents = length df →
  Forall2 carries
    ((λ row, set_item row "readable_output" (VDict (format_output row)))
       <$> zip_with (λ row v, set_item row "sentiment_score" v)
             (zip_with (λ row v, set_item row "sentiment" v) df
                ((λ s, get s "label") <$> sents))
             ((λ s, get s "score") <$> sents))
    sents.
Proof.
  revert sents. induction df as [|row df IH]; intros [|s sents] Hlen; try discriminate.
  { constructor. }
  cbn [fmap list_fmap zip_with]. constructor; [|apply IH; by injection Hlen].
  unfold carries, set_item. split.
  - rewrite lookup_insert_ne by (by vm_compute).
    rewrite lookup_insert_ne by (by vm_compute).
    by rewrite lookup_insert_eq.
  - rewrite lookup_insert_ne by (by vm_compute).
    by rewrite lookup_insert_eq.
Qed.

Lemma carries_columns (out sents : list dict) :
  Forall2 carries out sents →
  sentiment_columns <$> out = label_and_score <$> sents.
Proof.
  induction 1 as [|row s out sents [Hl Hs] _ IH]; [done|].
  cbn [fmap list_fmap]. f_equal; [|exact IH].
  unfold sentiment_columns, label_and_score. unfold get at 1 2. by rewrite Hl, Hs.
Qed.

Lemma carries_populated (out sents : list dict) :
  Forall2 carries out sents → Forall sentiment_entry sents → Forall populated out.
Proof.
  induction 1 as [|row s out sents [Hl Hs] _ IH]; [constructor|].
  intros [(label & score & Hlabel & Hscore) Hrest]%Forall_cons. constructor; [|by apply IH].
  exists label, score. unfold get in Hl, Hs. by rewrite Hl, Hs, Hlabel, Hscore.
Qed.

(** The run on a list of records, once the classification has returned
    no more entries than there are records: the entries, padded with
    neutral ones, are the columns of the rows. *)
Lemma process_dataframe_padded sched records batch_size max_workers classified :
  classify_batches sched (texts_of records) batch_size max_workers = Return classified →
  (length classified ≤ length records)%nat →
  ∃ out,
    process_dataframe sched (Some records) None false batch_size max_workers = Return out
    ∧ Forall2 carries out
        (classified ++ replicate (length records - length classified) NEUTRAL).
Proof.
  intros Hclass Hlen. unfold process_dataframe. cbv zeta.
  cbn [mbind outcome_bind]. rewrite texts_of_enriched, Hclass. cbn [mbind outcome_bind].
  rewrite length_fmap, length_DataFrame.
  set (padded := classified ++ replicate (length records - length classified) NEUTRAL).
  assert (Hpad : (if bool_decide (length classified < length records)%nat
                  then padded else classified) = padded).
  { case_bool_decide; [done|]. unfold padded.
    replace (length records - length classified)%nat with 0%nat by lia.
    by rewrite app_nil_r. }
  rewrite Hpad.
  assert (Hpadded : length padded = length records).
  { unfold padded. rewrite length_app, length_replicate. lia. }
  unfold set_column.
  rewrite bool_decide_eq_true_2
    by (by rewrite !length_fmap, length_DataFrame).
  cbn [mbind outcome_bind].
  rewrite bool_decide_eq_true_2
    by (rewrite length_zip_with, !length_fmap, length_DataFrame; lia).
  cbn [mbind outcome_bind]. eexists. split; [reflexivity|].
  apply columns_assembled. by rewrite length_fmap, length_DataFrame.
Qed.

Lemma process_dataframe_schedule sched sched' raw_tweets pd_path from_file batch_size max_workers :
  process_dataframe sched raw_tweets pd_path from_file batch_size max_workers
  = process_dataframe sched' raw_tweets pd_path from_file batch_size max_workers.
Proof.
  unfold process_dataframe. cbv zeta.
  match goal with |- ?m ≫= _ = _ => destruct m as [df|e|] end; [|done|done].
  cbn [mbind outcome_bind].
  by rewrite (classify_batches_schedule sched sched').
Qed.

End frame_facts.

(** ** The enrichment of a list of records *)

Section enrichment_facts.
Context `{!Unicode, !Repr, !Nlp}.

Lemma all_neutral_columns (sents : list dict) :
  Forall (λ s, s = NEUTRAL) sents →
  label_and_score <$> sents
  = replicate (length sents) (VStr (py "NEUTRAL"), VFloat 0).
Proof.
  induction 1 as [|s sents -> _ IH]; [done|].
  cbn [fmap list_fmap length replicate]. by rewrite IH.
Qed.

(** C2: a run of [process_dataframe] over N records, with a batch size
    other than zero and at least one worker, and a classifier that
    returns no more results than it was given texts, returns N rows, each
    with a label and a score; what the classification lacks is padded
    with NEUTRAL and 0.0 at the tail, and when the classifier raises on
    every batch, every row is NEUTRAL with 0.0. *)
Theorem process_dataframe_count sched records batch_size max_workers :
  batch_size ≠ 0 → 0 < max_workers →
  (∀ batch, sentiment_pipeline batch ≠ Blocked) →
  (∀ batch res, sentiment_pipeline batch = Return res → (length res ≤ length batch)%nat) →
  ∃ out classified,
    process_dataframe sched (Some records) None false batch_size max_workers = Return out
    ∧ classify_batches sched (texts_of records) batch_size max_workers = Return classified
    ∧ length out = length records
    ∧ Forall populated out
    ∧ sentiment_columns <$> out
      = label_and_score
          <$> (classified ++ replicate (length records - length classified) NEUTRAL)
    ∧ ((∀ batch, ∃ e, sentiment_pipeline batch = Raise e) →
       sentiment_columns <$> out
       = replicate (length records) (VStr (py "NEUTRAL"), VFloat 0)).
Proof.
  intros Hsize Hworkers Hrun Hbound.
  destruct (classify_in_turn_total (texts_of records) batch_size Hsize Hrun Hbound)
    as (classified & Hclass & Hlen & Hentry & Hraise).
  rewrite <-(classify_batches_in_turn sched _ _ max_workers Hworkers) in Hclass.
  unfold texts_of in Hlen. rewrite length_fmap, length_DataFrame in Hlen.
  destruct (process_dataframe_padded sched records batch_size max_workers classified
              Hclass Hlen) as (out & Hout & Hcarry).
  set (padded := classified ++ replicate (length records - length classified) NEUTRAL) in *.
  assert (Hpadded : length padded = length records).
  { unfold padded. rewrite length_app, length_replicate. lia. }
  exists out, classified. split_and!.
  - exact Hout.
  - exact Hclass.
  - by rewrite (Forall2_length _ _ _ Hcarry).
  - apply (carries_populated out padded Hcarry).
    apply Forall_app. split; [exact Hentry|apply Forall_replicate, NEUTRAL_entry].
  - by apply carries_columns.
  - intros Hfail. rewrite (carries_columns out padded Hcarry), <-Hpadded.
    apply all_neutral_columns, Forall_app.
    split; [by apply Hraise|by apply Forall_replicate].
Qed.

(** C3, for positive sizes: with a positive batch size and at least one
    worker, the run does not depend on the order in which the batches
    complete; the pool gives what a loop over the batches gives, in the
    order of the input; and, with a classifier that answers text by text,
    what the texts give when classified one after the other, so that the
    sentiment of row i is that of text i. *)
Theorem process_dataframe_input_order sched records batch_size max_workers :
  0 < batch_size → 0 < max_workers →
  (∀ sched',
     process_dataframe sched' (Some records) None false batch_size max_workers
     = process_dataframe sched (Some records) None false batch_size max_workers)
  ∧ classify_batches sched (texts_of records) batch_size max_workers
    = classify_in_turn (texts_of records) batch_size
  ∧ ∀ classify, pointwise classify →
      classify_batches sched (texts_of records) batch_size max_workers
      = classify_sequentially (texts_of records)
      ∧ ∃ out,
          process_dataframe sched (Some records) None false batch_size max_workers
          = Return out
          ∧ sentiment_columns <$> out
            = (label_and_score ∘ batch_result ∘ classify) <$> texts_of records.
Proof.
  intros Hsize Hworkers. split_and!.
  - intros sched'. apply process_dataframe_schedule.
  - by apply classify_batches_in_turn.
  - intros classify Hpt.
    assert (Hclass : classify_batches sched (texts_of records) batch_size max_workers
                     = Return ((batch_result ∘ classify) <$> texts_of records)).
    { rewrite classify_batches_in_turn by done. by apply classify_in_turn_pointwise. }
    split.
    { by rewrite Hclass, (classify_sequentially_pointwise classify). }
    destruct (process_dataframe_padded sched records batch_size max_workers _ Hclass)
      as (out & Hout & Hcarry).
    { unfold texts_of. by rewrite !length_fmap, length_DataFrame. }
    exists out. split; [exact Hout|].
    rewrite (carries_columns _ _ Hcarry).
    replace (length records - _)%nat with 0%nat
      by (unfold texts_of; rewrite !length_fmap, length_DataFrame; lia).
    cbn [replicate]. by rewrite app_nil_r, <-list_fmap_compose.
Qed.

End enrichment_facts.

(** ** Runs of the enrichment *)

Section enrichment_runs.
#[local] Existing Instance fixtures.ascii_unicode.
#[local] Existing Instance fixtures.opaque_repr.
#[local] Existing Instance fixtures.by_length.
Import fixtures.

Lemma by_length_pointwise : pointwise length_result.
Proof. intros batch. reflexivity. Qed.

(** Three batches of one text under three workers, the last batch
    completing first: the columns follow the input. *)
Example three_batches_in_order :
  ∃ out,
    process_dataframe last_first (Some three_posts) None false 1 3 = Return out
    ∧ sentiment_columns <$> out
      = [ (VStr (py "POSITIVE"), VFloat (9 # 10));
          (VStr (py "NEGATIVE"), VFloat 0);
          (VStr (py "NEGATIVE"), VFloat (2 # 5)) ].
Proof. apply returned_of_projection; [by vm_compute|done]. Qed.

Lemma negative_batch_size_run :
  ∃ out,
    process_dataframe last_first (Some three_posts) None false (-1) 3 = Return out
    ∧ sentiment_columns <$> out = replicate 3 (VStr (py "NEUTRAL"), VFloat 0).
Proof. apply returned_of_projection; [by vm_compute|done]. Qed.

Lemma batch_size_counterexample :
  pointwise length_result
  ∧ ∃ out sequential,
      process_dataframe last_first (Some three_posts) None false (-1) 3 = Return out
      ∧ classify_sequentially (texts_of three_posts) = Return sequential
      ∧ sentiment_columns <$> out ≠ label_and_score <$> sequential.
Proof.
  split; [exact by_length_pointwise|].
  destruct negative_batch_size_run as (out & Hrun & Hcolumns).
  exists out, ((batch_result ∘ length_result) <$> texts_of three_posts).
  split_and!; [exact Hrun|exact (classify_sequentially_pointwise _ _ by_length_pointwise)|].
  rewrite Hcolumns. vm_compute. discriminate.
Qed.

Lemma process_dataframe_input_order_witness :
  (∀ sched',
     process_dataframe sched' (Some three_posts) None false 1 3
     = process_dataframe last_first (Some three_posts) None false 1 3)
  ∧ classify_batches last_first (texts_of three_posts) 1 3
    = classify_in_turn (texts_of three_posts) 1
  ∧ ∀ classify, pointwise classify →
      classify_batches last_first (texts_of three_posts) 1 3
      = classify_sequentially (texts_of three_posts)
      ∧ ∃ out,
          process_dataframe last_first (Some three_posts) None false 1 3 = Return out
          ∧ sentiment_columns <$> out
            = (label_and_score ∘ batch_result ∘ classify) <$> texts_of three_posts.
Proof. apply (process_dataframe_input_order last_first three_posts 1 3); lia. Defined.

End enrichment_runs.

Section lossy_runs.
#[local] Existing Instance fixtures.ascii_unicode.
#[local] Existing Instance fixtures.opaque_repr.
#[local] Existing Instance fixtures.lossy.
Import fixtures.

(** Two batches, of which the classifier loses the last result: one
    entry comes back for three texts, and the tail is neutral. *)
Example lost_results_padded :
  ∃ out,
    process_dataframe last_first (Some three_posts) None false 2 3 = Return out
    ∧ sentiment_columns <$> out
      = [ (VStr (py "POSITIVE"), VFloat (9 # 10));
          (VStr (py "NEUTRAL"), VFloat 0);
          (VStr (py "NEUTRAL"), VFloat 0) ].
Proof. apply returned_of_projection; [by vm_compute|done]. Qed.

Lemma process_dataframe_count_witness :
  ∃ out classified,
    process_dataframe last_first (Some three_posts) None false 2 3 = Return out
    ∧ classify_batches last_first (texts_of three_posts) 2 3 = Return classified
    ∧ length out = length three_posts
    ∧ Forall populated out
    ∧ sentiment_columns <$> out
      = label_and_score
          <$> (classified ++ replicate (length three_posts - length classified) NEUTRAL)
    ∧ ((∀ batch, ∃ e, sentiment_pipeline batch = Raise e) →
       sentiment_columns <$> out
       = replicate (length three_posts) (VStr (py "NEUTRAL"), VFloat 0)).
Proof.
  apply (process_dataframe_count last_first three_posts 2 3); [lia|lia| |].
  - intros batch. discriminate.
  - intros batch res [= <-]. rewrite length_fmap, length_take. lia.
Defined.

End lossy_runs.

Section failing_runs.
#[local] Existing Instance fixtures.ascii_unicode.
#[local] Existing Instance fixtures.opaque_repr.
#[local] Existing Instance fixtures.out_of_memory.
Import fixtures.

(** A classifier that raises on every batch: three neutral rows. *)
Example failed_batches_neutral :
  ∃ out,
    process_dataframe last_first (Some three_posts) None false 2 3 = Return out
    ∧ sentiment_columns <$> out = replicate 3 (VStr (py "NEUTRAL"), VFloat 0).
Proof. apply returned_of_projection; [by vm_compute|done]. Qed.

End failing_runs.

(** ** The buckets and the readable records *)

Section bucket_facts.
Context `{!Unicode, !Repr}.

Lemma bucket_keys_dom (buckets : gmap pystr (list pyval)) (key : pystr) :
  dom buckets = list_to_set bucket_keys →
  is_Some (buckets !! key) ↔ key ∈ bucket_keys.
Proof.
  intros Hdom. rewrite <-elem_of_dom, Hdom. apply elem_of_list_to_set.
Qed.

Lemma bucket_of_key row : bucket_of row ∈ bucket_keys.
Proof.
  unfold bucket_of. case_bool_decide; [done|].
  apply list_elem_of_In. simpl. tauto.
Qed.

(** One row goes to the bucket of its key, at the end. *)
Lemma file_row_alter buckets row :
  dom buckets = list_to_set bucket_keys →
  file_row buckets row = alter (λ l, l ++ [row_text row]) (bucket_of row) buckets.
Proof.
  intros Hdom. unfold file_row, bucket_of, row_text. cbv zeta.
  set (sentiment := upper (py_str (get_or row "sentiment" (VStr (py "NEUTRAL"))))).
  pose proof (bucket_keys_dom buckets sentiment Hdom) as Hkey.
  destruct (buckets !! sentiment) as [l|].
  - rewrite bool_decide_eq_true_2; [done|]. apply Hkey. by eexists.
  - rewrite bool_decide_eq_false_2; [done|]. intros Hin. by apply Hkey in Hin as [? ?].
Qed.

Lemma foldl_file_row buckets df :
  dom buckets = list_to_set bucket_keys →
  dom (foldl file_row buckets df) = list_to_set bucket_keys
  ∧ ∀ key,
      foldl file_row buckets df !! key
      = (λ l, l ++ (row_text <$> filter (λ row, bucket_of row = key) df))
          <$> buckets !! key.
Proof.
  revert buckets. induction df as [|row df IH]; intros buckets Hdom.
  { split; [done|]. intros key. cbn [foldl filter list_filter fmap list_fmap].
    destruct (buckets !! key); cbn [fmap option_fmap option_map]; [|done].
    by rewrite app_nil_r. }
  cbn [foldl]. rewrite (file_row_alter buckets row Hdom).
  destruct (IH (alter (λ l, l ++ [row_text row]) (bucket_of row) buckets))
    as [Hdom' Hlookup]; [by rewrite dom_alter_L|].
  split; [exact Hdom'|]. intros key. rewrite Hlookup.
  cbn [filter list_filter].
  destruct (decide (bucket_of row = key)) as [<-|Hne].
  - rewrite lookup_alter_eq.
    destruct (buckets !! bucket_of row); cbn [fmap option_fmap option_map]; [|done].
    by rewrite <-app_assoc.
  - by rewrite lookup_alter_ne.
Qed.

(** C8, as the code files a row: the map has the three keys POSITIVE,
    NEGATIVE and NEUTRAL and no other, and each bucket holds, in the order
    of the rows, the texts of the rows whose label, as a string in upper
    case, is its key, the neutral bucket taking also every row whose
    label in upper case is none of the three. *)
Theorem get_sentiment_buckets_keys df :
  dom (get_sentiment_buckets df) = list_to_set bucket_keys
  ∧ (∀ key, key ∈ bucket_keys →
       get_sentiment_buckets df !! key
       = Some (row_text <$> filter (λ row, bucket_of row = key) df))
  ∧ (∀ row, row ∈ df →
       (upper (py_str (get_or row "sentiment" (VStr (py "NEUTRAL")))) ∉ bucket_keys) →
       ∃ texts, get_sentiment_buckets df !! py "NEUTRAL" = Some texts
                ∧ row_text row ∈ texts).
Proof.
  unfold get_sentiment_buckets.
  set (empty := list_to_map [(py "POSITIVE", []); (py "NEGATIVE", []); (py "NEUTRAL", [])]
         : gmap pystr (list pyval)).
  destruct (foldl_file_row empty df) as [Hdom Hlookup].
  { unfold empty. rewrite dom_list_to_map_L. reflexivity. }
  assert (Hkeys : ∀ key, key ∈ bucket_keys →
            foldl file_row empty df !! key
            = Some (row_text <$> filter (λ row, bucket_of row = key) df)).
  { intros key Hkey. rewrite Hlookup.
    apply list_elem_of_In in Hkey. simpl in Hkey.
    destruct Hkey as [<- | [<- | [<- | []]]]; reflexivity. }
  split_and!; [exact Hdom|exact Hkeys|].
  intros row Hrow Hunknown. eexists. split.
  - apply Hkeys, list_elem_of_In. simpl. tauto.
  - apply list_elem_of_fmap. exists row. split; [done|].
    apply list_elem_of_filter. split; [|done].
    unfold bucket_of. by rewrite bool_decide_eq_false_2.
Qed.

(** The readable record of a row taken alone, as a mapping: it has the
    eight fields username, text, sentiment, score, keywords, entities,
    created_at and url and no other; each is the entry of the row, the
    score that of the column sentiment_score, or, where the row has no
    such entry, the empty string, 0.0 for the score and the empty list for
    the keywords and the entities.  In a frame an entry that a record
    lacks is not missing from its row when another record has it. *)
Lemma format_output_fields (row : dict) :
  dom (format_output row) = list_to_set readable_fields
  ∧ format_output row !! py "username" = Some (default (VStr []) (row !! py "username"))
  ∧ format_output row !! py "text" = Some (default (VStr []) (row !! py "text"))
  ∧ format_output row !! py "sentiment" = Some (default (VStr []) (row !! py "sentiment"))
  ∧ format_output row !! py "score" = Some (default (VFloat 0) (row !! py "sentiment_score"))
  ∧ format_output row !! py "keywords" = Some (default (VList []) (row !! py "keywords"))
  ∧ format_output row !! py "entities" = Some (default (VList []) (row !! py "entities"))
  ∧ format_output row !! py "created_at" = Some (default (VStr []) (row !! py "created_at"))
  ∧ format_output row !! py "url" = Some (default (VStr []) (row !! py "url")).
Proof.
  split_and!; [|reflexivity..].
  unfold format_output. rewrite dom_list_to_map_L. reflexivity.
Qed.

End bucket_facts.

Section bucket_runs.
#[local] Existing Instance fixtures.ascii_unicode.
#[local] Existing Instance fixtures.opaque_repr.

Lemma lowercase_label_counterexample :
  ∃ row : dict,
    get row "sentiment" = VStr (py "positive")
    ∧ (py "positive" ∉ bucket_keys)
    ∧ get_sentiment_buckets [row] !! py "NEUTRAL" = Some []
    ∧ get_sentiment_buckets [row] !! py "POSITIVE" = Some [row_text row].
Proof.
  exists (list_to_map [(py "sentiment", VStr (py "positive")); (py "text", VStr (py "t"))]).
  split_and!; [reflexivity| |vm_compute; reflexivity|vm_compute; reflexivity].
  intros Hin. apply list_elem_of_In in Hin. simpl in Hin.
  destruct Hin as [Heq | [Heq | [Heq | []]]]; discriminate Heq.
Qed.

(** Labels POSITIVE, WEIRD and NEUTRAL: the text of the second row is in
    the neutral bucket, before that of the third. *)
Example weird_label_neutral :
  let buckets :=
    get_sentiment_buckets
      [ list_to_map [(py "sentiment", VStr (py "POSITIVE")); (py "text", VStr (py "one"))];
        list_to_map [(py "sentiment", VStr (py "WEIRD")); (py "text", VStr (py "two"))];
        list_to_map [(py "sentiment", VStr (py "NEUTRAL")); (py "text", VStr (py "three"))] ] in
  buckets !! py "POSITIVE" = Some [VStr (py "one")]
  ∧ buckets !! py "NEGATIVE" = Some []
  ∧ buckets !! py "NEUTRAL" = Some [VStr (py "two"); VStr (py "three")].
Proof. split_and!; vm_compute; reflexivity. Qed.

(** A row taken alone, without a username. *)
Example missing_username_empty :
  format_output (list_to_map [(py "text", VStr (py "hello"))]) !! py "username"
  = Some (VStr []).
Proof. reflexivity. Qed.

End bucket_runs.

(** * Further properties of the code *)

(** ** Cleaned texts and file names *)

Section normal_forms.
Context `{!Unicode, !Emoji, !Translator}.

Lemma spaced_no_double_space s :
  spaced s = true → ¬ occurs_in (py "  ") s.
Proof.
  intros Hs (a & b & ->). induction a as [|c a IH].
  - cbn in Hs. rewrite !andb_true_iff in Hs. destruct Hs as [[Hs|Hs]%orb_true_iff _].
    + by vm_compute in Hs.
    + by rewrite andb_true_iff in Hs; destruct Hs as [_ Hs]; vm_compute in Hs.
  - apply IH. by apply spaced_tail in Hs.
Qed.

(** X1: whatever its argument, [clean_text] returns a text of ASCII
    letters, digits, underscores, spaces and the punctuation .,!?'- only,
    without white space at either end and without two spaces in a row;
    an argument that is not a string gives the empty text. *)
Theorem clean_text_normal_form (text : pyval) :
  Forall (λ c, ascii_alnum c || (c =? chr "_")%N || (c =? chr " ")%N
               || basic_punct c = true) (clean_text text)
  ∧ strip (clean_text text) = clean_text text
  ∧ ¬ occurs_in (py "  ") (clean_text text)
  ∧ ((∀ s, text ≠ VStr s) → clean_text text = []).
Proof.
  split_and!.
  - apply clean_text_alphabet.
  - apply clean_text_stripped.
  - apply spaced_no_double_space, clean_text_spaced.
  - intros Hns. destruct text; try reflexivity. by destruct (Hns s).
Qed.

End normal_forms.

Section short_texts.
Context `{!Unicode, !Emoji, !Translator}.

Lemma re_sub_length m repl k s :
  (length repl ≤ 1)%nat → (length (re_sub m repl k s) ≤ length s)%nat.
Proof.
  intros Hrepl. revert k. induction s as [|c r IH]; intros k; [done|].
  cbn [re_sub]. destruct k as [|k].
  - destruct (m (c :: r)) as [[|n]|].
    + cbn [length]. specialize (IH 0%nat). lia.
    + rewrite length_app. cbn [length]. specialize (IH n). lia.
    + cbn [length]. specialize (IH 0%nat). lia.
  - cbn [length]. specialize (IH k). lia.
Qed.

(** When the emoji library only removes characters, cleaning never
    lengthens a text. *)
Lemma clean_text_length (raw : pystr) :
  (∀ t, (length (replace_emoji t) ≤ length t)%nat) →
  (length (clean_text (VStr raw)) ≤ length raw)%nat.
Proof.
  intros Hemoji. cbn [clean_text].
  etrans; [apply strip_length|].
  etrans; [apply re_sub_length; simpl; lia|].
  etrans; [apply length_filter|].
  etrans; [apply re_sub_length; simpl; lia|].
  etrans; [apply re_sub_length; simpl; lia|].
  etrans; [apply re_sub_length; simpl; lia|].
  etrans; [apply re_sub_length; simpl; lia|].
  apply Hemoji.
Qed.

(** X2: when the emoji library only removes characters, a tweet whose
    raw content has fewer than 15 characters, or has no content at all,
    is spam. *)
Theorem short_tweet_is_spam (tweet : Tweet) :
  (∀ t, (length (replace_emoji t) ≤ length t)%nat) →
  (length (raw_of tweet) < 15)%nat →
  is_spammy tweet = true.
Proof.
  intros Hemoji Hshort. rewrite is_spammy_unfold.
  pose proof (clean_text_length (raw_of tweet) Hemoji) as Hlen.
  pose proof (cleaned_length (VStr (raw_of tweet))) as Hclean.
  assert ((len (strip (lower (clean_text (VStr (raw_of tweet))))) <? 15) = true) as ->;
    [|reflexivity].
  apply Z.ltb_lt. unfold len. lia.
Qed.

End short_texts.

Section short_text_runs.
#[local] Existing Instance fixtures.ascii_unicode.
#[local] Existing Instance fixtures.plain_emoji.
#[local] Existing Instance fixtures.english_only.

Lemma plain_emoji_shortens (t : pystr) : (length (replace_emoji t) ≤ length t)%nat.
Proof.
  cbn [replace_emoji fixtures.plain_emoji]. induction t as [|c t IH]; [done|].
  cbn [List.filter]. destruct (c <? 126976)%N; cbn [length]; lia.
Qed.

Lemma short_tweet_is_spam_witness :
  is_spammy (fixtures.tweet_of 1 "too short") = true.
Proof.
  apply short_tweet_is_spam; [exact plain_emoji_shortens|vm_compute; lia].
Defined.

End short_text_runs.

(** ** File names *)

Section file_names.
Context `{!Unicode}.

Lemma sanitized_chars (name : pystr) :
  Forall (λ c, filename_char c = true)
    ((λ c, if filename_char c then c else chr "_") <$> name).
Proof.
  apply Forall_fmap, Forall_forall. intros c _. cbn [compose].
  destruct (filename_char c) eqn:Hc; [exact Hc|reflexivity].
Qed.

Lemma sanitize_fixed (s : pystr) :
  Forall (λ c, filename_char c = true) s →
  (λ c, if filename_char c then c else chr "_") <$> s = s.
Proof.
  induction 1 as [|c s Hc _ IH]; [done|]. cbn [fmap list_fmap]. by rewrite Hc, IH.
Qed.

(** X3: a sanitised file name holds only ASCII letters, digits,
    underscores, hyphens and spaces, hence no path separator and no dot;
    it has no white space at either end, is no longer than the name, and
    sanitising it again changes nothing. *)
Theorem sanitize_filename_safe (name : pystr) :
  Forall (λ c, filename_char c = true) (sanitize_filename name)
  ∧ (chr "/" ∉ sanitize_filename name)
  ∧ (chr "." ∉ sanitize_filename name)
  ∧ (chr "\" ∉ sanitize_filename name)
  ∧ strip (sanitize_filename name) = sanitize_filename name
  ∧ (length (sanitize_filename name) ≤ length name)%nat
  ∧ sanitize_filename (sanitize_filename name) = sanitize_filename name.
Proof.
  assert (Hchars : Forall (λ c, filename_char c = true) (sanitize_filename name)).
  { apply strip_Forall, sanitized_chars. }
  assert (Hnot : ∀ c, filename_char c = false → c ∉ sanitize_filename name).
  { intros c Hc Hin. rewrite Forall_forall in Hchars. apply Hchars in Hin. congruence. }
  split_and!.
  - exact Hchars.
  - by apply Hnot.
  - by apply Hnot.
  - by apply Hnot.
  - apply strip_idem.
  - unfold sanitize_filename. etrans; [apply strip_length|]. by rewrite length_fmap.
  - unfold sanitize_filename at 1. rewrite (sanitize_fixed _ Hchars). apply strip_idem.
Qed.

End file_names.

(** ** Formatting and fetching tweets *)

Section fetch_facts.
Context `{!Unicode, !Emoji, !Translator, !Twitter, !Reddit, !KeywordSource,
          !FileSystem, !Repr}.

Lemma translate_to_english_cases (text : pystr) :
  translate_to_english text = Blocked ∨ ∃ r, translate_to_english text = Return r.
Proof.
  unfold translate_to_english.
  destruct (bool_decide (text = []) || (len (strip text) <? 3)); [right; by eexists|].
  destruct (detect text) as [lang|e|]; cbn [mbind outcome_bind try_except];
    [|right; by eexists|by left].
  destruct (bool_decide (lang ≠ py "en")); [|right; by eexists].
  destruct (translate text) as [r|e|]; cbn [try_except]; [right|right|left]; by eauto.
Qed.

(** X4: [format_tweet] fails on one kind of tweet only, a tweet without
    the attribute user, and then with AttributeError; when it returns,
    the record counts the tweet from 1, carries the query and the raw
    text, holds the translation of the cleaned text, and has 0 for every
    counter that the tweet lacks. *)
Theorem format_tweet_outcome (tweet : Tweet) (query : pystr) (index : Z) :
  (∀ e, format_tweet tweet query index = Raise e →
     user tweet = Missing ∧ e = Exception "AttributeError")
  ∧ (∀ d, format_tweet tweet query index = Return d →
       user tweet ≠ Missing
       ∧ translate_to_english (clean_text (VStr (raw_of tweet))) = Return
           (match d !! py "text" with Some (VStr t) => t | _ => [] end)
       ∧ (∃ t, d !! py "text" = Some (VStr t))
       ∧ d !! py "tweet_count" = Some (VInt (index + 1))
       ∧ d !! py "query" = Some (VStr query)
       ∧ d !! py "raw_text" = Some (VStr (raw_of tweet))
       ∧ d !! py "likes" = Some (VInt (default 0 (likeCount tweet)))
       ∧ d !! py "retweets" = Some (VInt (default 0 (retweetCount tweet)))
       ∧ d !! py "views" = Some (VInt (default 0 (viewCount tweet)))).
Proof.
  unfold format_tweet. cbv zeta.
  destruct (translate_to_english_cases (clean_text (VStr (raw_of tweet))))
    as [Htr | [r Htr]]; rewrite Htr; cbn [mbind outcome_bind].
  { split; intros ?; discriminate. }
  unfold user_name_strict.
  destruct (user tweet) as [|[u|]]; cbn [mbind outcome_bind].
  - split; [by intros e [= <-]|intros d; discriminate].
  - split; [intros e; discriminate|]. intros d [= <-].
    split_and!; try reflexivity; [discriminate|by eexists].
  - split; [intros e; discriminate|]. intros d [= <-].
    split_and!; try reflexivity; [discriminate|by eexists].
Qed.

Lemma format_tweet_count tweet query index d :
  format_tweet tweet query index = Return d →
  get d "tweet_count" = VInt (index + 1) ∧ get d "query" = VStr query.
Proof.
  unfold format_tweet.
  intros (tr & _ & (un & _ & [= <-])%bind_Return)%bind_Return.
  split; reflexivity.
Qed.

Lemma tagged_count (d : dict) (count query : pyval) :
  get d "tweet_count" = count → get d "query" = query →
  get (set_item d "source" (VStr (py "twitter"))) "tweet_count" = count
  ∧ get (set_item d "source" (VStr (py "twitter"))) "query" = query
  ∧ from_twitter (set_item d "source" (VStr (py "twitter"))).
Proof.
  intros <- <-. unfold from_twitter, get, set_item.
  rewrite lookup_insert_eq, !lookup_insert_ne by done. done.
Qed.

(** One round of the fetch of a keyword never raises: it blocks, leaves
    the state as it is, or appends one numbered item. *)
Lemma keep_indexed_cases keyword st tweet :
  keep_indexed keyword st tweet = Blocked
  ∨ keep_indexed keyword st tweet = Return st
  ∨ ∃ d, keep_indexed keyword st tweet = Return (st.1 ++ [d], st.2 + 1)
       ∧ get d "tweet_count" = VInt (st.2 + 1) ∧ get d "query" = VStr keyword
       ∧ from_twitter d.
Proof.
  unfold keep_indexed. destruct (is_spammy tweet); cbn [try_except]; [by right; left|].
  destruct (format_tweet tweet keyword st.2) as [d|e|] eqn:Hd;
    cbn [mbind outcome_bind try_except]; [|by right; left|by left].
  right; right. eexists. split; [reflexivity|].
  apply format_tweet_count in Hd as [Hc Hq]. by apply tagged_count.
Qed.

Lemma keep_tweet_cases query results tweet :
  keep_tweet query results tweet = Blocked
  ∨ keep_tweet query results tweet = Return results
  ∨ ∃ d, keep_tweet query results tweet = Return (results ++ [d])
       ∧ get d "tweet_count" = VInt (len results + 1) ∧ get d "query" = VStr query
       ∧ from_twitter d.
Proof.
  unfold keep_tweet. destruct (is_spammy tweet); cbn [try_except]; [by right; left|].
  destruct (format_tweet tweet query (len results)) as [d|e|] eqn:Hd;
    cbn [mbind outcome_bind try_except]; [|by right; left|by left].
  right; right. eexists. split; [reflexivity|].
  apply format_tweet_count in Hd as [Hc Hq]. by apply tagged_count.
Qed.

Lemma numbered_snoc (keyword : pystr) (l : list dict) (d : dict) :
  numbered keyword l →
  get d "tweet_count" = VInt (len l + 1) → get d "query" = VStr keyword →
  from_twitter d →
  numbered keyword (l ++ [d]).
Proof.
  intros Hl Hc Hq Hs i d' Hi.
  apply lookup_app_Some in Hi as [Hi | [Hge Hi]]; [by apply Hl|].
  apply list_lookup_singleton_Some in Hi as [Hi <-].
  rewrite Hc. split_and!; [|done|done]. unfold len. do 2 f_equal. lia.
Qed.

Lemma fetch_loop_numbered (keyword : pystr) (limit : Z) (stream : list Tweet) (st : list dict * Z) :
  st.2 = len st.1 → numbered keyword st.1 → len st.1 <= Z.max 1 limit - 1 →
  (∀ e, fetch_loop keyword limit stream st ≠ Raise e)
  ∧ ∀ res, fetch_loop keyword limit stream st = Return res →
      numbered keyword res ∧ len res <= Z.max 1 limit.
Proof.
  revert st. induction stream as [|tweet rest IH]; intros st Hidx Hnum Hlen;
    cbn [fetch_loop].
  { split; [done|]. intros res [= <-]. split; [done|lia]. }
  assert (Hstep : ∀ st', st'.2 = len st'.1 → numbered keyword st'.1 →
            len st'.1 <= Z.max 1 limit →
            (∀ e, (if limit <=? len st'.1 then Return st'.1
                   else fetch_loop keyword limit rest st') ≠ Raise e)
            ∧ ∀ res, (if limit <=? len st'.1 then Return st'.1
                      else fetch_loop keyword limit rest st') = Return res →
                numbered keyword res ∧ len res <= Z.max 1 limit).
  { intros st' Hidx' Hnum' Hlen'. destruct (Z.leb_spec limit (len st'.1)) as [Hfull|Hroom].
    - split; [done|]. by intros res [= <-].
    - apply IH; [done|done|lia]. }
  destruct (keep_indexed_cases keyword st tweet) as [-> | [-> | (d & -> & Hc & Hq & Hs)]];
    cbn [mbind outcome_bind].
  - split; intros ?; discriminate.
  - apply Hstep; [done|done|lia].
  - apply Hstep; cbn [fst snd].
    + unfold len. rewrite length_app. cbn [length]. unfold len in Hidx. lia.
    + apply numbered_snoc; [done| |done|done]. by rewrite <-Hidx.
    + unfold len in *. rewrite length_app. cbn [length]. lia.
Qed.

(** X5: the fetch of a keyword never raises, whatever the tweets of the
    stream: a tweet that cannot be formatted is skipped.  It returns at
    most [limit] items, and one item when the limit is below 1; the
    items are tagged twitter and counted from 1 in the order in which
    they were kept. *)
Theorem fetch_tweets_for_keyword_numbered (keyword : pystr) (limit : Z) :
  (∀ e, fetch_tweets_for_keyword keyword limit ≠ Raise e)
  ∧ ∀ fetched, fetch_tweets_for_keyword keyword limit = Return fetched →
      len fetched <= Z.max 1 limit
      ∧ ∀ (i : nat) d, fetched !! i = Some d →
          get d "tweet_count" = VInt (Z.of_nat i + 1)
          ∧ get d "query" = VStr keyword
          ∧ from_twitter d.
Proof.
  unfold fetch_tweets_for_keyword.
  destruct (fetch_loop_numbered keyword limit (search keyword (limit * 2)) ([], 0))
    as [Hraise Hret]; [done|by intros i d Hi|cbn [fst]; unfold len; cbn [length]; lia|].
  split; [exact Hraise|]. intros fetched Hf. apply Hret in Hf as [Hnum Hlen].
  split; [exact Hlen|exact Hnum].
Qed.

End fetch_facts.

Section fetch_bounds.
Context `{!Unicode, !Emoji, !Translator, !Twitter, !Reddit, !KeywordSource,
          !FileSystem, !Repr}.

Lemma single_pass_bound query max_results stream results :
  len results <= Z.max 1 max_results - 1 →
  (∀ e, single_pass query max_results stream results ≠ Raise e)
  ∧ ∀ res, single_pass query max_results stream results = Return res →
      len res <= Z.max 1 max_results.
Proof.
  revert results. induction stream as [|tweet rest IH]; intros results Hlen;
    cbn [single_pass].
  { split; [done|]. intros res [= <-]. lia. }
  assert (Hstep : ∀ results', len results' <= Z.max 1 max_results →
            (∀ e, (if max_results <=? len results' then Return results'
                   else single_pass query max_results rest results') ≠ Raise e)
            ∧ ∀ res, (if max_results <=? len results' then Return results'
                      else single_pass query max_results rest results') = Return res →
                len res <= Z.max 1 max_results).
  { intros results' Hlen'. destruct (Z.leb_spec max_results (len results')) as [Hfull|Hroom].
    - split; [done|]. by intros res [= <-].
    - apply IH. lia. }
  destruct (keep_tweet_cases query results tweet) as [-> | [-> | (d & -> & _)]];
    cbn [mbind outcome_bind].
  - split; intros ?; discriminate.
  - apply Hstep. lia.
  - apply Hstep. unfold len in *. rewrite length_app. cbn [length]. lia.
Qed.

Lemma hash_key_item (d : dict) : microblog_item d → ∃ k, hash_key (get d "id") = Return k.
Proof.
  intros [_ Hplain]. unfold get_id in Hplain.
  destruct (get d "id"); cbn in *; try done; by eexists.
Qed.

Lemma ids_of_total (results : list dict) :
  Forall microblog_item results → ∃ ids, ids_of results = Return ids.
Proof.
  intros Hres. unfold ids_of.
  assert (∃ ks, mapM (λ r, hash_key (get r "id")) results = Return ks) as [ks ->];
    [|by eexists].
  induction Hres as [|d results Hd _ [ks IH]]; [by exists []|].
  destruct (hash_key_item d Hd) as [k Hk]. exists (k :: ks).
  cbn [mapM]. by rewrite Hk, IH.
Qed.

Lemma merge_new_total (fetched results : list dict) (ids : gset hkey) :
  Forall microblog_item results → Forall microblog_item fetched →
  ∃ res, merge_new results ids fetched = Return res
    ∧ Forall microblog_item res
    ∧ (length res ≤ length results + length fetched)%nat.
Proof.
  intros Hres Hfetched. revert results ids Hres.
  induction Hfetched as [|ft fetched Hft _ IH]; intros results ids Hres; cbn [merge_new].
  { exists results. split_and!; [done|done|lia]. }
  destruct (hash_key_item ft Hft) as [k ->]. cbn [mbind outcome_bind].
  destruct (decide (k ∈ ids)).
  - destruct (IH results ids Hres) as (res & ? & ? & ?).
    exists res. split_and!; [done|done|cbn [length]; lia].
  - destruct (IH (results ++ [ft]) ({[k]} ∪ ids)) as (res & ? & ? & Hlen).
    { apply Forall_app. split; [done|by constructor]. }
    rewrite length_app in Hlen. cbn [length] in *.
    exists res. split_and!; [done|done|lia].
Qed.

Lemma keyword_loop_bound (per max_results : Z) (kws : list pystr) (results : list dict) :
  1 <= per → Forall microblog_item results →
  (∀ e, keyword_loop per max_results kws results ≠ Raise e)
  ∧ ∀ res, keyword_loop per max_results kws results = Return res →
      len res <= len results + len kws * per.
Proof.
  intros Hper. revert results.
  induction kws as [|kw kws IH]; intros results Hres; cbn [keyword_loop].
  { split; [done|]. intros res [= <-]. unfold len. cbn [length]. lia. }
  destruct (fetch_loop_numbered kw per (search kw (per * 2)) ([], 0))
    as [Hraise Hret]; [done|by intros i d Hi|cbn [fst]; unfold len; cbn [length]; lia|].
  fold (fetch_tweets_for_keyword kw per) in Hraise, Hret.
  destruct (fetch_tweets_for_keyword kw per) as [fetched|e|] eqn:Hfetch;
    cbn [mbind outcome_bind]; [|by destruct (Hraise e)|split; intros ?; discriminate].
  destruct (Hret fetched eq_refl) as [_ Hlen].
  apply fetch_tweets_for_keyword_inv in Hfetch as [Hitems _].
  destruct (ids_of_total results Hres) as [ids ->]. cbn [mbind outcome_bind].
  destruct (merge_new_total fetched results ids Hres Hitems) as (res' & -> & Hres' & Hlen').
  cbn [mbind outcome_bind].
  assert (Hbound : len res' <= len results + per).
  { unfold len in *. lia. }
  destruct (Z.leb_spec max_results (len res')) as [Hfull|Hroom].
  - split; [done|]. intros res [= <-]. unfold len in *. cbn [length]. nia.
  - destruct (IH res' Hres') as [Hraise' Hret']. split; [exact Hraise'|].
    intros res Hr. apply Hret' in Hr. unfold len in *. cbn [length]. nia.
Qed.

(** X6: [fetch_tweets] never raises.  It returns at most [max_results]
    items, except that it may return one item when [max_results] is
    below 1 and one item per keyword when there are more keywords than
    [max_results]. *)
Theorem fetch_tweets_bounded (query : pystr) (max_results : Z)
    (keywords : option (list pystr)) :
  (∀ e, fetch_tweets query max_results keywords ≠ Raise e)
  ∧ ∀ tweets, fetch_tweets query max_results keywords = Return tweets →
      len tweets <= Z.max (Z.max 1 (len (default [] keywords))) max_results.
Proof.
  assert (Hsingle :
    (∀ e, single_pass query max_results (search query (max_results * 5)) [] ≠ Raise e)
    ∧ ∀ tweets,
        single_pass query max_results (search query (max_results * 5)) [] = Return tweets →
        len tweets <= Z.max 1 max_results).
  { apply single_pass_bound. unfold len. cbn [length]. lia. }
  destruct Hsingle as [Hraise Hret].
  destruct keywords as [[|kw kws]|]; cbn [fetch_tweets]; simpl (default _ _).
  - split; [exact Hraise|]. intros tweets Ht%Hret. lia.
  - destruct (keyword_loop_bound (per_kw max_results (kw :: kws)) max_results
                (kw :: kws) []) as [Hraise' Hret'];
      [unfold per_kw; lia|constructor|].
    split; [exact Hraise'|]. intros tweets Ht%Hret'.
    unfold per_kw, len in *. cbn [length] in *.
    set (k := Z.of_nat (S (length kws))) in *.
    assert (Hk : 1 <= k) by (unfold k; lia).
    replace (1 `max` k) with k in Ht by lia.
    pose proof (Z.mul_div_le max_results k ltac:(lia)) as Hdiv.
    destruct (Z.max_spec 1 (max_results `div` k)) as [[_ Hmax]|[_ Hmax]];
      rewrite Hmax in Ht; lia.
  - split; [exact Hraise|]. intros tweets Ht%Hret. unfold len in *. cbn [length]. lia.
Qed.

End fetch_bounds.

(** ** One run of the collector *)

Section run_facts.
Context `{!Unicode, !Emoji, !Translator, !Twitter, !Reddit, !KeywordSource,
          !FileSystem, !Repr}.

(** X7: when the generation of the keywords raises, or yields no
    keyword, the run is the run without keywords: one search of the
    microblog and one of the forum, both for the query itself. *)
Theorem scrape_and_save_without_keywords
    (query : pystr) (max_results reddit_posts reddit_comments : Z) :
  (∃ e, generate_search_terms query 6 = Raise e)
  ∨ generate_search_terms query 6 = Return [] →
  scrape_and_save query max_results reddit_posts reddit_comments true
  = scrape_and_save query max_results reddit_posts reddit_comments false.
Proof.
  unfold scrape_and_save. intros [[e ->] | ->]; reflexivity.
Qed.

(** X8: the list that a run returns is the list that it has written,
    as JSON, to the file of the raw data whose name is the sanitised
    query followed by _raw.json. *)
Theorem scrape_and_save_saved
    (query : pystr) (max_results reddit_posts reddit_comments : Z) (use : bool)
    (combined : list dict) :
  scrape_and_save query max_results reddit_posts reddit_comments use = Return combined →
  write_json (py "data/raw/" ++ sanitize_filename query ++ py "_raw.json") combined
  = Return ().
Proof.
  unfold scrape_and_save.
  intros (keywords & _ & (tweets & _ & (u & Hsave & [= <-])%bind_Return)%bind_Return)%bind_Return.
  unfold save_tweets in Hsave. cbv zeta in Hsave. destruct u.
  exact Hsave.
Qed.

(** X9: every forum item of the list that a run returns has the id None
    and the address https://reddit.com/None: the item reads the key
    post_id of a post, and the posts of [search_reddit_query] have their
    id under the key id. *)
Theorem forum_items_without_id
    (query : pystr) (max_results reddit_posts reddit_comments : Z) (use : bool)
    (combined : list dict) :
  scrape_and_save query max_results reddit_posts reddit_comments use = Return combined →
  (∀ post, post ∈ search_reddit_query query reddit_posts reddit_comments →
     post !! py "post_id" = None ∧ is_Some (post !! py "id"))
  ∧ ∀ d, d ∈ combined → from_reddit d →
      get d "id" = VNone
      ∧ get d "url" = VStr (py "https://reddit.com/None")
      ∧ get d "text" = get d "raw_text".
Proof.
  intros (keywords & tweets & _ & Ht & ->)%scrape_and_save_inv. split.
  { intros post (p & -> & _)%list_elem_of_fmap. split; [reflexivity|by eexists]. }
  intros d [Hd | Hd]%elem_of_app Hsource.
  - apply fetch_tweets_inv in Ht as [Hitems _].
    rewrite Forall_forall in Hitems. destruct (Hitems d Hd) as [Htw _].
    unfold from_twitter, from_reddit in *. rewrite Htw in Hsource. discriminate Hsource.
  - unfold forum_items in Hd.
    apply list_elem_of_bind in Hd as (q & (post & -> & _)%list_elem_of_fmap & _).
    split_and!; reflexivity.
Qed.

End run_facts.

Section run_witnesses.
#[local] Existing Instance fixtures.ascii_unicode.
#[local] Existing Instance fixtures.plain_emoji.
#[local] Existing Instance fixtures.english_only.
#[local] Existing Instance fixtures.two_keywords.
#[local] Existing Instance fixtures.shared_tweet.
#[local] Existing Instance fixtures.one_submission.
#[local] Existing Instance fixtures.memory_files.
#[local] Existing Instance fixtures.opaque_repr.

Lemma scrape_and_save_saved_witness :
  ∃ combined,
    scrape_and_save (py "q") 10 25 30 true = Return combined
    ∧ write_json (py "data/raw/" ++ sanitize_filename (py "q") ++ py "_raw.json") combined
      = Return ().
Proof.
  destruct sample_run_ids as (combined & Hrun & _). exists combined.
  split; [exact Hrun|].
  exact (scrape_and_save_saved (py "q") 10 25 30 true combined Hrun).
Defined.

Lemma forum_items_without_id_witness :
  ∃ combined,
    scrape_and_save (py "q") 10 25 30 true = Return combined
    ∧ ∀ d, d ∈ combined → from_reddit d →
        get d "id" = VNone
        ∧ get d "url" = VStr (py "https://reddit.com/None")
        ∧ get d "text" = get d "raw_text".
Proof.
  destruct sample_run_ids as (combined & Hrun & _). exists combined.
  split; [exact Hrun|].
  exact (proj2 (forum_items_without_id (py "q") 10 25 30 true combined Hrun)).
Defined.

End run_witnesses.

Section failed_keywords.
#[local] Existing Instance fixtures.ascii_unicode.
#[local] Existing Instance fixtures.plain_emoji.
#[local] Existing Instance fixtures.english_only.
#[local] Existing Instance fixtures.no_keywords.
#[local] Existing Instance fixtures.shared_tweet.
#[local] Existing Instance fixtures.one_submission.
#[local] Existing Instance fixtures.memory_files.
#[local] Existing Instance fixtures.opaque_repr.

Lemma scrape_and_save_without_keywords_witness :
  scrape_and_save (py "q") 10 25 30 true = scrape_and_save (py "q") 10 25 30 false.
Proof.
  apply scrape_and_save_without_keywords. left. by eexists.
Defined.

End failed_keywords.

(** ** Keywords and batches *)

Section keyword_facts.
Context `{!Unicode, !Repr, !Nlp}.

Lemma unique_spec (seen : gset pystr) (chunks : list pystr) :
  NoDup (unique seen chunks)
  ∧ (∀ k, k ∈ unique seen chunks ↔ k ∈ chunks ∧ k ∉ seen)
  ∧ unique seen chunks `sublist_of` chunks.
Proof.
  revert seen. induction chunks as [|c rest IH]; intros seen; cbn [unique].
  { split_and!; [constructor| |done]. intros k. rewrite elem_of_nil. tauto. }
  destruct (decide (c ∈ seen)) as [Hin|Hout].
  - destruct (IH seen) as (Hnd & Hiff & Hsub). split_and!; [done| |by apply sublist_cons].
    intros k. rewrite Hiff, elem_of_cons. split; [tauto|].
    intros [[-> | Hk] Hseen]; [done|tauto].
  - destruct (IH ({[c]} ∪ seen)) as (Hnd & Hiff & Hsub).
    split_and!; [|intros k|by apply sublist_skip].
    + apply NoDup_cons. split; [|done]. rewrite Hiff, elem_of_union, elem_of_singleton. tauto.
    + rewrite !elem_of_cons, Hiff, elem_of_union, elem_of_singleton.
      destruct (decide (k = c)) as [->|Hne]; tauto.
Qed.

(** The keywords come in the order of their first occurrences: a keyword
    that comes before another occurs in the chunks before any occurrence
    of the other. *)
Lemma unique_order (seen : gset pystr) (chunks : list pystr) :
  in_order_of chunks (unique seen chunks).
Proof.
  unfold in_order_of.
  revert seen. induction chunks as [|c rest IH]; intros seen i j k1 k2; cbn [unique].
  { intros Hi. by rewrite lookup_nil in Hi. }
  assert (Hlater : ∀ seen' i' j', c ∈ seen' →
            unique seen' rest !! i' = Some k1 → unique seen' rest !! j' = Some k2 →
            (i' < j')%nat →
            ∃ a b, c :: rest = a ++ k1 :: b ∧ (k1 ∉ a) ∧ (k2 ∉ a)).
  { intros seen' i' j' Hc Hfst Hsnd Hlt.
    destruct (IH seen' i' j' k1 k2 Hfst Hsnd Hlt) as (a & b & -> & Ha1 & Ha2).
    destruct (unique_spec seen' (a ++ k1 :: b)) as (_ & Hiff & _).
    apply list_elem_of_lookup_2, Hiff in Hfst as [_ Hk1].
    apply list_elem_of_lookup_2, Hiff in Hsnd as [_ Hk2].
    exists (c :: a), b. split_and!; [done| |]; rewrite not_elem_of_cons; split; congruence. }
  destruct (decide (c ∈ seen)) as [Hin|Hout].
  - by apply Hlater.
  - destruct i as [|i]; destruct j as [|j]; try lia.
    + intros [= <-] _ _. exists [], rest. split_and!; [done|apply not_elem_of_nil..].
    + cbn [lookup list_lookup]. intros Hfst Hsnd Hlt.
      apply (Hlater ({[c]} ∪ seen) i j); [|done|done|lia].
      apply elem_of_union_l, elem_of_singleton. done.
Qed.

Lemma first_occurrences_meet (a b a' b' : list pystr) (x y : pystr) :
  a ++ x :: b = a' ++ y :: b' → x ∈ a' ∨ y ∈ a ∨ x = y.
Proof.
  revert a'. induction a as [|c a IH]; intros [|c' a']; cbn [app].
  - intros [= -> _]. by right; right.
  - intros [= -> _]. left. by left.
  - intros [= -> _]. right; left. by left.
  - intros [= -> Heq]. destruct (IH a' Heq) as [Hx | [Hy | Hxy]].
    + left. by right.
    + right; left. by right.
    + by right; right.
Qed.

(** Distinct elements in the order of their first occurrences: there is
    one such list only. *)
Lemma in_order_of_unique (chunks l l' : list pystr) :
  NoDup l → NoDup l' → (∀ k, k ∈ l ↔ k ∈ l') →
  in_order_of chunks l → in_order_of chunks l' → l = l'.
Proof.
  revert l'. induction l as [|x l IH]; intros l' Hnd Hnd' Hsame Hord Hord'.
  { destruct l' as [|y q]; [done|]. exfalso.
    eapply not_elem_of_nil, Hsame. by left. }
  destruct l' as [|y q].
  { exfalso. eapply not_elem_of_nil, Hsame. by left. }
  apply NoDup_cons in Hnd as [Hx Hnd]. apply NoDup_cons in Hnd' as [Hy Hnd'].
  assert (y = x) as ->.
  { destruct (decide (y = x)) as [|Hne]; [done|]. exfalso.
    assert (y ∈ l) as [j Hj]%list_elem_of_lookup_1.
    { assert (y ∈ x :: l) as [?|?]%elem_of_cons by (apply Hsame; by left); done. }
    assert (x ∈ q) as [j' Hj']%list_elem_of_lookup_1.
    { assert (x ∈ y :: q) as [?|?]%elem_of_cons by (apply Hsame; by left); done. }
    destruct (Hord 0%nat (S j) x y eq_refl Hj ltac:(lia)) as (a & b & Ha & Hxa & Hya).
    destruct (Hord' 0%nat (S j') y x eq_refl Hj' ltac:(lia)) as (a' & b' & Ha' & Hya' & Hxa').
    rewrite Ha in Ha'.
    destruct (first_occurrences_meet _ _ _ _ _ _ Ha') as [? | [? | ?]]; done. }
  f_equal. apply IH; [done|done| | |].
  - intros k. specialize (Hsame k). rewrite !elem_of_cons in Hsame.
    split; intros Hk.
    + destruct (proj1 Hsame (or_intror Hk)) as [-> | ?]; done.
    + destruct (proj2 Hsame (or_intror Hk)) as [-> | ?]; done.
  - intros i j k1 k2 Hi Hj Hlt. apply (Hord (S i) (S j)); [done|done|lia].
  - intros i j k1 k2 Hi Hj Hlt. apply (Hord' (S i) (S j)); [done|done|lia].
Qed.

(** X10: the keywords of a text are distinct; they are the noun chunks
    of more than 2 characters, in lower case and stripped, each at the
    place of its first occurrence: a keyword that comes before another
    occurs among the chunks before any occurrence of the other.  No other
    list has these properties.  An empty text has no keyword. *)
Theorem extract_keywords_unique (text : pystr) :
  NoDup (extract_keywords text)
  ∧ (∀ k, k ∈ extract_keywords text ↔
       text ≠ []
       ∧ ∃ chunk, chunk ∈ noun_chunks text ∧ 2 < len (strip chunk)
                  ∧ k = strip (lower chunk))
  ∧ extract_keywords text
      `sublist_of` (λ chunk, strip (lower chunk)) <$> noun_chunks text
  ∧ in_order_of (kept_chunks text) (extract_keywords text)
  ∧ (∀ out, text ≠ [] → NoDup out → (∀ k, k ∈ out ↔ k ∈ kept_chunks text) →
       in_order_of (kept_chunks text) out → out = extract_keywords text)
  ∧ extract_keywords [] = [].
Proof.
  unfold extract_keywords. destruct text as [|c text].
  { split_and!; [constructor| |apply sublist_nil_l| |done|done].
    - intros k. rewrite elem_of_nil. split; [done|]. by intros [? _].
    - intros i j k1 k2 Hi. by rewrite lookup_nil in Hi. }
  cbv zeta. fold (kept_chunks (c :: text)).
  destruct (unique_spec ∅ (kept_chunks (c :: text))) as (Hnd & Hiff & Hsub).
  split_and!; [exact Hnd| | | | |done].
  - intros k. rewrite Hiff. unfold kept_chunks. rewrite list_elem_of_fmap. split.
    + intros [(chunk & -> & [Hlen Hin]%list_elem_of_filter) _].
      split; [done|]. by exists chunk.
    + intros [_ (chunk & Hin & Hlen & ->)]. split; [|apply not_elem_of_empty].
      exists chunk. split; [done|]. by apply list_elem_of_filter.
  - etrans; [exact Hsub|]. apply fmap_sublist, sublist_filter.
  - apply unique_order.
  - intros out _ Hout Hsame Hord.
    apply (in_order_of_unique (kept_chunks (c :: text))); [done|done| |done|apply unique_order].
    intros k. rewrite Hsame, Hiff. split; [|tauto].
    intros Hk. split; [done|apply not_elem_of_empty].
Qed.

End keyword_facts.

Section batch_sizes.
Context {A : Type}.
Implicit Types (lst : list A).

(** The batches of a positive size, by their positions in the list. *)
Lemma _batchify_take_drop lst (batch_size : Z) :
  0 < batch_size →
  _batchify lst batch_size
  = Return ((λ k, take (Z.to_nat batch_size) (drop (k * Z.to_nat batch_size) lst))
              <$> seq 0 (Z.to_nat (range_len 0 (len lst) batch_size))).
Proof.
  intros Hpos. unfold _batchify, py_range.
  destruct (Z.eqb_spec batch_size 0) as [?|_]; [lia|].
  cbn [mbind outcome_bind]. f_equal.
  destruct (range_len_positive (len lst) batch_size) as (Hm & Hcover & Hin);
    [done|unfold len; lia|].
  rewrite <-list_fmap_compose. apply list_fmap_ext.
  intros i k [Hki Hk]%lookup_seq. cbn [plus] in Hki. subst k. cbn [compose].
  rewrite <-(py_slice_batch lst i (Z.to_nat batch_size)).
  - f_equal; lia.
  - specialize (Hin (Z.of_nat i)). unfold len in *. nia.
Qed.

(** X11: a positive batch size cuts a list into consecutive batches
    that put together give the list back; no batch is empty, every batch
    but the last has exactly [batch_size] elements and the last has at
    most as many. *)
Theorem _batchify_sizes lst (batch_size : Z) :
  0 < batch_size →
  ∃ batches,
    _batchify lst batch_size = Return batches
    ∧ concat batches = lst
    ∧ Forall (λ batch, 0 < len batch <= batch_size) batches
    ∧ ∀ (i : nat) batch, batches !! i = Some batch → (S i < length batches)%nat →
        len batch = batch_size.
Proof.
  intros Hpos. rewrite _batchify_take_drop by done.
  destruct (range_len_positive (len lst) batch_size) as (Hm & Hcover & Hin);
    [done|unfold len; lia|].
  set (b := Z.to_nat batch_size) in *.
  set (m := Z.to_nat (range_len 0 (len lst) batch_size)) in *.
  assert (Hstart : ∀ k : nat, (k < m)%nat → (k * b < length lst)%nat).
  { intros k Hk. specialize (Hin (Z.of_nat k)). unfold len in *. nia. }
  eexists. split_and!; [reflexivity| | |].
  - rewrite concat_batches. apply take_ge. unfold len in *. nia.
  - apply Forall_fmap, Forall_forall. intros k [_ Hk]%elem_of_seq. cbn [compose].
    specialize (Hstart k ltac:(lia)).
    unfold len. rewrite length_take, length_drop. lia.
  - intros i batch Hi Hnext. rewrite length_fmap, length_seq in Hnext.
    rewrite list_lookup_fmap in Hi.
    destruct (seq 0 m !! i) as [k|] eqn:Hk; [|discriminate].
    apply lookup_seq in Hk as [-> _]. injection Hi as <-.
    specialize (Hstart (S i) Hnext).
    unfold len. rewrite length_take, length_drop. cbn [plus]. nia.
Qed.

End batch_sizes.

Section batch_runs.

Lemma _batchify_sizes_witness :
  ∃ batches,
    _batchify [1; 2; 3; 4; 5] 2 = Return batches
    ∧ concat batches = [1; 2; 3; 4; 5]
    ∧ Forall (λ batch, 0 < len batch <= 2) batches
    ∧ ∀ (i : nat) batch, batches !! i = Some batch → (S i < length batches)%nat →
        len batch = 2.
Proof. apply (_batchify_sizes [1; 2; 3; 4; 5] 2). lia. Defined.

End batch_runs.

(** ** Edge cases of the enrichment *)

Section enrichment_edges.
Context `{!Unicode, !Repr, !Nlp}.

(** X12: [process_dataframe] raises ValueError when it is given neither
    records nor a file to read, when the number of workers is not
    positive, and when the batch size is 0, whatever the records. *)
Theorem process_dataframe_rejects (sched : nat → nat) (records : list dict)
    (batch_size max_workers : Z) :
  (∀ pd_path,
     process_dataframe sched None pd_path false batch_size max_workers
     = Raise (Exception "ValueError"))
  ∧ (∀ from_file,
       process_dataframe sched None None from_file batch_size max_workers
       = Raise (Exception "ValueError"))
  ∧ process_dataframe sched None (Some []) true batch_size max_workers
    = Raise (Exception "ValueError")
  ∧ (max_workers <= 0 →
     process_dataframe sched (Some records) None false batch_size max_workers
     = Raise (Exception "ValueError"))
  ∧ process_dataframe sched (Some records) None false 0 max_workers
    = Raise (Exception "ValueError").
Proof.
  split_and!.
  - intros pd_path. reflexivity.
  - intros []; reflexivity.
  - reflexivity.
  - intros Hw. unfold process_dataframe, classify_batches. cbv zeta.
    cbn [mbind outcome_bind].
    destruct (Z.leb_spec max_workers 0) as [_|?]; [reflexivity|lia].
  - unfold process_dataframe, classify_batches. cbv zeta. cbn [mbind outcome_bind].
    destruct (max_workers <=? 0); reflexivity.
Qed.

Lemma classify_batches_negative sched texts batch_size max_workers :
  batch_size < 0 → 0 < max_workers →
  classify_batches sched texts batch_size max_workers = Return [].
Proof.
  intros Hneg Hw. unfold classify_batches.
  destruct (Z.leb_spec max_workers 0) as [?|_]; [lia|].
  by rewrite _batchify_negative.
Qed.

(** X13: with a negative batch size and at least one worker, no text is
    classified: the run returns one row per record, every one NEUTRAL
    with the score 0.0, whatever the classifier would have said. *)
Theorem process_dataframe_negative_batch (sched : nat → nat) (records : list dict)
    (batch_size max_workers : Z) :
  batch_size < 0 → 0 < max_workers →
  ∃ out,
    process_dataframe sched (Some records) None false batch_size max_workers = Return out
    ∧ length out = length records
    ∧ sentiment_columns <$> out
      = replicate (length records) (VStr (py "NEUTRAL"), VFloat 0).
Proof.
  intros Hneg Hw.
  destruct (process_dataframe_padded sched records batch_size max_workers [])
    as (out & Hout & Hcarry);
    [by apply classify_batches_negative|cbn [length]; lia|].
  cbn [app length] in Hcarry. rewrite Nat.sub_0_r in Hcarry.
  exists out. split_and!; [exact Hout| |].
  - by rewrite (Forall2_length _ _ _ Hcarry), length_replicate.
  - rewrite (carries_columns _ _ Hcarry). by rewrite fmap_replicate.
Qed.

End enrichment_edges.

Section enrichment_edge_runs.
#[local] Existing Instance fixtures.ascii_unicode.
#[local] Existing Instance fixtures.opaque_repr.
#[local] Existing Instance fixtures.by_length.
Import fixtures.

Lemma process_dataframe_negative_batch_witness :
  ∃ out,
    process_dataframe last_first (Some three_posts) None false (-64) 4 = Return out
    ∧ length out = length three_posts
    ∧ sentiment_columns <$> out
      = replicate (length three_posts) (VStr (py "NEUTRAL"), VFloat 0).
Proof. apply (process_dataframe_negative_batch last_first three_posts (-64) 4); lia. Defined.

End enrichment_edge_runs.

(** ** The rows of the enriched frame *)

Section row_facts.
Context `{!Unicode, !Repr, !Nlp}.

Lemma text_cell_filled (record : dict) (columns : gset pystr) :
  text_cell (record ∪ gset_to_gmap VNaN columns) = text_cell record.
Proof.
  unfold text_cell. destruct (record !! py "text") as [v|] eqn:Hv.
  - by rewrite (lookup_union_Some_l _ _ _ _ Hv).
  - rewrite lookup_union_r by done. rewrite lookup_gset_to_gmap.
    by destruct (guard (py "text" ∈ columns)).
Qed.

Lemma format_output_repeats (row : dict) (text sentiment score keywords : pyval) :
  row !! py "text" = Some text → row !! py "sentiment" = Some sentiment →
  row !! py "sentiment_score" = Some score → row !! py "keywords" = Some keywords →
  format_output row !! py "text" = Some text
  ∧ format_output row !! py "sentiment" = Some sentiment
  ∧ format_output row !! py "score" = Some score
  ∧ format_output row !! py "keywords" = Some keywords.
Proof.
  intros Ht Hs Hc Hk.
  assert (format_output row !! py "text" = Some (default (VStr []) (row !! py "text")))
    as -> by reflexivity.
  assert (format_output row !! py "sentiment"
          = Some (default (VStr []) (row !! py "sentiment"))) as -> by reflexivity.
  assert (format_output row !! py "score"
          = Some (default (VFloat 0) (row !! py "sentiment_score"))) as -> by reflexivity.
  assert (format_output row !! py "keywords"
          = Some (default (VList []) (row !! py "keywords"))) as -> by reflexivity.
  by rewrite Ht, Hs, Hc, Hk.
Qed.

(** One row, from its record, the label and the score. *)
Lemma final_row_enriched (record : dict) (columns : gset pystr) (label score : pyval) :
  let row :=
    set_item
      (set_item (enrich_row (record ∪ gset_to_gmap VNaN columns)) "sentiment" label)
      "sentiment_score" score in
  enriched_from record (set_item row "readable_output" (VDict (format_output row))).
Proof.
  cbv zeta.
  set (row := set_item
      (set_item (enrich_row (record ∪ gset_to_gmap VNaN columns)) "sentiment" label)
      "sentiment_score" score).
  assert (Ht : row !! py "text" = Some (VStr (text_cell record))).
  { unfold row, enrich_row, set_item. rewrite text_cell_filled.
    rewrite !lookup_insert_ne by done. by rewrite lookup_insert_eq. }
  assert (Hk : row !! py "keywords"
               = Some (VList (VStr <$> extract_keywords (text_cell record)))).
  { unfold row, enrich_row, set_item. rewrite text_cell_filled.
    rewrite !lookup_insert_ne by done. by rewrite lookup_insert_eq. }
  assert (Hs : row !! py "sentiment" = Some label).
  { unfold row, set_item. rewrite lookup_insert_ne by done. by rewrite lookup_insert_eq. }
  assert (Hc : row !! py "sentiment_score" = Some score).
  { unfold row, set_item. by rewrite lookup_insert_eq. }
  destruct (format_output_repeats row _ _ _ _ Ht Hs Hc Hk) as (Ft & Fs & Fc & Fk).
  unfold enriched_from, set_item.
  rewrite (lookup_insert_ne _ (py "readable_output") (py "text")) by done.
  rewrite (lookup_insert_ne _ (py "readable_output") (py "keywords")) by done.
  split_and!.
  - intros t Hrec. rewrite Ht. unfold text_cell. by rewrite Hrec.
  - intros Hnone. rewrite Ht. unfold text_cell.
    by destruct Hnone as [-> | [-> | ->]].
  - by exists (text_cell record).
  - exists (format_output row). rewrite lookup_insert_eq.
    rewrite (lookup_insert_ne _ (py "readable_output") (py "sentiment")) by done.
    rewrite (lookup_insert_ne _ (py "readable_output") (py "sentiment_score")) by done.
    rewrite Ft, Fs, Fc, Fk, Hs, Hc. done.
Qed.

Lemma rows_enriched (records sents : list dict) (columns : gset pystr) :
  length sents = length records →
  Forall2 enriched_from records
    ((λ row, set_item row "readable_output" (VDict (format_output row)))
       <$> zip_with (λ row v, set_item row "sentiment_score" v)
             (zip_with (λ row v, set_item row "sentiment" v)
                ((λ r, enrich_row (r ∪ gset_to_gmap VNaN columns)) <$> records)
                ((λ s, get s "label") <$> sents))
             ((λ s, get s "score") <$> sents)).
Proof.
  revert sents. induction records as [|record records IH]; intros [|s sents] Hlen;
    try discriminate.
  { constructor. }
  cbn [fmap list_fmap zip_with]. constructor; [|apply IH; by injection Hlen].
  apply final_row_enriched.
Qed.

Lemma set_column_Return (df : list dict) (column : string) (values : list pyval) df' :
  set_column df column values = Return df' →
  length values = length df
  ∧ df' = zip_with (λ row v, set_item row column v) df values.
Proof.
  unfold set_column. case_bool_decide; [|discriminate]. by intros [= <-].
Qed.

Lemma process_dataframe_inv sched records batch_size max_workers out :
  process_dataframe sched (Some records) None false batch_size max_workers = Return out →
  ∃ sents : list dict,
    length sents = length records
    ∧ out
      = (λ row, set_item row "readable_output" (VDict (format_output row)))
          <$> zip_with (λ row v, set_item row "sentiment_score" v)
                (zip_with (λ row v, set_item row "sentiment" v)
                   (enrich_row <$> DataFrame records)
                   ((λ s, get s "label") <$> sents))
                ((λ s, get s "score") <$> sents).
Proof.
  unfold process_dataframe. cbv zeta. cbn [mbind outcome_bind].
  intros (classified & _ & Hrest)%bind_Return.
  set (sents := if bool_decide (length classified < length (enrich_row <$> DataFrame records))%nat
                then classified
                     ++ replicate (length (enrich_row <$> DataFrame records) - length classified)
                          NEUTRAL
                else classified) in *.
  apply bind_Return in Hrest as (df1 & Hfirst & (df2 & Hsecond & [= <-])%bind_Return).
  apply set_column_Return in Hfirst as [Hlen ->].
  apply set_column_Return in Hsecond as [_ ->].
  exists sents. split; [|reflexivity].
  by rewrite !length_fmap, length_DataFrame in Hlen.
Qed.

(** X14: in the frame that a run returns, row i comes from record i:
    its text is the text of the record when that is a string and the
    empty text when the record has none, its keywords are those of its
    text, and its readable record repeats its text, sentiment, score and
    keywords. *)
Theorem process_dataframe_rows (sched : nat → nat) (records : list dict)
    (batch_size max_workers : Z) (out : list dict) :
  process_dataframe sched (Some records) None false batch_size max_workers = Return out →
  Forall2 enriched_from records out.
Proof.
  intros (sents & Hlen & ->)%process_dataframe_inv.
  unfold DataFrame. rewrite <-list_fmap_compose. by apply rows_enriched.
Qed.

End row_facts.

Section row_runs.
#[local] Existing Instance fixtures.ascii_unicode.
#[local] Existing Instance fixtures.opaque_repr.
#[local] Existing Instance fixtures.by_length.
Import fixtures.

Lemma process_dataframe_rows_witness :
  ∃ out,
    process_dataframe last_first (Some three_posts) None false 1 3 = Return out
    ∧ Forall2 enriched_from three_posts out.
Proof.
  destruct three_batches_in_order as (out & Hrun & _). exists out.
  split; [exact Hrun|].
  exact (process_dataframe_rows last_first three_posts 1 3 out Hrun).
Defined.

End row_runs.

(** ** The buckets as a partition *)

Section bucket_partition.
Context `{!Unicode, !Repr}.

Lemma get_sentiment_buckets_lookup (df : list dict) (key : pystr) :
  key ∈ bucket_keys →
  get_sentiment_buckets df !! key
  = Some (row_text <$> filter (λ row, bucket_of row = key) df).
Proof.
  intros Hkey. unfold get_sentiment_buckets.
  set (empty := list_to_map [(py "POSITIVE", []); (py "NEGATIVE", []); (py "NEUTRAL", [])]
         : gmap pystr (list pyval)).
  destruct (foldl_file_row empty df) as [_ Hlookup].
  { unfold empty. rewrite dom_list_to_map_L. reflexivity. }
  rewrite Hlookup. apply list_elem_of_In in Hkey. simpl in Hkey.
  destruct Hkey as [<- | [<- | [<- | []]]]; reflexivity.
Qed.

Lemma filter_by_bucket (df : list dict) :
  filter (λ row, bucket_of row = py "POSITIVE") df
  ++ filter (λ row, bucket_of row = py "NEGATIVE") df
  ++ filter (λ row, bucket_of row = py "NEUTRAL") df
  ≡ₚ df.
Proof.
  induction df as [|row df IH]; [done|].
  pose proof (bucket_of_key row) as Hkey.
  apply list_elem_of_In in Hkey. simpl in Hkey.
  destruct Hkey as [Hb | [Hb | [Hb | []]]];
    cbn [filter list_filter]; rewrite <-Hb;
    repeat case_decide; try discriminate; try congruence.
  - cbn [app]. by rewrite IH.
  - cbn [app]. symmetry. apply Permutation_cons_app. by symmetry.
  - rewrite (assoc_L (++)). symmetry. apply Permutation_cons_app.
    rewrite <-(assoc_L (++)). by symmetry.
Qed.

(** X15: the three buckets share out the texts of the rows: every row
    gives its text to exactly one bucket, so that the buckets put together
    are the texts of the frame up to their order, and their sizes add up
    to the number of rows. *)
Theorem get_sentiment_buckets_partition (df : list dict) :
  ∃ positive negative neutral,
    get_sentiment_buckets df !! py "POSITIVE" = Some positive
    ∧ get_sentiment_buckets df !! py "NEGATIVE" = Some negative
    ∧ get_sentiment_buckets df !! py "NEUTRAL" = Some neutral
    ∧ positive ++ negative ++ neutral ≡ₚ row_text <$> df
    ∧ (length positive + length negative + length neutral = length df)%nat.
Proof.
  assert (Hperm :
    (row_text <$> filter (λ row, bucket_of row = py "POSITIVE") df)
    ++ (row_text <$> filter (λ row, bucket_of row = py "NEGATIVE") df)
    ++ (row_text <$> filter (λ row, bucket_of row = py "NEUTRAL") df)
    ≡ₚ row_text <$> df).
  { rewrite <-!fmap_app. apply fmap_Permutation, filter_by_bucket. }
  eexists _, _, _. split_and!.
  - apply get_sentiment_buckets_lookup, list_elem_of_In. simpl. tauto.
  - apply get_sentiment_buckets_lookup, list_elem_of_In. simpl. tauto.
  - apply get_sentiment_buckets_lookup, list_elem_of_In. simpl. tauto.
  - exact Hperm.
  - apply Permutation_length in Hperm. rewrite !length_app, !length_fmap in Hperm.
    rewrite !length_fmap. lia.
Qed.

End bucket_partition.

(** ** The texts of the forum *)

Section forum_text_facts.

Lemma wide_sub_cons c r :
  wide_sub (c :: r) =
  if isspace c && head_space r
  then chr " " :: wide_sub (drop_while isspace r)
  else c :: wide_sub r.
Proof.
  cbn [re_sub]. unfold wide_space_match at 1. cbn [take_while].
  destruct (isspace c) eqn:Hc; [|done].
  destruct r as [|d r]; [done|]. cbn [take_while head_space andb].
  destruct (isspace d) eqn:Hd; [|done].
  cbn [length app]. f_equal.
  rewrite re_sub_skip. f_equal.
  change (drop (S (length (take_while isspace r))) (d :: r))
    with (drop (length (take_while isspace r)) r).
  rewrite drop_take_while. cbn [drop_while]. by rewrite Hd.
Qed.

Lemma wide_sub_head s : head_space (wide_sub s) = head_space s.
Proof.
  destruct s as [|c r]; [done|]. rewrite wide_sub_cons.
  destruct (isspace c) eqn:Hc; cbn [andb]; [|by cbn; rewrite Hc].
  destruct (head_space r); cbn [head_space]; [by rewrite Hc|done].
Qed.

Lemma wide_sub_single_aux n s : (length s ≤ n)%nat → single_spaced (wide_sub s) = true.
Proof.
  revert s. induction n as [|n IH]; intros [|c r] Hlen; simpl in Hlen; try done; try lia.
  rewrite wide_sub_cons. destruct (isspace c && head_space r) eqn:Hwide.
  - cbn [single_spaced]. rewrite wide_sub_head, head_space_drop_while, andb_false_r.
    cbn [negb andb]. apply IH. pose proof (drop_while_length isspace r). lia.
  - cbn [single_spaced]. rewrite wide_sub_head, Hwide. cbn [negb andb]. apply IH. lia.
Qed.

Lemma wide_sub_single s : single_spaced (wide_sub s) = true.
Proof. by apply (wide_sub_single_aux (length s)). Qed.

Lemma single_spaced_tail c r : single_spaced (c :: r) = true → single_spaced r = true.
Proof. cbn [single_spaced]. rewrite andb_true_iff. tauto. Qed.

Lemma single_spaced_drop_while s :
  single_spaced s = true → single_spaced (drop_while isspace s) = true.
Proof.
  induction s as [|c r IH]; [done|]. intros Hs. simpl.
  destruct (isspace c); [|done]. eauto using single_spaced_tail.
Qed.

Lemma single_spaced_rstrip s : single_spaced s = true → single_spaced (rstrip s) = true.
Proof.
  induction s as [|c r IH]; [done|]. intros Hs.
  pose proof Hs as Hs'. cbn [single_spaced] in Hs'. apply andb_true_iff in Hs' as [Hc Hr].
  cbn [rstrip]. destruct (rstrip r) as [|d r'] eqn:E.
  - destruct (isspace c) eqn:Hsp; [done|]. cbn [single_spaced head_space].
    by rewrite andb_false_r.
  - cbn [single_spaced]. apply andb_true_iff. split; [|by apply IH].
    destruct (rstrip_head_inv _ _ _ E) as [r0 ->]. done.
Qed.

Lemma single_spaced_pairs s a b :
  single_spaced s = true → isspace a = true → isspace b = true →
  ¬ occurs_in [a; b] s.
Proof.
  intros Hs Ha Hb (pre & post & ->). induction pre as [|c pre IH].
  - cbn in Hs. by rewrite Ha, Hb in Hs.
  - apply IH. by apply single_spaced_tail in Hs.
Qed.

(** X16: a text cleaned for the forum holds no newline and no two
    white-space characters in a row, and has no white space at either
    end; the empty text stays empty. *)
Theorem _clean_text_layout (text : pystr) :
  (10%N ∉ _clean_text text)
  ∧ (∀ a b, isspace a = true → isspace b = true → ¬ occurs_in [a; b] (_clean_text text))
  ∧ strip (_clean_text text) = _clean_text text
  ∧ _clean_text [] = [].
Proof.
  split_and!; [| | |reflexivity].
  - destruct text as [|c text]; [apply not_elem_of_nil|]. cbn [_clean_text].
    assert (Forall (λ c, (c =? 10)%N = false)
              (strip (wide_sub
                (re_sub (match_lit_run [] (λ c, (c =? 10)%N)) (py " ") 0
                   (re_sub markdown_link_match [] 0
                      (re_sub link_match [] 0 (c :: text))))))) as Hall.
    { apply strip_Forall, re_sub_Forall; [by repeat constructor|].
      apply re_sub_run_excludes. by repeat constructor. }
    intros Hin. rewrite Forall_forall in Hall. by apply Hall in Hin.
  - intros a b Ha Hb. apply single_spaced_pairs; [|done|done].
    destruct text as [|c text]; [done|]. cbn [_clean_text].
    apply single_spaced_rstrip, single_spaced_drop_while.
    apply wide_sub_single.
  - destruct text as [|c text]; [done|]. cbn [_clean_text]. apply strip_idem.
Qed.

End forum_text_facts.

(** ** The keywords made without a language model *)

Section keyword_heuristic_facts.
Context `{!Unicode}.

Lemma re_split_pieces (in_run : bool) (cur s p : pystr) :
  Forall (λ c, separator c = false) cur →
  p ∈ re_split in_run cur s →
  Forall (λ c, separator c = false) p ∧ occurs_in p (reverse cur ++ s).
Proof.
  revert in_run cur. induction s as [|c r IH]; intros in_run cur Hcur; cbn [re_split].
  { intros ->%list_elem_of_singleton. split; [by apply Forall_reverse|].
    exists [], []. by rewrite !app_nil_r. }
  assert (Hrun : p ∈ re_split true [] r →
            Forall (λ c, separator c = false) p ∧ occurs_in p (reverse cur ++ c :: r)).
  { intros Hp. destruct (IH true [] (Forall_nil_2 _) Hp) as [Hsep (a & b & Hr)].
    split; [done|]. exists (reverse cur ++ c :: a), b.
    cbn [reverse rev_append app] in Hr. rewrite Hr. by rewrite <-app_assoc. }
  destruct (separator c) eqn:Hc.
  - destruct in_run; [exact Hrun|].
    intros [-> | Hp]%elem_of_cons; [|by apply Hrun].
    split; [by apply Forall_reverse|]. by exists [], (c :: r).
  - intros Hp. destruct (IH false (c :: cur)) with (1 := Forall_cons_2 _ _ _ Hc Hcur) (2 := Hp)
      as [Hsep Hocc].
    split; [done|]. by rewrite reverse_cons, <-app_assoc in Hocc.
Qed.

Lemma strip_no_space (p : pystr) :
  Forall (λ c, isspace c = false) p → strip p = p.
Proof.
  intros Hp. unfold strip, lstrip.
  assert (drop_while isspace p = p) as ->.
  { destruct Hp as [|c p Hc _]; [done|]. cbn [drop_while]. by rewrite Hc. }
  induction Hp as [|c p Hc _ IH]; [done|]. cbn [rstrip]. rewrite IH, Hc. by destruct p.
Qed.

Lemma separator_space c : separator c = false → isspace c = false.
Proof. unfold separator. by destruct (isspace c). Qed.

(** The tokens of a query: its pieces of more than 2 characters. *)
Lemma tokens_of_query (query t : pystr) :
  t ∈ strip <$> filter (λ t, 2 < len (strip t)) (re_split false [] query) →
  2 < len t ∧ Forall (λ c, separator c = false) t ∧ occurs_in t query.
Proof.
  intros (p & -> & [Hlen Hp]%list_elem_of_filter)%list_elem_of_fmap.
  destruct (re_split_pieces false [] query p (Forall_nil_2 _) Hp) as [Hsep Hocc].
  assert (strip p = p) as Hstrip.
  { apply strip_no_space. eapply Forall_impl; [exact Hsep|]. apply separator_space. }
  rewrite Hstrip in *. done.
Qed.

Lemma keyword_forms_spec (query : pystr) (max_keywords : Z) (tokens kws : list pystr) :
  kws `prefix_of` keyword_forms query max_keywords tokens kws
  ∧ ∀ k, k ∈ keyword_forms query max_keywords tokens kws →
      k ∈ kws ∨ ∃ t, t ∈ tokens ∧ (k = t ∨ k = chr "#" :: t).
Proof.
  revert kws. induction tokens as [|t rest IH]; intros kws; cbn [keyword_forms].
  { split; [done|]. by left. }
  assert (Hpass : ∀ kws',
            (∀ k, k ∈ kws' → k ∈ kws ∨ ∃ t0, t0 ∈ t :: rest ∧ (k = t0 ∨ k = chr "#" :: t0)) →
            kws `prefix_of` kws' →
            kws `prefix_of` keyword_forms query max_keywords rest kws'
            ∧ ∀ k, k ∈ keyword_forms query max_keywords rest kws' →
                k ∈ kws ∨ ∃ t0, t0 ∈ t :: rest ∧ (k = t0 ∨ k = chr "#" :: t0)).
  { intros kws' Hin Hpre. destruct (IH kws') as [Hpre' Hin']. split; [by etrans|].
    intros k [Hk | (t0 & Ht0 & Hk)]%Hin'; [by apply Hin|].
    right. exists t0. split; [by right|done]. }
  assert (Hadded : ∀ k, k ∈ kws ++ [t; chr "#" :: t] →
            k ∈ kws ∨ ∃ t0, t0 ∈ t :: rest ∧ (k = t0 ∨ k = chr "#" :: t0)).
  { intros k [Hk | Hk]%elem_of_app; [by left|]. right. exists t. split; [by left|].
    apply elem_of_cons in Hk as [-> | ->%list_elem_of_singleton]; by eauto. }
  destruct (negb (contains (lower query) (lower t))).
  - apply Hpass; [by left|done].
  - cbv zeta. destruct (max_keywords <=? len (kws ++ [t; chr "#" :: t])).
    + split; [by apply prefix_app_r|exact Hadded].
    + apply Hpass; [exact Hadded|by apply prefix_app_r].
Qed.

Lemma dedupe_spec (out kws : list pystr) :
  NoDup out →
  NoDup (dedupe out kws)
  ∧ out `prefix_of` dedupe out kws
  ∧ ∀ k, k ∈ dedupe out kws → k ∈ out ∨ k ∈ kws.
Proof.
  revert out. induction kws as [|k0 rest IH]; intros out Hnd; cbn [dedupe].
  { split_and!; [done|done|by left]. }
  destruct (decide (k0 ∈ out)) as [Hin|Hout].
  - destruct (IH out Hnd) as (Hnd' & Hpre & Helem). split_and!; [done|done|].
    intros k [Hk | Hk]%Helem; [by left|right; by right].
  - destruct (IH (out ++ [k0])) as (Hnd' & Hpre & Helem).
    { apply NoDup_app. split_and!; [done| |apply NoDup_singleton].
      intros x Hx ->%list_elem_of_singleton. done. }
    split_and!; [done|etrans; [by apply prefix_app_r|exact Hpre]|].
    intros k [[Hk | ->%list_elem_of_singleton]%elem_of_app | Hk]%Helem;
      [by left|right; by left|right; by right].
Qed.

Lemma py_slice_from_start {A} (lst : list A) (n : Z) :
  py_slice lst 0 n = take (slice_index lst n) lst
  ∧ (0 <= n → Z.of_nat (slice_index lst n) <= n)
  ∧ (1 <= n → lst ≠ [] → (0 < slice_index lst n)%nat).
Proof.
  unfold py_slice. assert (slice_index lst 0 = 0%nat) as ->.
  { unfold slice_index, len. cbn. lia. }
  rewrite Nat.sub_0_r. cbn [drop]. split_and!; [done| |].
  - intros Hn. unfold slice_index, len. destruct (Z.ltb_spec n 0); lia.
  - intros Hn Hne. unfold slice_index, len. destruct (Z.ltb_spec n 0); [lia|].
    destruct lst; [done|]. cbn [length]. lia.
Qed.

(** X17: the keywords made from a query without a language model are
    distinct; asked for a number of keywords that is not negative, the
    function returns no more than that number; asked for at least one, it
    returns the query first; and every other keyword is a token of the
    query, or a token after a hash sign, where a token is a part of the
    query of more than 2 characters without white space, comma, full stop
    or slash. *)
Theorem _simple_keyword_generation_spec (query : pystr) (max_keywords : Z) :
  NoDup (_simple_keyword_generation query max_keywords)
  ∧ (0 <= max_keywords → len (_simple_keyword_generation query max_keywords) <= max_keywords)
  ∧ (1 <= max_keywords → head (_simple_keyword_generation query max_keywords) = Some query)
  ∧ ∀ k, k ∈ _simple_keyword_generation query max_keywords →
      k = query
      ∨ ∃ t, (k = t ∨ k = chr "#" :: t)
             ∧ 2 < len t
             ∧ Forall (λ c, separator c = false) t
             ∧ occurs_in t query.
Proof.
  unfold _simple_keyword_generation. cbv zeta.
  set (tokens := strip <$> filter (λ t, 2 < len (strip t)) (re_split false [] query)).
  set (kws := keyword_forms query max_keywords tokens [query]).
  destruct (keyword_forms_spec query max_keywords tokens [query]) as [[more Hkws] Hforms].
  fold kws in Hkws, Hforms.
  destruct (dedupe_spec [] kws (NoDup_nil_2)) as (Hnd & _ & Helem).
  assert (Hhead : ∃ rest, dedupe [] kws = query :: rest).
  { rewrite Hkws. cbn [app dedupe]. rewrite decide_False by apply not_elem_of_nil.
    destruct (dedupe_spec [query] more) as (_ & [rest Hrest] & _);
      [apply NoDup_singleton|]. exists rest. exact Hrest. }
  destruct (py_slice_from_start (dedupe [] kws) max_keywords) as (-> & Hbound & Hpos).
  split_and!.
  - eapply sublist_NoDup; [exact Hnd|apply sublist_take].
  - intros Hm. unfold len. rewrite length_take. specialize (Hbound Hm). lia.
  - intros Hm. destruct Hhead as [rest Hrest]. rewrite Hrest in *.
    specialize (Hpos Hm ltac:(done)).
    destruct (slice_index (query :: rest) max_keywords); [lia|done].
  - intros k Hk. apply (subseteq_take _ _ k), Helem in Hk.
    destruct Hk as [Hk | Hk]; [by apply elem_of_nil in Hk|].
    apply Hforms in Hk as [->%list_elem_of_singleton | (t & Ht & Hk)]; [by left|].
    right. exists t. split; [done|]. by apply tokens_of_query.
Qed.

End keyword_heuristic_facts.

(** ** The labels of the classifier *)

Section label_facts.
Context `{!Unicode, !Repr, !Nlp}.

Lemma upper_ascii_text s :
  Forall (λ c, is_ascii c = true) s → upper s = upper_ascii <$> s.
Proof.
  induction 1 as [|c r Hc Hr IH]; [done|].
  unfold upper in *. cbn [mbind list_bind fmap list_fmap app].
  unfold upper_char at 1. rewrite Hc. cbn [app]. by rewrite IH.
Qed.

Lemma upper_lower_ascii c : upper_ascii (lower_ascii c) = upper_ascii c.
Proof.
  unfold lower_ascii. destruct (ascii_upper c) eqn:Hu; [|done].
  unfold ascii_upper, between in Hu.
  apply andb_true_iff in Hu as [Hlo Hhi]. apply N.leb_le in Hlo, Hhi.
  unfold upper_ascii, ascii_lower, between.
  destruct (N.leb_spec 97 (c + 32)); [|lia].
  destruct (N.leb_spec (c + 32) 122); [|lia].
  destruct (N.leb_spec 97 c); [lia|]. cbn [andb]. lia.
Qed.

(** For a text of ASCII characters, the upper case of the lower case is
    the upper case. *)
Lemma upper_of_lower s :
  Forall (λ c, is_ascii c = true) s → upper s = upper_ascii <$> lower s.
Proof.
  intros Hs. rewrite (upper_ascii_text s Hs), (lower_ascii_text s Hs).
  rewrite <-list_fmap_compose. apply list_fmap_ext. intros i c _. cbn [compose].
  by rewrite upper_lower_ascii.
Qed.

Lemma label_key (label mapped : pystr) :
  LABEL_MAP_CARDIFF !! label = Some mapped →
  label ∈ [py "LABEL_0"; py "LABEL_1"; py "LABEL_2"] ∧ mapped ∈ bucket_keys.
Proof.
  intros Hl. apply elem_of_list_to_map_2 in Hl.
  apply list_elem_of_In in Hl. simpl in Hl.
  destruct Hl as [[= <- <-] | [[= <- <-] | [[= <- <-] | []]]];
    split; apply list_elem_of_In; simpl; tauto.
Qed.

Lemma mapped_label_key (key : pystr) : key ∈ bucket_keys → mapped_label key = key.
Proof.
  intros Hk. apply list_elem_of_In in Hk. simpl in Hk.
  destruct Hk as [<- | [<- | [<- | []]]]; reflexivity.
Qed.

(** X18: on a label of ASCII characters, the normalisation of labels is
    idempotent, and it gives one of POSITIVE, NEGATIVE and NEUTRAL exactly
    for LABEL_0, LABEL_1 and LABEL_2 and for the three names in any
    letter case; every other label is left as it is. *)
Theorem mapped_label_canonical (label : pystr) :
  Forall (λ c, is_ascii c = true) label →
  mapped_label (mapped_label label) = mapped_label label
  ∧ (mapped_label label ∈ bucket_keys ↔
       label ∈ [py "LABEL_0"; py "LABEL_1"; py "LABEL_2"] ∨ upper label ∈ bucket_keys)
  ∧ (mapped_label label ∉ bucket_keys → mapped_label label = label).
Proof.
  intros Hascii. unfold mapped_label at 2 3 4 5 6.
  destruct (LABEL_MAP_CARDIFF !! label) as [mapped|] eqn:Hmap.
  { destruct (label_key label mapped Hmap) as [Hl Hm].
    split_and!; [by apply mapped_label_key|split; [by left|done]|done]. }
  fold bucket_keys. case_bool_decide as Hup.
  { split_and!; [by apply mapped_label_key|split; [by right|done]|done]. }
  assert (Hlow : lower label ∉ [py "positive"; py "negative"; py "neutral"]).
  { intros Hlow. apply Hup. rewrite (upper_of_lower label Hascii).
    apply list_elem_of_In in Hlow. simpl in Hlow.
    destruct Hlow as [<- | [<- | [<- | []]]]; apply list_elem_of_In; simpl; tauto. }
  rewrite bool_decide_eq_false_2 by exact Hlow.
  split_and!; [|split|done].
  - unfold mapped_label. rewrite Hmap. fold bucket_keys.
    rewrite bool_decide_eq_false_2 by exact Hup.
    by rewrite bool_decide_eq_false_2 by exact Hlow.
  - intros Hin. right. apply list_elem_of_In in Hin. simpl in Hin.
    destruct Hin as [<- | [<- | [<- | []]]]; apply list_elem_of_In; vm_compute; tauto.
  - intros [Hl | Hu]; [|done]. exfalso.
    apply list_elem_of_In in Hl. simpl in Hl.
    destruct Hl as [<- | [<- | [<- | []]]]; discriminate Hmap.
Qed.

End label_facts.

Section label_runs.
#[local] Existing Instance fixtures.ascii_unicode.

Lemma mapped_label_canonical_witness :
  mapped_label (mapped_label (py "Positive")) = mapped_label (py "Positive")
  ∧ (mapped_label (py "Positive") ∈ bucket_keys ↔
       py "Positive" ∈ [py "LABEL_0"; py "LABEL_1"; py "LABEL_2"]
       ∨ upper (py "Positive") ∈ bucket_keys)
  ∧ (mapped_label (py "Positive") ∉ bucket_keys →
     mapped_label (py "Positive") = py "Positive").
Proof.
  apply mapped_label_canonical. by repeat constructor.
Defined.

End label_runs.

Section keyword_runs.
#[local] Existing Instance fixtures.ascii_unicode.
#[local] Existing Instance fixtures.opaque_repr.
#[local] Existing Instance fixtures.repeating_chunks.

(** Chunks of which the first comes back: it keeps its first place. *)
Example repeated_chunk_first :
  extract_keywords (py "some text") = [py "aaa"; py "bbb"].
Proof. reflexivity. Qed.

End keyword_runs.

(** ** The readable records of a frame *)

Section readable_rows.
Context `{!Unicode, !Repr, !Nlp}.

Lemma rows_related (P : dict → dict → Prop) (records sents : list dict)
    (columns : gset pystr) :
  length sents = length records →
  (∀ record label score,
     let row :=
       set_item
         (set_item (enrich_row (record ∪ gset_to_gmap VNaN columns)) "sentiment" label)
         "sentiment_score" score in
     P record (set_item row "readable_output" (VDict (format_output row)))) →
  Forall2 P records
    ((λ row, set_item row "readable_output" (VDict (format_output row)))
       <$> zip_with (λ row v, set_item row "sentiment_score" v)
             (zip_with (λ row v, set_item row "sentiment" v)
                ((λ r, enrich_row (r ∪ gset_to_gmap VNaN columns)) <$> records)
                ((λ s, get s "label") <$> sents))
             ((λ s, get s "score") <$> sents)).
Proof.
  intros Hlen Hrow. revert sents Hlen.
  induction records as [|record records IH]; intros [|s sents] Hlen; try discriminate.
  { constructor. }
  cbn [fmap list_fmap zip_with]. constructor; [apply Hrow|apply IH; by injection Hlen].
Qed.

Lemma column_of_records (field : string) (records : list dict) :
  py field ∈ (⋃ (dom <$> records) : gset pystr) ↔ has_column field records.
Proof.
  unfold has_column. rewrite elem_of_union_list, Exists_exists. split.
  - intros (X & (record & -> & Hrec)%list_elem_of_fmap & Hin).
    exists record. split; [done|]. by apply elem_of_dom.
  - intros (record & Hrec & Hin). exists (dom record). split; [|by apply elem_of_dom].
    apply list_elem_of_fmap. by exists record.
Qed.

(** The username of the readable record of a row whose record has no
    username: the default of [format_output] when no record of the frame
    has one, and NaN as soon as one has. *)
Lemma readable_username_of_frame sched records batch_size max_workers out :
  process_dataframe sched (Some records) None false batch_size max_workers = Return out →
  Forall2 (λ record row,
    record !! py "username" = None →
    readable_field "username" row
    = if bool_decide (has_column "username" records) then VNaN else VStr [])
    records out.
Proof.
  intros (sents & Hlen & ->)%process_dataframe_inv.
  unfold DataFrame. rewrite <-list_fmap_compose.
  apply rows_related; [done|]. intros record label score. cbv zeta. intros Hnone.
  unfold readable_field, set_item. rewrite lookup_insert_eq.
  unfold get.
  assert (∀ row : dict,
            format_output row !! py "username"
            = Some (default (VStr []) (row !! py "username"))) as -> by reflexivity.
  cbn [default from_option id]. unfold enrich_row, set_item.
  rewrite !lookup_insert_ne by done.
  rewrite lookup_union_r by done. rewrite lookup_gset_to_gmap.
  case_bool_decide as Hcol.
  - apply column_of_records in Hcol. by rewrite option_guard_True.
  - rewrite option_guard_False; [done|]. by rewrite column_of_records.
Qed.

End readable_rows.

Section readable_runs.
#[local] Existing Instance fixtures.ascii_unicode.
#[local] Existing Instance fixtures.opaque_repr.
#[local] Existing Instance fixtures.by_length.
Import fixtures.

(** C9, at two records of which the second has no username: the
    readable record of its row has NaN for the username, not the empty
    string. *)
Theorem readable_username_nan :
  ∃ out,
    process_dataframe last_first (Some mixed_posts) None false 64 4 = Return out
    ∧ readable_field "username" <$> out = [VStr (py "ann"); VNaN]
    ∧ readable_field "url" <$> out = [VStr []; VStr []].
Proof.
  destruct (returned_of_projection
              (process_dataframe last_first (Some mixed_posts) None false 64 4)
              (λ row, (readable_field "username" row, readable_field "url" row))
              [(VStr (py "ann"), VStr []); (VNaN, VStr [])])
    as (out & Hrun & Hfields); [by vm_compute|done|].
  exists out. split; [exact Hrun|].
  apply (f_equal (fmap fst)) in Hfields as Hfst.
  apply (f_equal (fmap snd)) in Hfields as Hsnd.
  rewrite <-list_fmap_compose in Hfst, Hsnd. split; [exact Hfst|exact Hsnd].
Qed.

End readable_runs.
